(** * Crossword generation as a constraint-satisfaction problem

    A shallow embedding of [src/cs50ai/pset3/crossword/generate.py] and
    [helpers.py]: node consistency, [revise], AC-3, the consistency
    checker, the two ordering heuristics and the backtracking search.

    Python dictionaries keep insertion order and [deQueue] pops the first
    key, so dictionaries are association lists.  Python sets of words and
    of variables are [gset]s; iterating a set visits [elements] of it,
    whose order stands for the unspecified iteration order of a Python
    set.  Words are strings of 8-bit characters, as the upper-case words
    of the word lists are.  Exceptions are values of [result]. *)

From Stdlib Require Import String Ascii Arith Lia.
From stdpp Require Import base decidable option list sorting countable
  strings gmap fin_sets.

Set Default Proof Using "Type".

(** * Part I: the program *)

(** ** Outcomes of a call *)

Inductive exn := KeyError | IndexError | TypeError.

(** [Timeout] is the outcome of a loop or recursion that was given too
    little fuel; the termination theorems show it does not arise. *)
Inductive result (A : Type) :=
| Ok (a : A)
| Raise (e : exn)
| Timeout.
Arguments Ok {A} a.
Arguments Raise {A} e.
Arguments Timeout {A}.

Definition bind {A B} (m : result A) (f : A -> result B) : result B :=
  match m with
  | Ok a => f a
  | Raise e => Raise e
  | Timeout => Timeout
  end.

Notation "'do' x <- m ; k" := (bind m (fun x => k))
  (at level 10, x name, m at level 100, k at level 200,
   format "'[v' 'do'  x  <-  m ; '/' k ']'").
Notation "'do' ' pat <- m ; k" :=
  (bind m (fun x => match x with pat => k end))
  (at level 10, pat pattern, m at level 100, k at level 200,
   format "'[v' 'do'  ' pat  <-  m ; '/' k ']'").

(** A [for] loop whose body may raise, threading the loop-carried state. *)
Fixpoint foldM {A S} (body : S -> A -> result S) (l : list A) (s : S)
  : result S :=
  match l with
  | [] => Ok s
  | a :: l' => do s' <- body s a; foldM body l' s'
  end.

(** ** Python dictionaries: insertion-ordered association lists *)

Abbreviation dict K V := (list (K * V)) (only parsing).

Section Dict.
Context {K V : Type} `{EqDecision K}.

Fixpoint dict_get (d : dict K V) (k : K) : option V :=
  match d with
  | [] => None
  | (k', v) :: d' => if decide (k' = k) then Some v else dict_get d' k
  end.

(** [d[k]] *)
Definition dict_getitem (d : dict K V) (k : K) : result V :=
  match dict_get d k with
  | Some v => Ok v
  | None => Raise KeyError
  end.

(** [k in d] *)
Definition dict_contains (d : dict K V) (k : K) : bool :=
  bool_decide (is_Some (dict_get d k)).

(** [d[k] = v]: an existing key keeps its place, a new one goes last. *)
Fixpoint dict_set (d : dict K V) (k : K) (v : V) : dict K V :=
  match d with
  | [] => [(k, v)]
  | (k', v') :: d' =>
      if decide (k' = k) then (k', v) :: d' else (k', v') :: dict_set d' k v
  end.

(** [del d[k]] *)
Definition dict_del (d : dict K V) (k : K) : dict K V :=
  filter (fun kv => kv.1 <> k) d.

Definition dict_keys (d : dict K V) : list K := d.*1.
End Dict.

(** ** Python sets and strings *)

(** [s.remove(x)] raises [KeyError] when [x] is absent. *)
Definition set_remove `{Countable A} (x : A) (s : gset A) : result (gset A) :=
  if decide (x ∈ s) then Ok (s ∖ {[x]}) else Raise KeyError.

(** [s.add(x)] *)
Definition set_add `{Countable A} (x : A) (s : gset A) : gset A := s ∪ {[x]}.

(** [w[n]] for a non-negative [n]. *)
Definition str_index (w : string) (n : nat) : result ascii :=
  match String.get n w with
  | Some ch => Ok ch
  | None => Raise IndexError
  end.

(** [sorted(l, key=key)]: the built-in sort is stable, and so is this
    insertion sort. *)
Section Sorted.
Context {A : Type} (key : A -> nat).

Fixpoint insert_sorted (x : A) (l : list A) : list A :=
  match l with
  | [] => [x]
  | y :: l' => if key x <=? key y then x :: y :: l' else y :: insert_sorted x l'
  end.

Definition sorted (l : list A) : list A := foldr insert_sorted [] l.
End Sorted.

(** ** Variables and crosswords *)

Inductive Direction := ACROSS | DOWN.

(** Modelled from the spec: [crossword.py] is not among the sources.  A
    slot is identified by its start row, start column, orientation and
    length; [generate.py] reads the fields [i], [j], [direction] and
    [length] and uses slots as dictionary keys compared by value. *)
Module Var.
Record t := mk { i : nat; j : nat; direction : Direction; length : nat }.
End Var.

#[global] Instance Direction_eq_dec : EqDecision Direction.
Proof. solve_decision. Defined.

#[global] Instance Var_eq_dec : EqDecision Var.t.
Proof. solve_decision. Defined.

#[global] Instance Direction_countable : Countable Direction.
Proof.
  refine (inj_countable' (fun d => match d with ACROSS => false | DOWN => true end)
            (fun b => if b then DOWN else ACROSS) _).
  intros []; reflexivity.
Defined.

#[global] Instance Var_countable : Countable Var.t.
Proof.
  refine (inj_countable'
            (fun v => (Var.i v, Var.j v, Var.direction v, Var.length v))
            (fun p => match p with (a, b, d, n) => Var.mk a b d n end) _).
  intros []; reflexivity.
Defined.

(** Modelled from the spec: the crossword structure built by
    [crossword.py].  [overlaps] has an entry for pairs of slots; the entry
    is [None] when the two slots share no cell and the pair of character
    offsets otherwise. *)
Record Crossword := mkCrossword {
  variables : gset Var.t;
  words : gset string;
  overlaps : dict (Var.t * Var.t) (option (nat * nat))
}.

(** Modelled from the spec: [Crossword.neighbors] is not among the
    sources.  Two slots are neighbours when they are distinct and the
    overlap entry of the pair is defined. *)
Definition has_overlap (c : Crossword) (v var : Var.t) : Prop :=
  is_Some (mjoin (dict_get (overlaps c) (v, var))).

#[global] Instance has_overlap_dec c v var : Decision (has_overlap c v var).
Proof. unfold has_overlap. apply _. Defined.

Definition neighbors (c : Crossword) (var : Var.t) : gset Var.t :=
  filter (fun v => v <> var /\ has_overlap c v var) (variables c).

(** ** The solver state *)

Abbreviation domains := (dict Var.t (gset string)) (only parsing).
Abbreviation assignment := (dict Var.t string) (only parsing).

(** [CrosswordCreator.__init__]: every variable starts with a copy of the
    whole word list. *)
Definition init (c : Crossword) : domains :=
  (fun var => (var, words c)) <$> elements (variables c).

(** [self.domains[var].remove(w)] on the shared store. *)
Definition domain_remove (ds : domains) (var : Var.t) (w : string)
  : result domains :=
  do s <- dict_getitem ds var;
  do s' <- set_remove w s;
  Ok (dict_set ds var s').

(** ** Node consistency *)

Definition enforce_node_consistency (ds : domains) : result domains :=
  foldM (fun ds key =>
           do s0 <- dict_getitem ds key;
           foldM (fun ds domain =>
                    if decide (Var.length key <> String.length domain)
                    then domain_remove ds key domain
                    else Ok ds)
                 (elements s0) ds)
        (dict_keys ds) ds.

(** ** Arc consistency *)

(** The test of the inner loop of [revise]: both offsets are in range, the
    two words differ and they agree at the offsets.  The character reads
    can raise [IndexError]; [and] does not evaluate them when the words
    are the same. *)
Definition supports (charX charY : nat) (domainX domainY : string)
  : result bool :=
  if (charY <? String.length domainY) && (charX <? String.length domainX)
  then
    if decide (domainX <> domainY) then
      do a <- str_index domainX charX;
      do b <- str_index domainY charY;
      Ok (bool_decide (a = b))
    else Ok false
  else Ok false.

(** One iteration of the outer loop of [revise]: look for support of
    [domainX] in the domain of [y], remove [domainX] when there is none. *)
Definition revise_step (charX charY : nat) (x y : Var.t)
    (st : bool * domains) (domainX : string) : result (bool * domains) :=
  let '(revised, ds) := st in
  do dy <- dict_getitem ds y;
  do found <- foldM (fun found domainY =>
                       do b <- supports charX charY domainX domainY;
                       Ok (if b then true else found))
                    (elements dy) false;
  if found then Ok (revised, ds)
  else do ds' <- domain_remove ds x domainX; Ok (true, ds').

(** The source reads [overlaps[(x, y)]] twice, for the test against
    [None] and for the offsets; the entry cannot change in between. *)
Definition revise (c : Crossword) (x y : Var.t) (ds : domains)
  : result (bool * domains) :=
  do o <- dict_getitem (overlaps c) (x, y);
  match o with
  | None => Ok (false, ds)
  | Some (charX, charY) =>
      do dx0 <- dict_getitem ds x;
      foldM (revise_step charX charY x y) (elements dx0) (false, ds)
  end.

(** [helpers.deQueue]: returns the first key of the dictionary and deletes
    it; on an empty dictionary the loop body never runs and the function
    returns [None]. *)
Abbreviation queue := (dict (Var.t * Var.t) (option (nat * nat))) (only parsing).

Definition deQueue (q : queue) : option (Var.t * Var.t) * queue :=
  match q with
  | [] => (None, q)
  | (item, _) :: _ => (Some item, dict_del q item)
  end.

(** [helpers.removeNone] *)
Definition removeNone (q : queue) : result queue :=
  foldM (fun q key =>
           do o <- dict_getitem q key;
           match o with
           | None => Ok (dict_del q key)
           | Some _ => Ok q
           end)
        (dict_keys q) q.

(** The [for z in neighbors(arc[0])] loop of [ac3]. *)
Definition enqueue_neighbors (c : Crossword) (a0 a1 : Var.t) (q : queue)
  : result queue :=
  foldM (fun q z =>
           if decide (z = a1) then Ok q
           else do o <- dict_getitem (overlaps c) (z, a0);
                Ok (dict_set q (z, a0) o))
        (elements (neighbors c a0)) q.

(** The [while queue != {}] loop of [ac3].  Besides the verdict and the
    domains it reports how many calls of [revise] returned [True]; the
    count is not program state, it records the productive revisions of
    the run. *)
Fixpoint ac3_loop (c : Crossword) (fuel : nat) (q : queue) (ds : domains)
  : result (bool * domains * nat) :=
  match q with
  | [] => Ok (true, ds, 0)
  | _ :: _ =>
      match fuel with
      | 0 => Timeout
      | S fuel' =>
          match deQueue q with
          | (None, _) => Raise TypeError
          | (Some (a0, a1), q1) =>
              do '(revised, ds1) <- revise c a0 a1 ds;
              if revised : bool then
                do dx <- dict_getitem ds1 a0;
                if decide (size dx = 0) then Ok (false, ds1, 1)
                else
                  do q2 <- enqueue_neighbors c a0 a1 q1;
                  do '(ok, ds2, n) <- ac3_loop c fuel' q2 ds1;
                  Ok (ok, ds2, S n)
              else ac3_loop c fuel' q1 ds1
          end
      end
  end.

(** The number of candidate words over all domains. *)
Definition total_candidates (ds : domains) : nat :=
  sum_list ((fun kv => size kv.2) <$> ds).

(** Fuel that [ac3_loop] cannot exhaust: every iteration either removes a
    word, adding at most one arc per variable, or shortens the queue. *)
Definition ac3_fuel (c : Crossword) (q : queue) (ds : domains) : nat :=
  S (total_candidates ds * S (size (variables c)) + length q).

Definition ac3_counted (c : Crossword) (arcs : option queue) (ds : domains)
  : result (bool * domains * nat) :=
  do q <- match arcs with
          | None => removeNone (overlaps c)
          | Some arcs => Ok arcs
          end;
  ac3_loop c (ac3_fuel c q ds) q ds.

Definition ac3 (c : Crossword) (arcs : option queue) (ds : domains)
  : result (bool * domains) :=
  do '(ok, ds', _) <- ac3_counted c arcs ds;
  Ok (ok, ds').

(** ** The consistency checker *)

(** The values of an assignment are words taken from a domain, never
    [None], so the loop over the keys of [assignment_complete] cannot
    return [False]. *)
Definition assignment_complete (c : Crossword) (asg : assignment) : bool :=
  bool_decide (length (dict_keys asg) = size (variables c)).

(** The [for neighbor in neighbors(key)] loop of [consistent]; [w] is
    [assignment[key]]. *)
Fixpoint neighbors_agree (c : Crossword) (asg : assignment) (key : Var.t)
    (w : string) (ns : list Var.t) : result bool :=
  match ns with
  | [] => Ok true
  | neighbor :: ns' =>
      if dict_contains asg neighbor then
        do overlap <- dict_getitem (overlaps c) (key, neighbor);
        match overlap with
        | None => Raise TypeError
        | Some (o0, o1) =>
            do a <- str_index w o0;
            do wn <- dict_getitem asg neighbor;
            do b <- str_index wn o1;
            if decide (a <> b) then Ok false
            else neighbors_agree c asg key w ns'
        end
      else neighbors_agree c asg key w ns'
  end.

Fixpoint consistent_loop (c : Crossword) (asg : assignment)
    (keys : list Var.t) (seen : gset string) : result bool :=
  match keys with
  | [] => Ok true
  | key :: keys' =>
      do w <- dict_getitem asg key;
      if decide (String.length w <> Var.length key) then Ok false
      else if decide (w ∈ seen) then Ok false
      else
        do ok <- neighbors_agree c asg key w (elements (neighbors c key));
        if ok : bool then consistent_loop c asg keys' (set_add w seen)
        else Ok false
  end.

Definition consistent (c : Crossword) (asg : assignment) : result bool :=
  consistent_loop c asg (dict_keys asg) ∅.

(** ** Ordering heuristics *)

(** [rulesOut] of [order_domain_values]: the number of neighbours whose
    domain contains [value]. *)
Definition rules_out (c : Crossword) (ds : domains) (var : Var.t)
    (value : string) : result nat :=
  foldM (fun rulesOut neighbor =>
           do dn <- dict_getitem ds neighbor;
           Ok (if decide (value ∈ dn) then S rulesOut else rulesOut))
        (elements (neighbors c var)) 0.

Definition order_domain_values (c : Crossword) (ds : domains) (var : Var.t)
  : result (list string) :=
  do dv <- dict_getitem ds var;
  do order <- foldM (fun (order : dict string nat) value =>
                       do rulesOut <- rules_out c ds var value;
                       Ok (dict_set order value rulesOut))
                    (elements dv) [];
  Ok (sorted snd order).*1.

(** [variables is not None] always holds, so with no unassigned variable
    the code reads [sorted_variables[0]] of an empty list. *)
Definition select_unassigned_variable (c : Crossword) (ds : domains)
    (asg : assignment) : result Var.t :=
  do vars <- foldM (fun (vars : dict Var.t nat) variable =>
                      if dict_contains asg variable then Ok vars
                      else do dv <- dict_getitem ds variable;
                           Ok (dict_set vars variable (size dv)))
                   (elements (variables c)) [];
  match sorted snd vars with
  | [] => Raise IndexError
  | (variable, _) :: _ => Ok variable
  end.

(** ** Backtracking search *)

(** The first inner loop of [backtrack]: keep only [value] in the domain
    of [var] and remember what was taken out. *)
Definition restrict_domain (var : Var.t) (value : string) (ds : domains)
  : result (list string * domains) :=
  do dv0 <- dict_getitem ds var;
  foldM (fun '((inferenceValues, ds) : list string * domains) oldValue =>
           if decide (oldValue <> value) then
             do ds' <- domain_remove ds var oldValue;
             Ok (inferenceValues ++ [oldValue], ds')
           else Ok (inferenceValues, ds))
        (elements dv0) ([], ds).

(** The last inner loop of [backtrack]: put the remembered words back. *)
Definition restore_domain (var : Var.t) (inferenceValues : list string)
    (ds : domains) : result domains :=
  foldM (fun ds oldValue =>
           do dv <- dict_getitem ds var;
           Ok (dict_set ds var (set_add oldValue dv)))
        inferenceValues ds.

(** What a call of [backtrack] leaves behind: the returned assignment (or
    [None]), the domains, and the number of activations of [backtrack] it
    took.  The last component records control flow, it is not program
    state. *)
Abbreviation search := (option assignment * domains * nat)%type (only parsing).

(** One iteration of the [for value in ...] loop; [rec] is the recursive
    call. *)
Definition try_value (c : Crossword)
    (rec : assignment -> domains -> result search)
    (var : Var.t) (asg : assignment) (value : string) (ds : domains)
  : result search :=
  let new_assignment := dict_set asg var value in
  do '(inferenceValues, ds1) <- restrict_domain var value ds;
  do '(ok, ds2) <- ac3 c None ds1;
  do '(res, ds3, n) <-
     (if ok : bool then
        do good <- consistent c new_assignment;
        if good : bool then rec new_assignment ds2 else Ok (None, ds2, 0)
      else Ok (None, ds2, 0));
  match res with
  | Some r => Ok (Some r, ds3, n)
  | None =>
      do ds4 <- restore_domain var inferenceValues ds3;
      Ok (None, ds4, n)
  end.

Fixpoint try_values (c : Crossword)
    (rec : assignment -> domains -> result search)
    (var : Var.t) (asg : assignment) (values : list string) (ds : domains)
  : result search :=
  match values with
  | [] => Ok (None, ds, 0)
  | value :: values' =>
      do '(res, ds', n) <- try_value c rec var asg value ds;
      match res with
      | Some r => Ok (Some r, ds', n)
      | None =>
          do '(res', ds'', n') <- try_values c rec var asg values' ds';
          Ok (res', ds'', n + n')
      end
  end.

Fixpoint backtrack (c : Crossword) (fuel : nat) (asg : assignment)
    (ds : domains) : result search :=
  match fuel with
  | 0 => Timeout
  | S fuel' =>
      if assignment_complete c asg then Ok (Some asg, ds, 1)
      else
        do var <- select_unassigned_variable c ds asg;
        do values <- order_domain_values c ds var;
        do '(res, ds', n) <- try_values c (backtrack c fuel') var asg values ds;
        Ok (res, ds', S n)
  end.

(** Every activation of [backtrack] below another one assigns a variable
    more, so the depth is at most the number of variables plus one. *)
Definition backtrack_fuel (c : Crossword) : nat := S (size (variables c)).

(** [solve] on a freshly constructed [CrosswordCreator]. *)
Definition solve_counted (c : Crossword) : result search :=
  do ds1 <- enforce_node_consistency (init c);
  do '(_, ds2) <- ac3 c None ds1;
  backtrack c (backtrack_fuel c) [] ds2.

Definition solve (c : Crossword) : result (option assignment) :=
  do '(res, _, _) <- solve_counted c;
  Ok res.


(** * Specification vocabulary *)

(** [w] and [w'] have the same character at the offsets [charX] and
    [charY], both offsets being in range. *)
Definition agree (charX charY : nat) (w w' : string) : Prop :=
  is_Some (String.get charX w) /\ String.get charX w = String.get charY w'.

#[global] Instance agree_dec charX charY w w' : Decision (agree charX charY w w').
Proof. unfold agree. apply _. Defined.

(** What [revise] counts as support for [w] in the domain [dy]: another
    word that agrees with [w] at the overlap. *)
Definition supported (charX charY : nat) (dy : gset string) (w : string) : Prop :=
  set_Exists (fun w' => w <> w' /\ agree charX charY w w') dy.

#[global] Instance supported_dec charX charY dy w :
  Decision (supported charX charY dy w).
Proof. unfold supported. apply _. Defined.


(** Domains that have the same slots and can only have lost words. *)
Definition shrunk (ds' ds : domains) : Prop :=
  dict_keys ds' = dict_keys ds /\
  forall k s', dict_get ds' k = Some s' ->
    exists s, dict_get ds k = Some s /\ s' ⊆ s.

(** The degree of a slot: the number of its neighbours. *)
Definition degree (c : Crossword) (var : Var.t) : nat := size (neighbors c var).

(** The measure that C7 names: [neighbor] would lose at least one
    candidate if [value] were chosen for [var], that is, revising
    [neighbor] against [var] restricted to [value] removes a word. *)
Definition would_lose (c : Crossword) (ds : domains) (var : Var.t)
    (value : string) (neighbor : Var.t) : bool :=
  match revise c neighbor var (dict_set ds var {[value]}) with
  | Ok (revised, _) => revised
  | _ => false
  end.

Definition losing_neighbors (c : Crossword) (ds : domains) (var : Var.t)
    (value : string) : nat :=
  length (filter (fun neighbor => would_lose c ds var value neighbor = true)
                 (elements (neighbors c var))).

(** A complete and valid assignment: every slot has a word, of the length
    of the slot; distinct slots have distinct words; and neighbouring
    slots agree on the characters at their overlap offsets. *)
Definition valid_assignment (c : Crossword) (asg : assignment) : Prop :=
  (forall v, v ∈ variables c -> is_Some (dict_get asg v)) /\
  (forall v w, dict_get asg v = Some w -> String.length w = Var.length v) /\
  (forall v1 v2 w1 w2, v1 <> v2 ->
     dict_get asg v1 = Some w1 -> dict_get asg v2 = Some w2 -> w1 <> w2) /\
  (forall x y wx wy, y ∈ neighbors c x ->
     dict_get asg x = Some wx -> dict_get asg y = Some wy ->
     exists ox oy, dict_get (overlaps c) (x, y) = Some (Some (ox, oy)) /\
                   agree ox oy wx wy).

(** The invariant of the search: the assignment passed to [backtrack] was
    accepted by [consistent] and assigns distinct variables of the
    crossword. *)
Definition search_inv (c : Crossword) (asg : assignment) : Prop :=
  consistent c asg = Ok true /\
  NoDup (dict_keys asg) /\
  forall v, v ∈ dict_keys asg -> v ∈ variables c.

(** * Example crosswords

    The overlap entries of each example are listed in the order in which
    two nested loops over [elements] of the variables produce them. *)

Module Examples.
Local Open Scope string_scope.

(** Two slots of length 2 that cross at their first cells. *)
Definition A2 : Var.t := Var.mk 0 0 ACROSS 2.
Definition D2 : Var.t := Var.mk 0 0 DOWN 2.

Definition corner (ws : gset string) : Crossword :=
  mkCrossword {[A2; D2]} ws
    [((D2, A2), Some (0, 0)); ((A2, D2), Some (0, 0))].

(** A slot of length 3 across the top, and a slot of length 2 hanging
    down from each of its ends. *)
Definition X3 : Var.t := Var.mk 0 0 ACROSS 3.
Definition Y2 : Var.t := Var.mk 0 0 DOWN 2.
Definition Z2 : Var.t := Var.mk 0 2 DOWN 2.

Definition tee (ws : gset string) : Crossword :=
  mkCrossword {[X3; Y2; Z2]} ws
    [((Z2, Y2), None); ((Z2, X3), Some (0, 2));
     ((Y2, Z2), None); ((Y2, X3), Some (0, 0));
     ((X3, Z2), Some (2, 0)); ((X3, Y2), Some (0, 0))].

(** The same shape with legs of length 3, so that the three slots draw
    on the same words. *)
Definition Y3 : Var.t := Var.mk 0 0 DOWN 3.
Definition Z3 : Var.t := Var.mk 0 2 DOWN 3.

Definition arch (ws : gset string) : Crossword :=
  mkCrossword {[X3; Y3; Z3]} ws
    [((Z3, Y3), None); ((Z3, X3), Some (0, 2));
     ((Y3, Z3), None); ((Y3, X3), Some (0, 0));
     ((X3, Z3), Some (2, 0)); ((X3, Y3), Some (0, 0))].

(** A comb: a slot of length 5 across the top and three teeth of length 5
    hanging from its first, third and fifth cells. *)
Definition X5 : Var.t := Var.mk 0 0 ACROSS 5.
Definition T0 : Var.t := Var.mk 0 0 DOWN 5.
Definition T2 : Var.t := Var.mk 0 2 DOWN 5.
Definition T4 : Var.t := Var.mk 0 4 DOWN 5.

Definition comb (ws : gset string) : Crossword :=
  mkCrossword {[X5; T0; T2; T4]} ws
    [((T4, T2), None); ((T4, T0), None); ((T4, X5), Some (0, 4));
     ((T2, T4), None); ((T2, T0), None); ((T2, X5), Some (0, 2));
     ((T0, T4), None); ((T0, T2), None); ((T0, X5), Some (0, 0));
     ((X5, T4), Some (4, 0)); ((X5, T2), Some (2, 0)); ((X5, T0), Some (0, 0))].

(** A single slot of length 5. *)
Definition L5 : Var.t := Var.mk 0 0 ACROSS 5.

Definition alone (ws : gset string) : Crossword :=
  mkCrossword {[L5]} ws [].
End Examples.

(** * Rendering *)

(** The cell of the [k]-th letter of a slot: [letter_grid] steps down the
    rows for a [DOWN] slot and along the columns for an [ACROSS] one. *)
Definition cell (variable : Var.t) (k : nat) : nat * nat :=
  (Var.i variable + (if decide (Var.direction variable = DOWN) then k else 0),
   Var.j variable + (if decide (Var.direction variable = ACROSS) then k else 0)).

(** [letters[i][j] = ch] on a list of rows: both subscripts raise
    [IndexError] past the end. *)
Definition grid_set (letters : list (list (option ascii))) (i j : nat)
    (ch : ascii) : result (list (list (option ascii))) :=
  match letters !! i with
  | None => Raise IndexError
  | Some row =>
      if decide (j < length row)
      then Ok (<[i := <[j := Some ch]> row]> letters)
      else Raise IndexError
  end.

(** [letter_grid]; [height] and [width] are the dimensions of the
    crossword.  The grid starts out as [height] rows of [width] cells
    holding [None]. *)
Definition letter_grid (height width : nat) (asg : assignment)
  : result (list (list (option ascii))) :=
  foldM (fun letters (item : Var.t * string) =>
           let (variable, word) := item in
           foldM (fun letters k =>
                    let (i, j) := cell variable k in
                    do ch <- str_index word k;
                    grid_set letters i j ch)
                 (seq 0 (String.length word)) letters)
        asg (replicate height (replicate width None)).

(** * Vocabulary of the further properties *)

(** A well-formed overlap entry: its two slots are distinct variables of
    the crossword; when they share a cell, the entry of the reversed pair
    holds the reversed offsets, and each offset is inside its slot.  The
    table is built by [crossword.py], which is not among the sources, so
    this is a precondition of the theorems that name it, not a fact about
    that file. *)
Definition wf_entry (c : Crossword)
    (kv : Var.t * Var.t * option (nat * nat)) : Prop :=
  kv.1.1 ∈ variables c /\ kv.1.2 ∈ variables c /\ kv.1.1 <> kv.1.2 /\
  match kv.2 with
  | None => True
  | Some o =>
      dict_get (overlaps c) (kv.1.2, kv.1.1) = Some (Some (o.2, o.1)) /\
      o.1 < Var.length kv.1.1 /\ o.2 < Var.length kv.1.2
  end.

#[global] Instance wf_entry_dec c kv : Decision (wf_entry c kv).
Proof.
  unfold wf_entry. destruct kv as [[x y] [o|]]; simpl; apply _.
Defined.

(** A well-formed crossword: one overlap entry per pair of slots, each
    well formed. *)
Definition wf_crossword (c : Crossword) : Prop :=
  NoDup (dict_keys (overlaps c)) /\ Forall (wf_entry c) (overlaps c).

#[global] Instance wf_crossword_dec c : Decision (wf_crossword c).
Proof. unfold wf_crossword. apply _. Defined.

(** Arc consistency: along every overlap, every word of the first domain
    has support in the second. *)
Definition arc_ok (c : Crossword) (ds : domains) (x y : Var.t) : Prop :=
  forall charX charY dx dy,
    dict_get (overlaps c) (x, y) = Some (Some (charX, charY)) ->
    dict_get ds x = Some dx -> dict_get ds y = Some dy ->
    forall w, w ∈ dx -> supported charX charY dy w.

Definition arc_consistent (c : Crossword) (ds : domains) : Prop :=
  forall x y, arc_ok c ds x y.

(** Every word of the assignment is in the domain of its slot. *)
Definition within (asg : assignment) (ds : domains) : Prop :=
  forall v w, dict_get asg v = Some w ->
    exists s, dict_get ds v = Some s /\ w ∈ s.

(** Every word of every domain has the length of its slot. *)
Definition node_consistent (ds : domains) : Prop :=
  forall v s w, dict_get ds v = Some s -> w ∈ s ->
    String.length w = Var.length v.

(** The entry of the grid at a cell, when the cell is inside the grid. *)
Definition grid_get (letters : list (list (option ascii))) (p : nat * nat)
  : option (option ascii) :=
  row ← letters !! p.1; row !! p.2.

(** The cells an assignment writes, in the order [letter_grid] writes
    them, each with its letter. *)
Definition writes_of (item : Var.t * string) : list (nat * nat * ascii) :=
  omap (fun k => ch ← String.get k item.2; Some (cell item.1 k, ch))
       (seq 0 (String.length item.2)).

Definition writes (asg : assignment) : list (nat * nat * ascii) :=
  asg ≫= writes_of.

(** Every word of [r] is the word [a] gives its slot or is in the domain
    of its slot in [ds]. *)
Definition drawn_from (a : assignment) (ds : domains) (r : assignment)
  : Prop :=
  forall v w, dict_get r v = Some w ->
    dict_get a v = Some w \/ exists s, dict_get ds v = Some s /\ w ∈ s.

(** Every word of the assignment has the length of its slot. *)
Definition fits (asg : assignment) : Prop :=
  forall v w, dict_get asg v = Some w -> String.length w = Var.length v.

(** * Part II: properties *)

(** ** The result monad and loops *)

Lemma bind_Ok {A B} (m : result A) (f : A -> result B) (b : B) :
  bind m f = Ok b <-> exists a, m = Ok a /\ f a = Ok b.
Proof.
  destruct m as [a| |]; simpl; split.
  - eauto.
  - intros (a' & [= ->] & ?); done.
  - done.
  - intros (? & ? & ?); done.
  - done.
  - intros (? & ? & ?); done.
Qed.

Lemma bind_not_Timeout {A B} (m : result A) (f : A -> result B) :
  m <> Timeout -> (forall a, m = Ok a -> f a <> Timeout) ->
  bind m f <> Timeout.
Proof. destruct m; simpl; intros; eauto; done. Qed.

(** Simplifies hypotheses [bind m f = Ok b] into their two halves. *)
Ltac inv_bind :=
  repeat match goal with
    | H : bind _ _ = Ok _ |- _ =>
        let a := fresh "a" in
        let Ha := fresh "E" in
        apply bind_Ok in H; destruct H as (a & Ha & H)
    | H : Ok _ = Ok _ |- _ => injection H as H; subst
    | H : Raise _ = Ok _ |- _ => discriminate H
    | H : Timeout = Ok _ |- _ => discriminate H
    end.

(** Closes an equation between closed terms by evaluating both sides. *)
Ltac by_vm :=
  match goal with |- _ = ?r => vm_cast_no_check (eq_refl r) end.

(** Loop invariants: [P pre s] holds of the state [s] reached after the
    loop has visited [pre]. *)
Lemma foldM_inv {A S} (P : list A -> S -> Prop) (body : S -> A -> result S)
    (l : list A) (s : S) :
  P [] s ->
  (forall pre a post s, l = pre ++ a :: post -> P pre s ->
     exists s', body s a = Ok s' /\ P (pre ++ [a]) s') ->
  exists s', foldM body l s = Ok s' /\ P l s'.
Proof.
  assert (G : forall post pre s, l = pre ++ post -> P pre s ->
     (forall pre a post s, l = pre ++ a :: post -> P pre s ->
        exists s', body s a = Ok s' /\ P (pre ++ [a]) s') ->
     exists s', foldM body post s = Ok s' /\ P l s').
  { induction post as [|a post IH]; intros pre s0 El H0 Hstep; simpl.
    - rewrite app_nil_r in El. subst. eauto.
    - destruct (Hstep pre a post s0 El H0) as (s1 & -> & H1). simpl.
      apply (IH (pre ++ [a])); [by rewrite <- app_assoc | done | done]. }
  intros. by apply (G l []).
Qed.

Lemma foldM_inv_Ok {A S} (P : list A -> S -> Prop) (body : S -> A -> result S)
    (l : list A) (s s' : S) :
  P [] s ->
  (forall pre a post s s', l = pre ++ a :: post -> P pre s ->
     body s a = Ok s' -> P (pre ++ [a]) s') ->
  foldM body l s = Ok s' -> P l s'.
Proof.
  assert (G : forall post pre s, l = pre ++ post -> P pre s ->
     (forall pre a post s s', l = pre ++ a :: post -> P pre s ->
        body s a = Ok s' -> P (pre ++ [a]) s') ->
     foldM body post s = Ok s' -> P l s').
  { induction post as [|a post IH]; intros pre s0 El H0 Hstep; simpl.
    - rewrite app_nil_r in El. intros [= <-]. by subst.
    - intros H. inv_bind.
      apply (IH (pre ++ [a]) a0); [by rewrite <- app_assoc | eauto | done | done]. }
  intros. by apply (G l [] s).
Qed.

Lemma foldM_not_Timeout {A S} (body : S -> A -> result S) (l : list A) (s : S) :
  (forall s a, body s a <> Timeout) -> foldM body l s <> Timeout.
Proof.
  intros Hb. revert s. induction l as [|a l IH]; intros s; simpl; [done|].
  apply bind_not_Timeout; eauto.
Qed.

Lemma foldM_id {A S} (body : S -> A -> result S) (l : list A) (s : S) :
  (forall a, a ∈ l -> body s a = Ok s) -> foldM body l s = Ok s.
Proof.
  induction l as [|a l IH]; intros Hb; simpl; [done|].
  rewrite Hb by left. simpl. apply IH. intros. apply Hb. by right.
Qed.

(** ** Dictionaries *)

Section DictFacts.
Context {K V : Type} `{EqDecision K}.
Implicit Types (d : dict K V) (k : K) (v : V).

Lemma dict_get_set d k v k' :
  dict_get (dict_set d k v) k' =
  if decide (k = k') then Some v else dict_get d k'.
Proof.
  induction d as [|[k0 v0] d IH]; simpl.
  - repeat case_decide; done.
  - destruct (decide (k0 = k)), (decide (k = k')); simpl;
      destruct (decide (k0 = k')); congruence.
Qed.

Lemma dict_get_set_eq d k v : dict_get (dict_set d k v) k = Some v.
Proof. rewrite dict_get_set. by case_decide. Qed.

Lemma dict_get_set_ne d k v k' :
  k <> k' -> dict_get (dict_set d k v) k' = dict_get d k'.
Proof. intros. rewrite dict_get_set. by case_decide. Qed.

Lemma dict_get_None d k : dict_get d k = None <-> k ∉ dict_keys d.
Proof.
  unfold dict_keys. induction d as [|[k0 v0] d IH]; simpl.
  - split; [intros _; apply not_elem_of_nil | done].
  - rewrite not_elem_of_cons. case_decide; subst.
    + split; [done | intros []; done].
    + rewrite IH. split; [by split | by intros []].
Qed.

Lemma dict_get_is_Some d k : is_Some (dict_get d k) <-> k ∈ dict_keys d.
Proof.
  rewrite <- not_eq_None_Some, dict_get_None.
  split; [apply dec_stable | auto].
Qed.


Lemma dict_contains_true d k : dict_contains d k = true <-> k ∈ dict_keys d.
Proof.
  unfold dict_contains. rewrite bool_decide_eq_true. apply dict_get_is_Some.
Qed.

Lemma dict_contains_false d k : dict_contains d k = false <-> k ∉ dict_keys d.
Proof.
  unfold dict_contains. rewrite bool_decide_eq_false.
  by rewrite dict_get_is_Some.
Qed.

Lemma dict_keys_set_in d k v :
  k ∈ dict_keys d -> dict_keys (dict_set d k v) = dict_keys d.
Proof.
  unfold dict_keys. induction d as [|[k0 v0] d IH]; csimpl.
  - by intros ?%elem_of_nil.
  - case_decide; subst; csimpl; [done|].
    intros [?|?]%elem_of_cons; [congruence|]. by rewrite IH.
Qed.

Lemma dict_keys_set_notin d k v :
  k ∉ dict_keys d -> dict_keys (dict_set d k v) = dict_keys d ++ [k].
Proof.
  unfold dict_keys. induction d as [|[k0 v0] d IH]; csimpl; [done|].
  rewrite not_elem_of_cons. intros [? ?].
  case_decide; [congruence|]. csimpl. by rewrite IH.
Qed.

Lemma dict_set_same d k v : dict_get d k = Some v -> dict_set d k v = d.
Proof.
  induction d as [|[k0 v0] d IH]; simpl; [done|].
  case_decide; subst.
  - by intros [= ->].
  - intros. by rewrite IH.
Qed.

Lemma dict_set_set d k v v' :
  dict_set (dict_set d k v) k v' = dict_set d k v'.
Proof.
  induction d as [|[k0 v0] d IH]; simpl.
  - by case_decide.
  - case_decide; simpl; case_decide; try done. by rewrite IH.
Qed.

Lemma length_dict_set d k v : length (dict_set d k v) <= S (length d).
Proof.
  induction d as [|[k0 v0] d IH]; simpl; [lia|].
  case_decide; simpl; lia.
Qed.

Lemma length_dict_del_head k v d :
  length (dict_del ((k, v) :: d) k) <= length d.
Proof.
  unfold dict_del. rewrite filter_cons. simpl.
  case_decide; [done | apply length_filter].
Qed.
End DictFacts.

(** ** Removing words from a domain *)

Lemma domain_remove_Ok (ds : domains) (var : Var.t) (s : gset string) (w : string) :
  dict_get ds var = Some s -> w ∈ s ->
  domain_remove ds var w = Ok (dict_set ds var (s ∖ {[w]})).
Proof.
  intros Hs Hw. unfold domain_remove, dict_getitem, set_remove.
  rewrite Hs. simpl. by rewrite decide_True.
Qed.


(** The idiom of [enforce_node_consistency]: walk over a copy of the
    domain of [var] and remove the words that satisfy [P]. *)
Lemma remove_loop (P : string -> Prop) `{!forall w, Decision (P w)}
    (ds : domains) (var : Var.t) (s0 : gset string) :
  dict_get ds var = Some s0 ->
  foldM (fun ds w => if decide (P w) then domain_remove ds var w else Ok ds)
        (elements s0) ds
  = Ok (dict_set ds var (filter (fun w => ~ P w) s0)).
Proof.
  intros Hs.
  destruct (foldM_inv
    (fun pre cur => cur = dict_set ds var
                            (filter (fun w => ~ (P w /\ w ∈ pre)) s0))
    (fun ds w => if decide (P w) then domain_remove ds var w else Ok ds)
    (elements s0) ds) as (cur & -> & ->).
  - symmetry. apply dict_set_same. rewrite Hs. f_equal.
    apply set_eq. intros w. rewrite elem_of_filter, elem_of_nil. tauto.
  - intros pre a post cur El ->.
    assert (NoDup (pre ++ a :: post)) as Hnd by (rewrite <- El; apply NoDup_elements).
    apply NoDup_app in Hnd as (_ & Hpre & _).
    assert (a ∈ s0) as Ha.
    { apply elem_of_elements. rewrite El, elem_of_app. right; left. }
    assert (a ∉ pre) as Hap.
    { intros Hin. apply (Hpre a Hin). left. }
    case_decide as HP.
    + eexists; split.
      * apply domain_remove_Ok; [apply dict_get_set_eq|].
        apply elem_of_filter. tauto.
      * rewrite dict_set_set. f_equal. apply set_eq. intros w.
        rewrite elem_of_difference, !elem_of_filter, elem_of_app,
          list_elem_of_singleton, elem_of_singleton.
        destruct (decide (w = a)); subst; tauto.
    + eexists; split; [done|]. f_equal. apply set_eq. intros w.
      rewrite !elem_of_filter, elem_of_app, list_elem_of_singleton.
      destruct (decide (w = a)); subst; tauto.
  - f_equal. f_equal. apply set_eq. intros w.
    rewrite !elem_of_filter, elem_of_elements. tauto.
Qed.

(** ** Node consistency (C8) *)

Lemma enforce_node_consistency_fix (ds : domains) :
  (forall key s w, dict_get ds key = Some s -> w ∈ s ->
     String.length w = Var.length key) ->
  enforce_node_consistency ds = Ok ds.
Proof.
  intros Hlen. unfold enforce_node_consistency. apply foldM_id.
  intros key Hkey. apply dict_get_is_Some in Hkey as [s Hs].
  unfold dict_getitem. rewrite Hs. simpl. apply foldM_id.
  intros w Hw%elem_of_elements.
  case_decide as Hne; [|done]. destruct Hne. symmetry. eauto.
Qed.

Lemma enforce_node_consistency_filter (ds : domains) :
  exists ds',
    enforce_node_consistency ds = Ok ds' /\
    dict_keys ds' = dict_keys ds /\
    forall key s, dict_get ds key = Some s ->
      dict_get ds' key =
      Some (filter (fun w => String.length w = Var.length key) s).
Proof.
  pose (filt := fun (key : Var.t) (s : gset string) =>
                  filter (fun w => String.length w = Var.length key) s).
  destruct (foldM_inv
    (fun pre (cur : domains) =>
       dict_keys cur = dict_keys ds /\
       forall key s, dict_get ds key = Some s ->
         dict_get cur key = Some (if decide (key ∈ pre) then filt key s else s))
    (fun ds key =>
       do s0 <- dict_getitem ds key;
       foldM (fun ds domain =>
                if decide (Var.length key <> String.length domain)
                then domain_remove ds key domain else Ok ds)
             (elements s0) ds)
    (dict_keys ds) ds) as (ds' & E & Hk & Hg).
  - split; [done|]. intros key s Hs. rewrite decide_False; [done|].
    apply not_elem_of_nil.
  - intros pre key post cur El [Hk Hg].
    assert (key ∈ dict_keys ds) as Hin.
    { rewrite El, elem_of_app. right; left. }
    apply dict_get_is_Some in Hin as [s Hs].
    pose proof (Hg key s Hs) as Hcur.
    unfold dict_getitem. rewrite Hcur. simpl.
    rewrite (remove_loop (fun w => Var.length key <> String.length w) _ _ _ Hcur).
    eexists; split; [done|]. split.
    + rewrite dict_keys_set_in; [done|].
      apply dict_get_is_Some. rewrite Hcur. eauto.
    + intros key' s' Hs'. rewrite dict_get_set.
      destruct (decide (key = key')) as [<-|Hne].
      * destruct (decide (key ∈ pre ++ [key])) as [_|Hn];
          [|destruct Hn; apply elem_of_app; right; left].
        f_equal. replace s' with s by congruence.
        apply set_eq. intros w. unfold filt.
        destruct (decide (String.length w = Var.length key));
          case_decide; rewrite !elem_of_filter; intuition congruence.
      * rewrite (Hg key' s' Hs').
        destruct (decide (key' ∈ pre)).
        -- destruct (decide (key' ∈ pre ++ [key])) as [_|Hn]; [done|].
           destruct Hn. apply elem_of_app. by left.
        -- destruct (decide (key' ∈ pre ++ [key])) as [Hn|_]; [|done].
           apply elem_of_app in Hn as [?|?%list_elem_of_singleton]; done.
  - exists ds'. split; [done|]. split; [done|].
    intros key s Hs. rewrite (Hg key s Hs).
    rewrite decide_True; [done|].
    apply dict_get_is_Some. rewrite Hs. eauto.
Qed.

(** C8: [enforce_node_consistency] never raises; it keeps, in the domain
    of every slot, exactly the words whose length is the length of the
    slot (it removes exactly the words of a different length); and run
    again on the domains it produced it changes nothing. *)
Theorem enforce_node_consistency_spec (ds : domains) :
  exists ds',
    enforce_node_consistency ds = Ok ds' /\
    dict_keys ds' = dict_keys ds /\
    (forall key s, dict_get ds key = Some s ->
       exists s', dict_get ds' key = Some s' /\
         forall w, w ∈ s' <-> w ∈ s /\ String.length w = Var.length key) /\
    enforce_node_consistency ds' = Ok ds'.
Proof.
  destruct (enforce_node_consistency_filter ds) as (ds' & E & Hk & Hg).
  exists ds'. repeat split; try done.
  - intros key s Hs. eexists; split; [by apply Hg|].
    intros w. rewrite elem_of_filter. tauto.
  - apply enforce_node_consistency_fix. intros key s' w Hs' Hw.
    assert (key ∈ dict_keys ds) as Hin.
    { rewrite <- Hk. apply dict_get_is_Some. rewrite Hs'. eauto. }
    apply dict_get_is_Some in Hin as [s Hs].
    rewrite (Hg key s Hs) in Hs'. injection Hs' as <-.
    by apply elem_of_filter in Hw as [? _].
Qed.

(** ** [revise] (C4, C10) *)

Lemma string_get_is_Some (w : string) (n : nat) :
  is_Some (String.get n w) <-> n < String.length w.
Proof.
  revert n. induction w as [|ch w IH]; intros n; simpl.
  - split; [intros [? ?]; done | lia].
  - destruct n as [|n]; simpl.
    + split; [lia | eauto].
    + rewrite IH. lia.
Qed.

Lemma agree_iff (charX charY : nat) (w w' : string) :
  agree charX charY w w' <->
  exists ch, String.get charX w = Some ch /\ String.get charY w' = Some ch.
Proof.
  unfold agree. split.
  - intros [[ch Hch] Heq]. exists ch. by rewrite <- Heq.
  - intros (ch & Hx & Hy). rewrite Hx, Hy. eauto.
Qed.

(** The length guards of [revise] make both character reads succeed. *)
Lemma supports_Ok (charX charY : nat) (w w' : string) :
  supports charX charY w w'
  = Ok (bool_decide (w <> w' /\ agree charX charY w w')).
Proof.
  unfold supports, str_index.
  destruct (Nat.ltb_spec charY (String.length w')) as [Hy|Hy]; simpl.
  - destruct (Nat.ltb_spec charX (String.length w)) as [Hx|Hx]; simpl.
    + apply string_get_is_Some in Hx as [a Ha], Hy as [b Hb].
      rewrite Ha, Hb. case_decide as Hne; simpl.
      * f_equal. apply bool_decide_ext. rewrite agree_iff. split.
        -- intros ->. eauto.
        -- intros (_ & ch & ? & ?). congruence.
      * f_equal. symmetry. apply bool_decide_eq_false. tauto.
    + f_equal. symmetry. apply bool_decide_eq_false.
      intros (_ & Hs%string_get_is_Some & _). lia.
  - f_equal. symmetry. apply bool_decide_eq_false. rewrite agree_iff.
    intros (_ & ch & _ & Hb).
    assert (is_Some (String.get charY w')) as Hs%string_get_is_Some by eauto.
    lia.
Qed.

(** The inner loop of [revise] decides whether [w] has support. *)
Lemma revise_inner (charX charY : nat) (w : string) (dy : gset string) :
  foldM (fun found domainY =>
           do b <- supports charX charY w domainY;
           Ok (if b then true else found))
        (elements dy) false
  = Ok (bool_decide (supported charX charY dy w)).
Proof.
  destruct (foldM_inv
    (fun pre found =>
       found = bool_decide (Exists (fun w' => w <> w' /\ agree charX charY w w') pre))
    (fun found domainY =>
       do b <- supports charX charY w domainY;
       Ok (if b then true else found))
    (elements dy) false) as (found & -> & ->).
  - symmetry. apply bool_decide_eq_false. by intros ?%Exists_nil.
  - intros pre a post found El ->. rewrite supports_Ok. simpl.
    eexists; split; [done|].
    case_bool_decide as Ha.
    + symmetry. apply bool_decide_eq_true. apply Exists_app. right. by left.
    + apply bool_decide_ext. rewrite Exists_app, Exists_cons, Exists_nil. tauto.
  - f_equal. apply bool_decide_ext. unfold supported, set_Exists.
    rewrite Exists_exists. by setoid_rewrite elem_of_elements.
Qed.

Lemma revise_loop (charX charY : nat) (x y : Var.t) (ds : domains)
    (dx : gset string) :
  dict_get ds x = Some dx -> is_Some (dict_get ds y) ->
  exists dx',
    foldM (revise_step charX charY x y) (elements dx) (false, ds)
    = Ok (bool_decide (dx' <> dx), dict_set ds x dx') /\
    dx' ⊆ dx /\
    (x <> y -> forall dy, dict_get ds y = Some dy ->
       dx' = filter (supported charX charY dy) dx).
Proof.
  intros Hx Hy.
  destruct (foldM_inv
    (fun pre (st : bool * domains) =>
       exists s, st = (bool_decide (s <> dx), dict_set ds x s) /\
         s ⊆ dx /\
         (forall w, w ∈ dx -> w ∉ pre -> w ∈ s) /\
         (x <> y -> forall dy, dict_get ds y = Some dy ->
            s = filter (fun w => w ∈ pre -> supported charX charY dy w) dx))
    (revise_step charX charY x y) (elements dx) (false, ds))
    as (st & E & s & -> & Hsub & _ & Hex).
  - exists dx. repeat split; try done.
    + rewrite bool_decide_eq_false_2 by auto.
      by rewrite (dict_set_same _ _ _ Hx).
    + intros _ dy _. apply set_eq. intros w.
      rewrite elem_of_filter, elem_of_nil. tauto.
  - intros pre a post st El (s & -> & Hsub & Hin & Hex).
    assert (NoDup (pre ++ a :: post)) as Hnd by (rewrite <- El; apply NoDup_elements).
    apply NoDup_app in Hnd as (_ & Hpre & _).
    assert (a ∈ dx) as Ha.
    { apply elem_of_elements. rewrite El, elem_of_app. right; left. }
    assert (a ∉ pre) as Hap.
    { intros Hi. apply (Hpre a Hi). left. }
    assert (exists dyc, dict_get (dict_set ds x s) y = Some dyc /\
                        (x <> y -> dict_get ds y = Some dyc)) as (dyc & Hdyc & Hdy).
    { rewrite dict_get_set. case_decide; [eexists; split; [done|]; done|].
      destruct Hy as [dy Hdy]. eauto. }
    unfold revise_step, dict_getitem. rewrite Hdyc. simpl.
    rewrite revise_inner. simpl. case_bool_decide as Hsup.
    + eexists; split; [done|]. exists s. repeat split; try done.
      * intros w Hw Hnw. apply Hin; [done|].
        intros ?. apply Hnw, elem_of_app. by left.
      * intros Hne dy Hdy'. rewrite (Hex Hne dy Hdy').
        assert (dyc = dy) as -> by (specialize (Hdy Hne); congruence).
        apply set_eq. intros w.
        rewrite !elem_of_filter, elem_of_app, list_elem_of_singleton.
        destruct (decide (w = a)); subst; tauto.
    + rewrite (domain_remove_Ok _ _ s); [|apply dict_get_set_eq|by apply Hin].
      simpl. eexists; split; [done|]. exists (s ∖ {[a]}).
      rewrite dict_set_set. repeat split.
      * f_equal. symmetry. apply bool_decide_eq_true.
        intros Heq. rewrite <- Heq in Ha.
        apply elem_of_difference in Ha as [_ Hn]. by apply Hn, elem_of_singleton.
      * intros w [Hw _]%elem_of_difference. by apply Hsub.
      * intros w Hw Hnw. rewrite elem_of_app, list_elem_of_singleton in Hnw.
        apply elem_of_difference. split; [apply Hin; tauto|].
        rewrite elem_of_singleton. tauto.
      * intros Hne dy Hdy'. rewrite (Hex Hne dy Hdy').
        assert (dyc = dy) as -> by (specialize (Hdy Hne); congruence).
        apply set_eq. intros w.
        rewrite elem_of_difference, !elem_of_filter, elem_of_app,
          list_elem_of_singleton, elem_of_singleton.
        destruct (decide (w = a)); subst; tauto.
  - exists s. repeat split; try done.
    intros Hne dy Hdy. rewrite (Hex Hne dy Hdy).
    apply set_eq. intros w. rewrite !elem_of_filter, elem_of_elements. tauto.
Qed.

Lemma revise_None (c : Crossword) (x y : Var.t) (ds : domains) :
  dict_get (overlaps c) (x, y) = Some None -> revise c x y ds = Ok (false, ds).
Proof. intros H. unfold revise, dict_getitem. by rewrite H. Qed.

Lemma revise_Some (c : Crossword) (x y : Var.t) (ds : domains)
    (charX charY : nat) (dx : gset string) :
  dict_get (overlaps c) (x, y) = Some (Some (charX, charY)) ->
  dict_get ds x = Some dx -> is_Some (dict_get ds y) ->
  exists dx',
    revise c x y ds = Ok (bool_decide (dx' <> dx), dict_set ds x dx') /\
    dx' ⊆ dx /\
    (x <> y -> forall dy, dict_get ds y = Some dy ->
       dx' = filter (supported charX charY dy) dx).
Proof.
  intros Ho Hx Hy. unfold revise, dict_getitem. rewrite Ho, Hx. simpl.
  by apply revise_loop.
Qed.

(** [revise] either changes nothing and answers [False], or shrinks the
    domain of [x] strictly and answers [True]. *)
Lemma revise_inv (c : Crossword) (x y : Var.t) (ds ds' : domains) (b : bool) :
  revise c x y ds = Ok (b, ds') ->
  (b = false /\ ds' = ds) \/
  (b = true /\ exists dx dx',
      dict_get ds x = Some dx /\ dx' ⊂ dx /\ ds' = dict_set ds x dx').
Proof.
  intros H. unfold revise, dict_getitem in H.
  destruct (dict_get (overlaps c) (x, y)) as [[[charX charY]|]|] eqn:Ho;
    simpl in H; [| |done].
  - destruct (dict_get ds x) as [dx|] eqn:Hx; simpl in H; [|done].
    destruct (dict_get ds y) as [dy|] eqn:Hy.
    + destruct (revise_loop charX charY x y ds dx Hx) as (dx' & E & Hsub & _);
        [by rewrite Hy|].
      rewrite E in H. injection H as <- <-.
      case_bool_decide as Hne.
      * right. split; [done|]. exists dx, dx'. repeat split; try done.
        intros Hsup. apply Hne. by apply (anti_symm (⊆)).
      * left. split; [done|].
        rewrite Hne. by apply dict_set_same.
    + destruct (elements dx) as [|a l]; simpl in H.
      * injection H as <- <-. by left.
      * unfold revise_step, dict_getitem in H. by rewrite Hy in H.
  - injection H as <- <-. by left.
Qed.

(** [revise] answers with a value or with [KeyError]; it never runs out
    of a string and never loops. *)
Lemma revise_step_raises (charX charY : nat) (x y : Var.t)
    (st : bool * domains) (w : string) :
  (exists st', revise_step charX charY x y st w = Ok st') \/
  revise_step charX charY x y st w = Raise KeyError.
Proof.
  destruct st as [revised ds]. unfold revise_step, dict_getitem.
  destruct (dict_get ds y) as [dy|]; simpl; [|by right].
  rewrite revise_inner. simpl. case_bool_decide; [eauto|].
  unfold domain_remove, dict_getitem, set_remove.
  destruct (dict_get ds x) as [dx|]; simpl; [|by right].
  case_decide; simpl; eauto.
Qed.

Lemma revise_raises (c : Crossword) (x y : Var.t) (ds : domains) :
  (exists r, revise c x y ds = Ok r) \/ revise c x y ds = Raise KeyError.
Proof.
  unfold revise, dict_getitem.
  destruct (dict_get (overlaps c) (x, y)) as [[[charX charY]|]|]; simpl;
    [| eauto | by right].
  destruct (dict_get ds x) as [dx|]; simpl; [|by right].
  generalize (false, ds). induction (elements dx) as [|w l IH]; intros st; simpl.
  - eauto.
  - destruct (revise_step_raises charX charY x y st w) as [[st' ->]| ->]; simpl;
      [apply IH | by right].
Qed.

(** C4, as amended: for distinct slots [x] and [y] with overlap offsets
    [(charX, charY)], [revise] keeps in the domain of [x] exactly the words
    that have support in the domain of [y], where support is a word of the
    domain of [y] that is different from the word itself and agrees with it
    at the overlap offsets (both in range); every other domain, that of
    [y] included, is left as it was; and the answer is [True] exactly when
    some word was removed. *)
Theorem revise_removes_unsupported (c : Crossword) (x y : Var.t)
    (ds : domains) (charX charY : nat) (dx dy : gset string) :
  x <> y ->
  dict_get (overlaps c) (x, y) = Some (Some (charX, charY)) ->
  dict_get ds x = Some dx ->
  dict_get ds y = Some dy ->
  exists b ds' dx',
    revise c x y ds = Ok (b, ds') /\
    dict_get ds' x = Some dx' /\
    (forall w, w ∈ dx' <-> w ∈ dx /\ supported charX charY dy w) /\
    dict_get ds' y = Some dy /\
    (forall z, z <> x -> dict_get ds' z = dict_get ds z) /\
    (b = true <-> exists w, w ∈ dx /\ w ∉ dx').
Proof.
  intros Hne Ho Hx Hy.
  destruct (revise_Some c x y ds charX charY dx Ho Hx) as (dx' & E & Hsub & Hex);
    [by rewrite Hy|].
  specialize (Hex Hne dy Hy). subst dx'.
  eexists _, _, _. split; [exact E|].
  split; [apply dict_get_set_eq|].
  split; [intros w; rewrite elem_of_filter; tauto|].
  split; [by rewrite dict_get_set_ne|].
  split; [intros z Hz; by rewrite dict_get_set_ne|].
  split.
  - intros Hb%bool_decide_eq_true.
    destruct (decide (set_Forall (supported charX charY dy) dx)) as [Hall|Hnall].
    + destruct Hb. apply set_eq. intros w. rewrite elem_of_filter.
      split; [tauto|]. intros Hw. split; [by apply Hall | done].
    + apply (not_set_Forall_Exists _) in Hnall as (w & Hw & Hns).
      exists w. split; [done|]. rewrite elem_of_filter. intros [? _]. by apply Hns.
  - intros (w & Hw & Hnw). apply bool_decide_eq_true. intros Heq.
    apply Hnw. by rewrite Heq.
Qed.

(** C10: [revise] returns on a pair whose overlap entry is [None], with
    the answer [False] and every domain as it was; and on a pair with a
    defined overlap between slots that have domains it returns whatever
    the lengths of the words are, so no character read is out of range. *)
Theorem revise_total (c : Crossword) (x y : Var.t) (ds : domains)
    (o : option (nat * nat)) :
  dict_get (overlaps c) (x, y) = Some o ->
  o = None \/ (x ∈ dict_keys ds /\ y ∈ dict_keys ds) ->
  exists b ds',
    revise c x y ds = Ok (b, ds') /\ (o = None -> b = false /\ ds' = ds).
Proof.
  intros Ho Hkeys. destruct o as [[charX charY]|].
  - destruct Hkeys as [|[[dx Hx]%dict_get_is_Some Hy%dict_get_is_Some]]; [done|].
    destruct (revise_Some c x y ds charX charY dx Ho Hx Hy) as (dx' & E & _).
    eexists _, _. split; [exact E | done].
  - exists false, ds. split; [by apply revise_None | done].
Qed.

(** Witness of C4 as amended: with the words AB and AC, AB is supported
    by AC and AC by AB, and nothing is removed. *)
Lemma revise_removes_unsupported_witness :
  let c := Examples.corner {["AB"; "AC"]}%string in
  Examples.A2 <> Examples.D2 /\
  dict_get (overlaps c) (Examples.A2, Examples.D2) = Some (Some (0, 0)) /\
  dict_get (init c) Examples.A2 = Some {["AB"; "AC"]}%string /\
  dict_get (init c) Examples.D2 = Some {["AB"; "AC"]}%string /\
  exists b ds' dx',
    revise c Examples.A2 Examples.D2 (init c) = Ok (b, ds') /\
    dict_get ds' Examples.A2 = Some dx' /\
    (forall w, w ∈ dx' <->
       w ∈ ({["AB"; "AC"]}%string : gset string) /\
       supported 0 0 {["AB"; "AC"]}%string w) /\
    dict_get ds' Examples.D2 = Some {["AB"; "AC"]}%string /\
    (forall z, z <> Examples.A2 -> dict_get ds' z = dict_get (init c) z) /\
    (b = true <->
     exists w, w ∈ ({["AB"; "AC"]}%string : gset string) /\ w ∉ dx').
Proof.
  intros c.
  assert (Examples.A2 <> Examples.D2) as H1 by done.
  assert (dict_get (overlaps c) (Examples.A2, Examples.D2) = Some (Some (0, 0)))
    as H2 by reflexivity.
  assert (dict_get (init c) Examples.A2 = Some {["AB"; "AC"]}%string) as H3
    by (vm_compute; reflexivity).
  assert (dict_get (init c) Examples.D2 = Some {["AB"; "AC"]}%string) as H4
    by (vm_compute; reflexivity).
  repeat (split; [assumption|]).
  exact (revise_removes_unsupported c _ _ _ _ _ _ _ H1 H2 H3 H4).
Defined.

(** Counterexample to C4 as stated: with the single word AB in both
    domains, AB in the domain of the other slot agrees with AB at the
    overlap, and still [revise] removes AB and answers [True]. *)
Lemma revise_discards_same_word :
  let c := Examples.corner {["AB"]}%string in
  dict_get (init c) Examples.A2 = Some {["AB"]}%string /\
  dict_get (init c) Examples.D2 = Some {["AB"]}%string /\
  agree 0 0 "AB" "AB" /\
  revise c Examples.A2 Examples.D2 (init c)
  = Ok (true, [(Examples.D2, {["AB"]}%string); (Examples.A2, ∅)]).
Proof.
  intros c. split; [|split; [|split]]; try by_vm.
  vm_compute. eauto.
Qed.

(** Witness of C10: the first domain holds AA and AD, which have no
    character at offset 2. *)
Lemma revise_total_witness :
  let c := Examples.tee {["CBC"; "AA"; "AD"]}%string in
  dict_get (overlaps c) (Examples.X3, Examples.Z2) = Some (Some (2, 0)) /\
  (Some (2, 0) = None \/
   (Examples.X3 ∈ dict_keys (init c) /\ Examples.Z2 ∈ dict_keys (init c))) /\
  exists b ds',
    revise c Examples.X3 Examples.Z2 (init c) = Ok (b, ds') /\
    (Some (2, 0) = None -> b = false /\ ds' = init c).
Proof.
  intros c.
  assert (dict_get (overlaps c) (Examples.X3, Examples.Z2) = Some (Some (2, 0)))
    as H1 by reflexivity.
  assert (Some (2, 0) = None \/
          (Examples.X3 ∈ dict_keys (init c) /\ Examples.Z2 ∈ dict_keys (init c)))
    as H2.
  { right. split; apply (bool_decide_unpack _); vm_compute; exact I. }
  repeat (split; [assumption|]).
  exact (revise_total c _ _ _ _ H1 H2).
Defined.

(** ** AC-3 (C9, C5) *)

Lemma total_candidates_set (ds : domains) (x : Var.t) (s s' : gset string) :
  dict_get ds x = Some s ->
  total_candidates (dict_set ds x s') + size s = total_candidates ds + size s'.
Proof.
  unfold total_candidates. induction ds as [|[k v] ds IH]; simpl; [done|].
  case_decide; subst; csimpl.
  - intros [= ->]. lia.
  - intros Hg. specialize (IH Hg). lia.
Qed.

Lemma shrunk_refl (ds : domains) : shrunk ds ds.
Proof. split; [done|]. intros k s Hs. eauto. Qed.

Lemma shrunk_trans (ds1 ds2 ds3 : domains) :
  shrunk ds1 ds2 -> shrunk ds2 ds3 -> shrunk ds1 ds3.
Proof.
  intros [Hk1 H1] [Hk2 H2]. split; [congruence|].
  intros k s1 Hs1. destruct (H1 k s1 Hs1) as (s2 & Hs2 & Hsub1).
  destruct (H2 k s2 Hs2) as (s3 & Hs3 & Hsub2).
  exists s3. split; [done|]. by transitivity s2.
Qed.

Lemma shrunk_set (ds : domains) (x : Var.t) (s s' : gset string) :
  dict_get ds x = Some s -> s' ⊆ s -> shrunk (dict_set ds x s') ds.
Proof.
  intros Hs Hsub. split.
  - apply dict_keys_set_in, dict_get_is_Some. by rewrite Hs.
  - intros k t. rewrite dict_get_set. case_decide; subst.
    + intros [= <-]. eauto.
    + eauto.
Qed.

Lemma revise_shrinks (c : Crossword) (x y : Var.t) (ds ds' : domains) (b : bool) :
  revise c x y ds = Ok (b, ds') ->
  shrunk ds' ds /\
  (if b then total_candidates ds' < total_candidates ds else ds' = ds).
Proof.
  intros [[-> ->]|(-> & dx & dx' & Hx & Hsub & ->)]%revise_inv.
  - split; [apply shrunk_refl | done].
  - split; [apply (shrunk_set _ _ _ _ Hx), Hsub|].
    pose proof (total_candidates_set ds x dx dx' Hx).
    pose proof (subset_size _ _ Hsub). lia.
Qed.

Lemma enqueue_neighbors_length (c : Crossword) (a0 a1 : Var.t) (q q' : queue) :
  enqueue_neighbors c a0 a1 q = Ok q' ->
  length q' <= length q + size (variables c).
Proof.
  intros H.
  assert (length q' <= length q + length (elements (neighbors c a0))) as Hlen.
  { revert H. unfold enqueue_neighbors.
    apply (foldM_inv_Ok (fun pre (cur : queue) => length cur <= length q + length pre)).
    - simpl. lia.
    - intros pre z post cur cur' _ Hcur Hstep. rewrite length_app. simpl.
      case_decide; inv_bind; [lia|].
      pose proof (length_dict_set cur (z, a0) a). lia. }
  etrans; [exact Hlen|]. apply Nat.add_le_mono_l.
  change (size (neighbors c a0) <= size (variables c)).
  apply subseteq_size. unfold neighbors. intros v Hv.
  by apply elem_of_filter in Hv as [_ ?].
Qed.

(** What a returning run of the worklist loop guarantees: every
    productive revision cost at least one candidate word, the domains only
    shrank, and a [False] verdict comes with an empty domain. *)
Lemma ac3_loop_inv (c : Crossword) (fuel : nat) :
  forall (q : queue) (ds ds' : domains) (ok : bool) (n : nat),
    ac3_loop c fuel q ds = Ok (ok, ds', n) ->
    n + total_candidates ds' <= total_candidates ds /\
    shrunk ds' ds /\
    (ok = false -> exists x, dict_get ds' x = Some ∅).
Proof.
  induction fuel as [|fuel IH]; intros q ds ds' ok n H.
  - destruct q; simpl in H; [|done]. injection H as <- <- <-.
    split; [lia|]. split; [apply shrunk_refl | done].
  - destruct q as [|[[a0 a1] o] q]; simpl in H.
    { injection H as <- <- <-. split; [lia|]. split; [apply shrunk_refl | done]. }
    destruct (revise c a0 a1 ds) as [[revised ds1]| |] eqn:E; simpl in H;
      [|done..].
    apply revise_shrinks in E as [Hsh Htot].
    destruct revised; [|subst ds1; by apply IH in H].
    unfold dict_getitem in H.
    destruct (dict_get ds1 a0) as [dx|] eqn:Hdx; simpl in H; [|done].
    case_decide as Hsize.
    + injection H as <- <- <-. split; [lia|]. split; [done|]. intros _.
      exists a0. rewrite Hdx. f_equal.
      by apply size_empty_inv, leibniz_equiv in Hsize.
    + destruct (enqueue_neighbors c a0 a1 _) as [q2| |]; simpl in H; [|done..].
      destruct (ac3_loop c fuel q2 ds1) as [[[ok2 ds2] n2]| |] eqn:E2;
        simpl in H; [|done..].
      injection H as <- <- <-.
      apply IH in E2 as (Hn & Hsh2 & Hemp).
      split; [lia|]. split; [by eapply shrunk_trans|done].
Qed.

(** The fuel computed by [ac3_fuel] is never used up. *)
Lemma ac3_loop_fuel (c : Crossword) (fuel : nat) :
  forall (q : queue) (ds : domains),
    total_candidates ds * S (size (variables c)) + length q < fuel ->
    ac3_loop c fuel q ds <> Timeout.
Proof.
  induction fuel as [|fuel IH]; intros q ds Hfuel; [lia|].
  destruct q as [|[[a0 a1] o] q]; simpl; [done|].
  pose proof (length_dict_del_head (a0, a1) o q) as Hdel.
  destruct (revise_raises c a0 a1 ds) as [[[revised ds1] E]|E];
    rewrite E; simpl; [|done].
  apply revise_shrinks in E as [_ Htot].
  destruct revised.
  - apply bind_not_Timeout.
    { unfold dict_getitem. by destruct (dict_get ds1 a0). }
    intros dx _. case_decide; [done|].
    apply bind_not_Timeout.
    { apply foldM_not_Timeout. intros q0 z. case_decide; [done|].
      unfold dict_getitem. by destruct (dict_get (overlaps c) (z, a0)). }
    intros q2 Hq2%enqueue_neighbors_length.
    apply bind_not_Timeout; [|by intros [[? ?] ?]].
    apply IH. simpl in Hfuel.
    pose proof (Nat.mul_le_mono_r _ _ (S (size (variables c))) Htot).
    lia.
  - subst ds1. apply IH. simpl in Hfuel. lia.
Qed.

(** C9: [ac3] terminates on every input.  A run ends by raising or by
    returning, never by running out of fuel; and when it returns, the
    number of productive revisions (calls of [revise] that answered
    [True]) plus the number of candidate words left is at most the number
    of candidate words it started from, because every productive revision
    removed at least one word from a finite domain. *)
Theorem ac3_terminates (c : Crossword) (arcs : option queue) (ds : domains) :
  (exists e, ac3_counted c arcs ds = Raise e) \/
  (exists ok ds' n,
     ac3_counted c arcs ds = Ok (ok, ds', n) /\
     n + total_candidates ds' <= total_candidates ds).
Proof.
  unfold ac3_counted.
  assert (forall q, (exists e, ac3_loop c (ac3_fuel c q ds) q ds = Raise e) \/
            (exists ok ds' n, ac3_loop c (ac3_fuel c q ds) q ds = Ok (ok, ds', n) /\
               n + total_candidates ds' <= total_candidates ds)) as Hloop.
  { intros q.
    destruct (ac3_loop c (ac3_fuel c q ds) q ds) as [[[ok ds'] n]|e|] eqn:E.
    - right. exists ok, ds', n. split; [done|].
      by apply ac3_loop_inv in E as [? _].
    - left. eauto.
    - exfalso. revert E. apply ac3_loop_fuel. unfold ac3_fuel. lia. }
  destruct arcs as [q|]; simpl; [apply Hloop|].
  destruct (removeNone (overlaps c)) as [q|e|] eqn:Eq; simpl.
  - apply Hloop.
  - left. eauto.
  - exfalso. revert Eq. apply foldM_not_Timeout. intros q0 key.
    unfold dict_getitem. destruct (dict_get q0 key) as [[?|]|]; done.
Qed.

(** [ac3] answers [False] at once when a revision leaves the revised
    domain empty. *)
Lemma ac3_loop_fails_on_empty (c : Crossword) (fuel : nat) (a0 a1 : Var.t)
    (o : option (nat * nat)) (q : queue) (ds ds1 : domains) :
  revise c a0 a1 ds = Ok (true, ds1) ->
  dict_get ds1 a0 = Some ∅ ->
  ac3_loop c (S fuel) (((a0, a1), o) :: q) ds = Ok (false, ds1, 1).
Proof.
  intros E Hemp. simpl. rewrite E. simpl.
  unfold dict_getitem. rewrite Hemp. simpl.
  destruct (decide (size (∅ : gset string) = 0)) as [_|Hn]; [done|].
  by destruct Hn.
Qed.

(** C5, the failing input: a single slot of length 5 and the words CAT
    and FOUR.  Node consistency empties the only domain, and [ac3] then
    answers [True] although that domain is empty. *)
Theorem ac3_succeeds_with_empty_domain :
  let c := Examples.alone {["CAT"; "FOUR"]}%string in
  enforce_node_consistency (init c) = Ok [(Examples.L5, ∅)] /\
  ac3 c None [(Examples.L5, ∅)] = Ok (true, [(Examples.L5, ∅)]).
Proof. intros c. split; by_vm. Qed.

(** ** Sorting *)

Section SortedFacts.
Context {A : Type} (key : A -> nat).

Lemma insert_sorted_perm (x : A) (l : list A) :
  insert_sorted key x l ≡ₚ x :: l.
Proof.
  induction l as [|y l IH]; simpl; [done|].
  destruct (key x <=? key y); [done|].
  rewrite IH. apply Permutation_swap.
Qed.

Lemma sorted_perm (l : list A) : sorted key l ≡ₚ l.
Proof.
  induction l as [|x l IH]; simpl; [done|].
  rewrite insert_sorted_perm. by f_equiv.
Qed.

Lemma insert_sorted_ascending (x : A) (l : list A) :
  StronglySorted (fun a b => key a <= key b) l ->
  StronglySorted (fun a b => key a <= key b) (insert_sorted key x l).
Proof.
  induction 1 as [|y l Hl IH Hy]; simpl.
  - repeat constructor.
  - destruct (Nat.leb_spec (key x) (key y)) as [Hle|Hlt].
    + constructor; [by constructor|]. constructor; [done|].
      eapply Forall_impl; [exact Hy|]. simpl. intros; lia.
    + constructor; [done|]. rewrite insert_sorted_perm.
      constructor; [lia | done].
Qed.

Lemma sorted_ascending (l : list A) :
  StronglySorted (fun a b => key a <= key b) (sorted key l).
Proof.
  induction l as [|x l IH]; simpl; [constructor|].
  by apply insert_sorted_ascending.
Qed.

(** The first element of the sorted list has the least key. *)
Lemma sorted_head (l l' : list A) (x : A) :
  sorted key l = x :: l' -> x ∈ l /\ forall y, y ∈ l -> key x <= key y.
Proof.
  intros E. pose proof (sorted_perm l) as Hp.
  pose proof (sorted_ascending l) as Hs. rewrite E in Hp, Hs.
  apply StronglySorted_inv in Hs as [_ Hall]. split.
  - rewrite <- Hp. left.
  - intros y Hy. rewrite <- Hp in Hy.
    apply elem_of_cons in Hy as [->|Hy]; [done|].
    rewrite Forall_forall in Hall. by apply Hall.
Qed.
End SortedFacts.

(** ** Variable selection (C6) *)

Lemma dict_set_elem {K V} `{EqDecision K} (d : dict K V) (k : K) (v : V) kv :
  kv ∈ dict_set d k v -> kv ∈ d \/ kv = (k, v).
Proof.
  induction d as [|[k0 v0] d IH]; simpl.
  - intros ?%list_elem_of_singleton. by right.
  - case_decide; subst.
    + intros [->|?]%elem_of_cons; [by right|]. left. by right.
    + intros [->|?]%elem_of_cons; [left; left|].
      destruct IH as [?|?]; [done | left; by right | by right].
Qed.

Lemma dict_keys_set {K V} `{EqDecision K} (d : dict K V) (k k' : K) (v : V) :
  k' ∈ dict_keys (dict_set d k v) <-> k' ∈ dict_keys d \/ k' = k.
Proof.
  rewrite <- !dict_get_is_Some, dict_get_set.
  case_decide; subst; split; eauto.
  intros [?|?]; [done|congruence].
Qed.

(** [select_unassigned_variable] returns a variable of the crossword that
    is not assigned and whose domain is among the smallest of the
    unassigned variables. *)
Lemma select_unassigned_variable_min (c : Crossword) (ds : domains)
    (asg : assignment) (var : Var.t) :
  select_unassigned_variable c ds asg = Ok var ->
  var ∈ variables c /\ (var ∉ dict_keys asg) /\
  exists s, dict_get ds var = Some s /\
    forall v s', v ∈ variables c -> v ∉ dict_keys asg ->
      dict_get ds v = Some s' -> size s <= size s'.
Proof.
  unfold select_unassigned_variable. intros H.
  apply bind_Ok in H as (vars & Hvars & H).
  apply (foldM_inv_Ok
    (fun pre (vars : dict Var.t nat) =>
       (forall v n, (v, n) ∈ vars ->
          v ∈ pre /\ (v ∉ dict_keys asg) /\
          exists s, dict_get ds v = Some s /\ n = size s) /\
       (forall v s, v ∈ pre -> v ∉ dict_keys asg -> dict_get ds v = Some s ->
          (v, size s) ∈ vars))) in Hvars as [Hin Hall].
  - destruct (sorted snd vars) as [|[v n] l] eqn:Es; [done|].
    injection H as ->.
    apply sorted_head in Es as [Hv Hmin].
    apply Hin in Hv as (Hv & Hna & s & Hs & ->).
    split; [by apply elem_of_elements|]. split; [done|].
    exists s. split; [done|]. intros v s' Hv' Hna' Hs'.
    apply elem_of_elements in Hv'.
    specialize (Hmin (v, size s') (Hall v s' Hv' Hna' Hs')). done.
  - split; [by intros v n ?%elem_of_nil | by intros v s ?%elem_of_nil].
  - intros pre v post cur cur' El [Hin Hall] Hstep.
    assert (NoDup (pre ++ v :: post)) as Hnd by (rewrite <- El; apply NoDup_elements).
    apply NoDup_app in Hnd as (_ & Hpre & _).
    destruct (dict_contains asg v) eqn:Hc.
    + injection Hstep as <-. apply dict_contains_true in Hc. split.
      * intros v' n Hv'. destruct (Hin v' n Hv') as (? & ? & ?).
        split; [|done]. apply elem_of_app. by left.
      * intros v' s [Hv'|Hv'%list_elem_of_singleton]%elem_of_app Hna;
          [eauto | by subst].
    + apply dict_contains_false in Hc. unfold dict_getitem in Hstep.
      destruct (dict_get ds v) as [dv|] eqn:Hdv; simpl in Hstep; [|done].
      injection Hstep as <-. split.
      * intros v' n [Hv'|[= -> ->]]%dict_set_elem.
        -- destruct (Hin v' n Hv') as (? & ? & ?).
           split; [|done]. apply elem_of_app. by left.
        -- split; [apply elem_of_app; right; left|]. eauto.
      * intros v' s [Hv'|Hv'%list_elem_of_singleton]%elem_of_app Hna Hs;
           [|subst v'].
        -- assert (v' <> v) as Hne.
           { intros ->. apply (Hpre v Hv'). left. }
           specialize (Hall v' s Hv' Hna Hs).
           clear -Hall Hne. induction cur as [|[k0 n0] cur IH]; simpl.
           ++ by apply elem_of_nil in Hall.
           ++ apply elem_of_cons in Hall as [[= <- <-]|Hall].
              ** rewrite decide_False by done. left.
              ** case_decide; subst; right; [done|]. by apply IH.
        -- replace s with dv by congruence.
           clear. induction cur as [|[k0 n0] cur IH]; simpl; [left|].
           case_decide; subst; [left | by right].
Qed.

(** C6, the failing input: the tee with the words ADA, CBC, AA and CC.
    After node consistency and [ac3] every domain holds two words.  The
    search then selects the leg [Z2], which has one neighbour, although
    the top slot [X3] ties with it on domain size and has two. *)
Theorem select_ignores_degree :
  let c := Examples.tee {["ADA"; "CBC"; "AA"; "CC"]}%string in
  let ds : domains :=
    [(Examples.Z2, {["AA"; "CC"]}%string); (Examples.Y2, {["AA"; "CC"]}%string);
     (Examples.X3, {["ADA"; "CBC"]}%string)] in
  (do ds1 <- enforce_node_consistency (init c); ac3 c None ds1) = Ok (true, ds) /\
  select_unassigned_variable c ds [] = Ok Examples.Z2 /\
  degree c Examples.Z2 = 1 /\
  degree c Examples.X3 = 2.
Proof.
  intros c ds. split; [|split; [|split]]; by_vm.
Qed.

(** ** Value ordering (C7) *)

(** C7, two failing inputs.  The first is the comb with eight words:
    after node consistency and [ac3] the top slot [X5] has the smallest
    domain and is selected.  Its words come out in the order EAAAE, CBCBE,
    CDCDE, but choosing EAAAE makes three neighbouring domains lose a
    candidate and choosing either of the other two makes only two do so.
    The second is the arch with hand-set domains: ABC comes out before
    DEF, although ABC takes a word from both neighbouring domains and DEF
    from one only.  In both, [rulesOut] counts the neighbours whose domain
    contains the word itself. *)
Theorem order_domain_values_not_least_constraining :
  (let c := Examples.comb {["EAAAE"; "CBCBE"; "CDCDE"; "EAAAF"; "EBBBF";
                            "ECCCF"; "ABBBF"; "ACCCF"]}%string in
   let ds : domains :=
     [(Examples.T4, {["EAAAE"; "EAAAF"; "EBBBF"; "ECCCF"]}%string);
      (Examples.T2, {["CBCBE"; "CDCDE"; "ABBBF"; "ACCCF"]}%string);
      (Examples.T0, {["CBCBE"; "CDCDE"; "EAAAF"; "EBBBF"; "ECCCF"]}%string);
      (Examples.X5, {["EAAAE"; "CBCBE"; "CDCDE"]}%string)] in
   (do ds1 <- enforce_node_consistency (init c); ac3 c None ds1) = Ok (true, ds) /\
   select_unassigned_variable c ds [] = Ok Examples.X5 /\
   order_domain_values c ds Examples.X5
   = Ok ["EAAAE"; "CBCBE"; "CDCDE"]%string /\
   rules_out c ds Examples.X5 "EAAAE" = Ok 1 /\
   rules_out c ds Examples.X5 "CBCBE" = Ok 2 /\
   losing_neighbors c ds Examples.X5 "EAAAE" = 3 /\
   losing_neighbors c ds Examples.X5 "CBCBE" = 2) /\
  (let c := Examples.arch {["ABC"; "DEF"; "DXX"; "FOO"]}%string in
   let ds : domains :=
     [(Examples.Z3, {["FOO"]}%string); (Examples.Y3, {["DEF"; "DXX"]}%string);
      (Examples.X3, {["ABC"; "DEF"]}%string)] in
   order_domain_values c ds Examples.X3 = Ok ["ABC"; "DEF"]%string /\
   rules_out c ds Examples.X3 "ABC" = Ok 0 /\
   rules_out c ds Examples.X3 "DEF" = Ok 1 /\
   losing_neighbors c ds Examples.X3 "ABC" = 2 /\
   losing_neighbors c ds Examples.X3 "DEF" = 1).
Proof.
  split.
  - intros c ds.
    split; [|split; [|split; [|split; [|split; [|split]]]]]; by_vm.
  - intros c ds. split; [|split; [|split; [|split]]]; by_vm.
Qed.

(** ** The consistency checker and the search (C1) *)

Lemma str_index_Ok (w : string) (n : nat) (ch : ascii) :
  str_index w n = Ok ch <-> String.get n w = Some ch.
Proof.
  unfold str_index. destruct (String.get n w); split; intros [= ->]; done.
Qed.

(** What the neighbour loop of [consistent] has checked when it answers
    [True]. *)
Lemma neighbors_agree_sound (c : Crossword) (asg : assignment) (key : Var.t)
    (w : string) (ns : list Var.t) :
  neighbors_agree c asg key w ns = Ok true ->
  forall nb wn, nb ∈ ns -> dict_get asg nb = Some wn ->
    exists ox oy, dict_get (overlaps c) (key, nb) = Some (Some (ox, oy)) /\
                  agree ox oy w wn.
Proof.
  induction ns as [|nb0 ns IH]; simpl; intros H nb wn Hin Hwn.
  { by apply elem_of_nil in Hin. }
  destruct (dict_contains asg nb0) eqn:Hc.
  - unfold dict_getitem in H.
    destruct (dict_get (overlaps c) (key, nb0)) as [[[o0 o1]|]|] eqn:Ho;
      simpl in H; [|done..].
    destruct (str_index w o0) as [a| |] eqn:Ha; simpl in H; [|done..].
    destruct (dict_get asg nb0) as [wn0|] eqn:Hwn0; simpl in H; [|done].
    destruct (str_index wn0 o1) as [b| |] eqn:Hb; simpl in H; [|done..].
    case_decide as Hab; [done|]. subst a.
    apply elem_of_cons in Hin as [->|Hin]; [|by apply IH].
    exists o0, o1. split; [done|]. apply agree_iff. exists b.
    apply str_index_Ok in Ha, Hb. replace wn with wn0 by congruence. done.
  - apply elem_of_cons in Hin as [->|Hin]; [|by apply IH].
    apply dict_contains_false in Hc. destruct Hc.
    apply dict_get_is_Some. by rewrite Hwn.
Qed.

(** What the key loop of [consistent] has checked when it answers
    [True]: every key has a word of the right length that was not seen
    before and agrees with the assigned neighbours, and the words of two
    different positions of the key list differ. *)
Lemma consistent_loop_sound (c : Crossword) (asg : assignment) :
  forall (keys : list Var.t) (seen : gset string),
    consistent_loop c asg keys seen = Ok true ->
    (forall key, key ∈ keys ->
       exists w, dict_get asg key = Some w /\
         String.length w = Var.length key /\ (w ∉ seen) /\
         forall nb wn, nb ∈ neighbors c key -> dict_get asg nb = Some wn ->
           exists ox oy, dict_get (overlaps c) (key, nb) = Some (Some (ox, oy)) /\
                         agree ox oy w wn) /\
    (forall i j ki kj wi wj, i < j ->
       keys !! i = Some ki -> keys !! j = Some kj ->
       dict_get asg ki = Some wi -> dict_get asg kj = Some wj -> wi <> wj).
Proof.
  induction keys as [|key keys IH]; intros seen H.
  { split; [by intros key ?%elem_of_nil | by intros i j ki kj wi wj _ ?]. }
  simpl in H. unfold dict_getitem in H.
  destruct (dict_get asg key) as [w|] eqn:Hw; simpl in H; [|done].
  case_decide as Hlen; [done|].
  case_decide as Hseen; [done|].
  destruct (neighbors_agree c asg key w (elements (neighbors c key)))
    as [[]| |] eqn:Hn; simpl in H; [|done..].
  apply IH in H as [Hkeys Hdiff]. split.
  - intros key' [->|Hin]%elem_of_cons.
    + exists w. repeat split; try done.
      intros nb wn Hnb%elem_of_elements Hwn.
      by apply (neighbors_agree_sound c asg key w _ Hn).
    + destruct (Hkeys key' Hin) as (w' & Hw' & Hlen' & Hns & Hag).
      exists w'. repeat split; try done.
      intros Hs. apply Hns. unfold set_add. apply elem_of_union. by left.
  - intros i j ki kj wi wj Hij Hi Hj Hwi Hwj.
    destruct j as [|j]; [lia|]. simpl in Hj.
    destruct i as [|i]; simpl in Hi.
    + injection Hi as <-. replace wi with w by congruence.
      destruct (Hkeys kj) as (w' & Hw' & _ & Hns & _).
      { by eapply list_elem_of_lookup_2. }
      replace wj with w' by congruence. intros <-.
      apply Hns. unfold set_add. apply elem_of_union. right.
      by apply elem_of_singleton.
    + apply (Hdiff i j ki kj wi wj); [lia|done..].
Qed.

(** An assignment that [consistent] accepts satisfies the three
    constraints on the slots it assigns. *)
Lemma consistent_sound (c : Crossword) (asg : assignment) :
  consistent c asg = Ok true ->
  (forall v w, dict_get asg v = Some w -> String.length w = Var.length v) /\
  (forall v1 v2 w1 w2, v1 <> v2 ->
     dict_get asg v1 = Some w1 -> dict_get asg v2 = Some w2 -> w1 <> w2) /\
  (forall x y wx wy, y ∈ neighbors c x ->
     dict_get asg x = Some wx -> dict_get asg y = Some wy ->
     exists ox oy, dict_get (overlaps c) (x, y) = Some (Some (ox, oy)) /\
                   agree ox oy wx wy).
Proof.
  intros [Hkeys Hdiff]%consistent_loop_sound.
  assert (forall v w, dict_get asg v = Some w -> v ∈ dict_keys asg) as Hin.
  { intros v w Hw. apply dict_get_is_Some. by rewrite Hw. }
  split; [|split].
  - intros v w Hw. destruct (Hkeys v (Hin v w Hw)) as (w' & Hw' & Hlen & _).
    congruence.
  - intros v1 v2 w1 w2 Hne H1 H2.
    pose proof (Hin v1 w1 H1) as [i Hi]%list_elem_of_lookup_1.
    pose proof (Hin v2 w2 H2) as [j Hj]%list_elem_of_lookup_1.
    destruct (Nat.lt_trichotomy i j) as [Hlt|[->|Hlt]].
    + by apply (Hdiff i j v1 v2).
    + congruence.
    + apply not_eq_sym. by apply (Hdiff j i v2 v1).
  - intros x y wx wy Hy Hx Hwy.
    destruct (Hkeys x (Hin x wx Hx)) as (w' & Hw' & _ & _ & Hag).
    replace wx with w' by congruence. by apply Hag.
Qed.

Lemma try_values_sound (c : Crossword)
    (rec : assignment -> domains -> result search) (P : assignment -> Prop)
    (var : Var.t) (asg : assignment) :
  (forall asg' ds r ds' n,
     search_inv c asg' -> rec asg' ds = Ok (Some r, ds', n) -> P r) ->
  var ∈ variables c -> var ∉ dict_keys asg ->
  NoDup (dict_keys asg) -> (forall v, v ∈ dict_keys asg -> v ∈ variables c) ->
  forall values ds r ds' n,
    try_values c rec var asg values ds = Ok (Some r, ds', n) -> P r.
Proof.
  intros Hrec Hvar Hnew Hnd Hsub.
  induction values as [|value values IH]; intros ds r ds' n H; simpl in H;
    [done|].
  destruct (try_value c rec var asg value ds) as [[[res ds1] n1]| |] eqn:Et;
    simpl in H; [|done..].
  destruct res as [r1|].
  - injection H as <- <- <-.
    unfold try_value in Et.
    destruct (restrict_domain var value ds) as [[inf dsa]| |]; simpl in Et;
      [|done..].
    destruct (ac3 c None dsa) as [[ok dsb]| |]; simpl in Et; [|done..].
    destruct ok; simpl in Et.
    + destruct (consistent c (dict_set asg var value)) as [[]| |] eqn:Ec;
        simpl in Et.
      * destruct (rec (dict_set asg var value) dsb) as [[[res dsc] m]| |] eqn:Er;
          simpl in Et; [|done..].
        destruct res as [r2|]; simpl in Et.
        -- injection Et as <- <- <-. eapply Hrec; [|exact Er].
           split; [done|]. rewrite dict_keys_set_notin by done. split.
           ++ apply NoDup_app. split; [done|]. split; [|apply NoDup_singleton].
              intros v Hv Hv'%list_elem_of_singleton. by subst.
           ++ intros v [?|Hv%list_elem_of_singleton]%elem_of_app;
                [auto | by subst].
        -- destruct (restore_domain var inf dsc); simpl in Et; done.
      * destruct (restore_domain var inf dsb); simpl in Et; done.
      * done.
      * done.
    + destruct (restore_domain var inf dsb); simpl in Et; done.
  - destruct (try_values c rec var asg values ds1) as [[[res2 ds2] n2]| |] eqn:E2;
      simpl in H; [|done..].
    injection H as -> <- <-. by eapply IH.
Qed.

Lemma backtrack_sound (c : Crossword) (fuel : nat) :
  forall asg ds r ds' n,
    search_inv c asg ->
    backtrack c fuel asg ds = Ok (Some r, ds', n) ->
    search_inv c r /\ assignment_complete c r = true.
Proof.
  induction fuel as [|fuel IH]; intros asg ds r ds' n Hinv H; simpl in H;
    [done|].
  destruct (assignment_complete c asg) eqn:Hc.
  { injection H as <- <- <-. done. }
  destruct (select_unassigned_variable c ds asg) as [var| |] eqn:Es;
    simpl in H; [|done..].
  apply select_unassigned_variable_min in Es as (Hvar & Hnew & _).
  destruct (order_domain_values c ds var) as [values| |]; simpl in H; [|done..].
  destruct (try_values c (backtrack c fuel) var asg values ds)
    as [[[res ds1] n1]| |] eqn:Et; simpl in H; [|done..].
  injection H as -> <- <-.
  destruct Hinv as (_ & Hnd & Hsub).
  exact (try_values_sound c (backtrack c fuel)
           (fun r => search_inv c r /\ assignment_complete c r = true)
           var asg IH Hvar Hnew Hnd Hsub values ds r ds1 n1 Et).
Qed.

(** A complete assignment over distinct variables of the crossword
    assigns every variable. *)
Lemma complete_assigns_all (c : Crossword) (asg : assignment) :
  NoDup (dict_keys asg) -> (forall v, v ∈ dict_keys asg -> v ∈ variables c) ->
  assignment_complete c asg = true ->
  forall v, v ∈ variables c -> is_Some (dict_get asg v).
Proof.
  intros Hnd Hsub Hlen%bool_decide_eq_true v Hv.
  apply dict_get_is_Some.
  assert (dict_keys asg ≡ₚ elements (variables c)) as Hp.
  { apply submseteq_length_Permutation.
    - apply NoDup_submseteq; [done|]. intros x Hx.
      by apply elem_of_elements, Hsub.
    - rewrite Hlen. done. }
  rewrite Hp. by apply elem_of_elements.
Qed.

(** An assignment over distinct variables of the crossword that
    [consistent] accepts and [assignment_complete] finds complete is a
    valid assignment. *)
Lemma accepted_complete_valid (c : Crossword) (asg : assignment) :
  consistent c asg = Ok true ->
  NoDup (dict_keys asg) -> (forall v, v ∈ dict_keys asg -> v ∈ variables c) ->
  assignment_complete c asg = true ->
  valid_assignment c asg.
Proof.
  intros (Hlen & Hdiff & Hov)%consistent_sound Hnd Hsub Hc.
  split; [by apply complete_assigns_all|]. done.
Qed.

(** C1: whenever [solve] returns an assignment, the assignment is
    complete and valid: every slot of the crossword has a word, of the
    length of the slot; the words of distinct slots are distinct; and the
    words of two neighbouring slots have the same character at their
    overlap offsets. *)
Theorem solve_valid (c : Crossword) (asg : assignment) :
  solve c = Ok (Some asg) -> valid_assignment c asg.
Proof.
  unfold solve, solve_counted. intros H.
  destruct (enforce_node_consistency (init c)) as [ds1| |]; cbn [bind] in H;
    [|done..].
  destruct (ac3 c None ds1) as [[ok ds2]| |]; cbn [bind] in H; [|done..].
  destruct (backtrack c (backtrack_fuel c) [] ds2) as [[[res ds3] n]| |] eqn:Eb;
    cbn [bind] in H; [|done..].
  injection H as ->.
  apply backtrack_sound in Eb as [(Hcons & Hnd & Hsub) Hc].
  - by apply accepted_complete_valid.
  - split; [done|]. split; [constructor|]. by intros v ?%elem_of_nil.
Qed.

(** Witness of C1: the tee with the words ADA, AA and AD has a solution,
    and [solve] finds one. *)
Lemma solve_valid_witness :
  let c := Examples.tee {["ADA"; "AA"; "AD"]}%string in
  let asg : assignment :=
    [(Examples.X3, "ADA"); (Examples.Z2, "AA"); (Examples.Y2, "AD")]%string in
  solve c = Ok (Some asg) /\ valid_assignment c asg.
Proof.
  intros c asg.
  assert (solve c = Ok (Some asg)) as H by by_vm.
  split; [exact H | exact (solve_valid c asg H)].
Defined.

(** ** The top level (C2) *)

Lemma ac3_inv (c : Crossword) (arcs : option queue) (ds ds' : domains)
    (ok : bool) :
  ac3 c arcs ds = Ok (ok, ds') ->
  shrunk ds' ds /\ (ok = false -> exists x, dict_get ds' x = Some ∅).
Proof.
  unfold ac3, ac3_counted. intros H.
  destruct (match arcs with
            | Some arcs0 => Ok arcs0
            | None => removeNone (overlaps c)
            end) as [q| |]; cbn [bind] in H; [|done..].
  destruct (ac3_loop c (ac3_fuel c q ds) q ds) as [[[ok1 ds1] n]| |] eqn:E;
    cbn [bind] in H; [|done..].
  injection H as -> ->. by apply ac3_loop_inv in E as (_ & ? & ?).
Qed.

Lemma dict_keys_init (c : Crossword) : dict_keys (init c) = elements (variables c).
Proof.
  unfold init, dict_keys. rewrite <- list_fmap_compose.
  induction (elements (variables c)) as [|v l IH]; csimpl; [done|].
  by rewrite IH.
Qed.

Lemma dict_get_init (c : Crossword) (v : Var.t) :
  v ∈ variables c -> dict_get (init c) v = Some (words c).
Proof.
  intros Hv%elem_of_elements. unfold init.
  induction (elements (variables c)) as [|v0 l IH]; csimpl.
  - by apply elem_of_nil in Hv.
  - case_decide; [done|].
    apply elem_of_cons in Hv as [->|Hv]; [done | by apply IH].
Qed.

(** With a domain for every unassigned variable and at least one such
    variable, [select_unassigned_variable] returns. *)
Lemma select_unassigned_variable_Ok (c : Crossword) (ds : domains)
    (asg : assignment) (v : Var.t) :
  (forall v, v ∈ variables c -> v ∈ dict_keys ds) ->
  v ∈ variables c -> v ∉ dict_keys asg ->
  exists var, select_unassigned_variable c ds asg = Ok var.
Proof.
  intros Hdom Hv Hna. unfold select_unassigned_variable.
  destruct (foldM_inv
    (fun pre (vars : dict Var.t nat) =>
       forall v, v ∈ pre -> v ∉ dict_keys asg -> v ∈ dict_keys vars)
    (fun (vars : dict Var.t nat) variable =>
       if dict_contains asg variable then Ok vars
       else do dv <- dict_getitem ds variable;
            Ok (dict_set vars variable (size dv)))
    (elements (variables c)) []) as (vars & -> & Hvars).
  - by intros v' ?%elem_of_nil.
  - intros pre a post cur El Hcur.
    assert (a ∈ variables c) as Ha.
    { apply elem_of_elements. rewrite El, elem_of_app. right; left. }
    destruct (dict_contains asg a) eqn:Hc.
    + exists cur. split; [done|]. apply dict_contains_true in Hc.
      intros v' [?|Hv'%list_elem_of_singleton]%elem_of_app Hna'; [auto|].
      by subst.
    + apply Hdom, dict_get_is_Some in Ha as [dv Hdv].
      unfold dict_getitem. rewrite Hdv. simpl. eexists; split; [done|].
      intros v' [?|Hv'%list_elem_of_singleton]%elem_of_app Hna';
        apply dict_keys_set; [left; auto | by right].
  - simpl. apply elem_of_elements in Hv. specialize (Hvars v Hv Hna).
    destruct (sorted snd vars) as [|[var n] l] eqn:Es; [|eauto].
    pose proof (sorted_perm snd vars) as Hp. rewrite Es in Hp.
    apply Permutation_nil_l in Hp. subst vars.
    by apply elem_of_nil in Hvars.
Qed.

(** The search on domains one of which is empty: the first activation
    selects a variable with an empty domain, has no candidate to try and
    returns no-solution, leaving the domains as they were. *)
Lemma backtrack_empty_domain (c : Crossword) (fuel : nat) (ds : domains)
    (x : Var.t) :
  (forall v, v ∈ variables c -> v ∈ dict_keys ds) ->
  x ∈ variables c -> dict_get ds x = Some ∅ ->
  backtrack c (S fuel) [] ds = Ok (None, ds, 1).
Proof.
  intros Hdom Hx Hemp. simpl.
  assert (assignment_complete c [] = false) as ->.
  { apply bool_decide_eq_false. simpl. intros Hs. symmetry in Hs.
    apply size_empty_inv in Hs. by apply Hs in Hx. }
  destruct (select_unassigned_variable_Ok c ds [] x Hdom Hx) as [var Es].
  { apply not_elem_of_nil. }
  rewrite Es. cbn [bind].
  apply select_unassigned_variable_min in Es as (Hvar & _ & s & Hs & Hmin).
  assert (s = ∅) as ->.
  { apply leibniz_equiv, size_empty_inv.
    specialize (Hmin x ∅ Hx (not_elem_of_nil _) Hemp).
    rewrite size_empty in Hmin. lia. }
  unfold order_domain_values, dict_getitem. rewrite Hs. cbn [bind].
  rewrite elements_empty. done.
Qed.

(** C2, as amended: [solve] runs node consistency, then [ac3], and then
    calls [backtrack] on the empty assignment whatever [ac3] answered.
    When [ac3] answered [False], or when the length of some slot is the
    length of no word, that call of [backtrack] selects a slot whose domain
    is empty, has no candidate to try and returns no-solution: [solve]
    returns no-solution after exactly one activation of the search. *)
Theorem solve_unsatisfiable (c : Crossword) (ds1 ds2 : domains) (ok : bool) :
  enforce_node_consistency (init c) = Ok ds1 ->
  ac3 c None ds1 = Ok (ok, ds2) ->
  ok = false \/
  (exists v, v ∈ variables c /\
     forall w, w ∈ words c -> String.length w <> Var.length v) ->
  solve_counted c = Ok (None, ds2, 1) /\ solve c = Ok None.
Proof.
  intros Henc Hac3 Hcase.
  assert (solve_counted c = Ok (None, ds2, 1)) as Hsolve.
  { unfold solve_counted. rewrite Henc. cbn [bind]. rewrite Hac3. cbn [bind].
    destruct (enforce_node_consistency_filter (init c)) as (ds1' & E & Hk1 & Hg1).
    rewrite Henc in E. injection E as <-.
    apply ac3_inv in Hac3 as [[Hk2 Hsub] Hfail].
    assert (forall v, v ∈ variables c -> v ∈ dict_keys ds2) as Hdom.
    { intros v Hv. rewrite Hk2, Hk1, dict_keys_init. by apply elem_of_elements. }
    destruct Hcase as [->|(v & Hv & Hlen)].
    - destruct (Hfail eq_refl) as [x Hx].
      apply (backtrack_empty_domain c _ ds2 x); [done| |done].
      apply elem_of_elements. rewrite <- dict_keys_init, <- Hk1, <- Hk2.
      apply dict_get_is_Some. by rewrite Hx.
    - apply (backtrack_empty_domain c _ ds2 v); [done..|].
      pose proof (Hdom v Hv) as [s2 Hs2]%dict_get_is_Some.
      destruct (Hsub v s2 Hs2) as (s1 & Hs1 & Hsub1).
      rewrite (Hg1 v _ (dict_get_init c v Hv)) in Hs1. injection Hs1 as <-.
      rewrite Hs2. f_equal. apply leibniz_equiv, elem_of_equiv_empty.
      intros w Hw. apply Hsub1, elem_of_filter in Hw as [Hl Hw].
      by apply (Hlen w). }
  split; [done|]. unfold solve. by rewrite Hsolve.
Qed.

(** Witness of C2 as amended: a slot of length 5 with words of lengths 3
    and 4 only. *)
Lemma solve_unsatisfiable_witness :
  let c := Examples.alone {["CAT"; "FOUR"]}%string in
  let ds : domains := [(Examples.L5, ∅)] in
  enforce_node_consistency (init c) = Ok ds /\
  ac3 c None ds = Ok (true, ds) /\
  (true = false \/
   (exists v, v ∈ variables c /\
      forall w, w ∈ words c -> String.length w <> Var.length v)) /\
  solve_counted c = Ok (None, ds, 1) /\ solve c = Ok None.
Proof.
  intros c ds.
  assert (enforce_node_consistency (init c) = Ok ds) as H1 by by_vm.
  assert (ac3 c None ds = Ok (true, ds)) as H2 by by_vm.
  assert (true = false \/
          (exists v, v ∈ variables c /\
             forall w, w ∈ words c -> String.length w <> Var.length v)) as H3.
  { right. exists Examples.L5.
    split; [apply (bool_decide_unpack _); vm_compute; exact I|].
    intros w Hw. change (w ∈ ({["CAT"; "FOUR"]}%string : gset string)) in Hw.
    apply elem_of_union in Hw as [Hw|Hw];
      apply elem_of_singleton in Hw; subst w; simpl; lia. }
  split; [exact H1|]. split; [exact H2|]. split; [exact H3|].
  exact (solve_unsatisfiable c ds ds true H1 H2 H3).
Defined.

(** Counterexample to C2 as stated: in the corner with the single word
    AB, [ac3] answers [False], and [solve] still activates [backtrack];
    with a slot of length 5 and words of lengths 3 and 4, node consistency
    empties the domain, and [solve] still activates [backtrack]. *)
Lemma solve_searches_after_failed_propagation :
  (let c := Examples.corner {["AB"]}%string in
   exists ds1 ds2,
     enforce_node_consistency (init c) = Ok ds1 /\
     ac3 c None ds1 = Ok (false, ds2) /\
     solve_counted c = Ok (None, ds2, 1)) /\
  (let c := Examples.alone {["CAT"; "FOUR"]}%string in
   enforce_node_consistency (init c) = Ok [(Examples.L5, ∅)] /\
   solve_counted c = Ok (None, [(Examples.L5, ∅)], 1)).
Proof.
  split.
  - intros c.
    exists [(Examples.D2, {["AB"]}%string); (Examples.A2, {["AB"]}%string)],
           [(Examples.D2, ∅); (Examples.A2, {["AB"]}%string)].
    split; [by_vm|]. split; by_vm.
  - intros c. split; by_vm.
Qed.

(** ** Restoration after a failed candidate (C3) *)

(** C3, the failing input: the tee with the words CBC, ADA, CC, AA and AD.
    The first activation of [backtrack] selects [X3] and tries CBC first.
    Under CBC, [ac3] prunes both legs to CC; the recursion then fails,
    because the two legs cannot both take CC.  The loop puts ADA back in
    the domain of [X3] but leaves the legs at CC, so the domains are not
    what they were before CBC was tried.  The next candidate, ADA, then
    finds no support, and [solve] returns no-solution although ADA, AA
    and AD fill the crossword. *)
Theorem backtrack_does_not_restore :
  let c := Examples.tee {["CBC"; "ADA"; "CC"; "AA"; "AD"]}%string in
  let ds : domains :=
    [(Examples.Z2, {["CC"; "AA"; "AD"]}%string);
     (Examples.Y2, {["CC"; "AA"; "AD"]}%string);
     (Examples.X3, {["CBC"; "ADA"]}%string)] in
  let ds' : domains :=
    [(Examples.Z2, {["CC"]}%string); (Examples.Y2, {["CC"]}%string);
     (Examples.X3, {["CBC"; "ADA"]}%string)] in
  (do ds1 <- enforce_node_consistency (init c); ac3 c None ds1) = Ok (true, ds) /\
  select_unassigned_variable c ds [] = Ok Examples.X3 /\
  order_domain_values c ds Examples.X3 = Ok ["CBC"; "ADA"]%string /\
  try_value c (backtrack c (size (variables c))) Examples.X3 [] "CBC" ds
  = Ok (None, ds', 2) /\
  ds' <> ds /\
  solve c = Ok None /\
  valid_assignment c
    [(Examples.X3, "ADA"); (Examples.Z2, "AA"); (Examples.Y2, "AD")]%string.
Proof.
  intros c ds ds'.
  split; [by_vm|]. split; [by_vm|]. split; [by_vm|]. split; [by_vm|].
  split; [|split; [by_vm|]].
  - intros E.
    apply (f_equal (fun d : domains => size <$> dict_get d Examples.Y2)) in E.
    vm_compute in E. discriminate E.
  - apply accepted_complete_valid.
    + by_vm.
    + apply (bool_decide_unpack _). vm_compute. exact I.
    + intros v Hv. apply (bool_decide_unpack _).
      repeat (apply elem_of_cons in Hv as [->|Hv]; [vm_compute; exact I|]).
      by apply elem_of_nil in Hv.
    + by_vm.
Qed.

(** ** Termination of the search *)

Lemma dict_getitem_not_Timeout {K V} `{EqDecision K} (d : dict K V) (k : K) :
  dict_getitem d k <> Timeout.
Proof. unfold dict_getitem. by destruct (dict_get d k). Qed.

Lemma domain_remove_not_Timeout (ds : domains) (var : Var.t) (w : string) :
  domain_remove ds var w <> Timeout.
Proof.
  unfold domain_remove. apply bind_not_Timeout; [apply dict_getitem_not_Timeout|].
  intros s _. unfold set_remove. by case_decide.
Qed.

Lemma ac3_not_Timeout (c : Crossword) (arcs : option queue) (ds : domains) :
  ac3 c arcs ds <> Timeout.
Proof.
  unfold ac3, ac3_counted.
  apply bind_not_Timeout; [|by intros [[? ?] ?]].
  apply bind_not_Timeout.
  - destruct arcs; [done|]. apply foldM_not_Timeout. intros q key.
    apply bind_not_Timeout; [apply dict_getitem_not_Timeout|].
    by intros [?|].
  - intros q _. apply ac3_loop_fuel. unfold ac3_fuel. lia.
Qed.

Lemma neighbors_agree_not_Timeout (c : Crossword) (asg : assignment)
    (key : Var.t) (w : string) (ns : list Var.t) :
  neighbors_agree c asg key w ns <> Timeout.
Proof.
  induction ns as [|nb ns IH]; simpl; [done|].
  destruct (dict_contains asg nb); [|done].
  apply bind_not_Timeout; [apply dict_getitem_not_Timeout|].
  intros [[o0 o1]|] _; [|done].
  unfold str_index.
  destruct (String.get o0 w); simpl; [|done].
  apply bind_not_Timeout; [apply dict_getitem_not_Timeout|].
  intros wn _. destruct (String.get o1 wn); simpl; [|done].
  by case_decide.
Qed.

Lemma consistent_not_Timeout (c : Crossword) (asg : assignment) :
  consistent c asg <> Timeout.
Proof.
  unfold consistent. generalize (∅ : gset string).
  induction (dict_keys asg) as [|key keys IH]; intros seen; simpl; [done|].
  apply bind_not_Timeout; [apply dict_getitem_not_Timeout|].
  intros w _. case_decide; [done|]. case_decide; [done|].
  apply bind_not_Timeout; [apply neighbors_agree_not_Timeout|].
  intros [] _; [apply IH | done].
Qed.

Lemma select_unassigned_variable_not_Timeout (c : Crossword) (ds : domains)
    (asg : assignment) :
  select_unassigned_variable c ds asg <> Timeout.
Proof.
  unfold select_unassigned_variable. apply bind_not_Timeout.
  - apply foldM_not_Timeout. intros vars v.
    destruct (dict_contains asg v); [done|].
    apply bind_not_Timeout; [apply dict_getitem_not_Timeout | done].
  - intros vars _. by destruct (sorted snd vars) as [|[? ?] ?].
Qed.

Lemma order_domain_values_not_Timeout (c : Crossword) (ds : domains)
    (var : Var.t) :
  order_domain_values c ds var <> Timeout.
Proof.
  unfold order_domain_values.
  apply bind_not_Timeout; [apply dict_getitem_not_Timeout|]. intros dv _.
  apply bind_not_Timeout; [|done].
  apply foldM_not_Timeout. intros order value.
  apply bind_not_Timeout; [|done].
  apply foldM_not_Timeout. intros r nb.
  apply bind_not_Timeout; [apply dict_getitem_not_Timeout | done].
Qed.

Lemma try_values_not_Timeout (c : Crossword)
    (rec : assignment -> domains -> result search) (var : Var.t)
    (asg : assignment) :
  (forall value ds, rec (dict_set asg var value) ds <> Timeout) ->
  forall values ds, try_values c rec var asg values ds <> Timeout.
Proof.
  intros Hrec. induction values as [|value values IH]; intros ds; simpl; [done|].
  apply bind_not_Timeout.
  - unfold try_value. apply bind_not_Timeout.
    { unfold restrict_domain.
      apply bind_not_Timeout; [apply dict_getitem_not_Timeout|]. intros dv _.
      apply foldM_not_Timeout. intros [inf ds0] w. case_decide; [|done].
      apply bind_not_Timeout; [apply domain_remove_not_Timeout | done]. }
    intros [inf ds1] _.
    apply bind_not_Timeout; [apply ac3_not_Timeout|]. intros [ok ds2] _.
    apply bind_not_Timeout.
    + destruct ok; [|done].
      apply bind_not_Timeout; [apply consistent_not_Timeout|].
      intros [] _; [apply Hrec | done].
    + intros [[[r|] ds3] n] _; [done|].
      apply bind_not_Timeout; [|done].
      apply foldM_not_Timeout. intros ds4 w.
      apply bind_not_Timeout; [apply dict_getitem_not_Timeout | done].
  - intros [[[r|] ds1] n] _; [done|].
    apply bind_not_Timeout; [apply IH | by intros [[? ?] ?]].
Qed.

(** Fuel above the number of unassigned variables is never used up. *)
Lemma backtrack_not_Timeout (c : Crossword) (fuel : nat) :
  forall (asg : assignment) (ds : domains),
    NoDup (dict_keys asg) -> (forall v, v ∈ dict_keys asg -> v ∈ variables c) ->
    size (variables c) < fuel + length (dict_keys asg) ->
    backtrack c fuel asg ds <> Timeout.
Proof.
  induction fuel as [|fuel IH]; intros asg ds Hnd Hsub Hfuel.
  - exfalso. assert (length (dict_keys asg) <= size (variables c)); [|lia].
    change (size (variables c)) with (length (elements (variables c))).
    apply submseteq_length, NoDup_submseteq; [done|].
    intros v Hv. by apply elem_of_elements, Hsub.
  - simpl. destruct (assignment_complete c asg); [done|].
    destruct (select_unassigned_variable c ds asg) as [var| |] eqn:Es;
      cbn [bind]; [|done|by apply select_unassigned_variable_not_Timeout in Es].
    apply select_unassigned_variable_min in Es as (Hvar & Hnew & _).
    apply bind_not_Timeout; [apply order_domain_values_not_Timeout|].
    intros values _.
    apply bind_not_Timeout; [|by intros [[? ?] ?]].
    apply try_values_not_Timeout. intros value ds0. apply IH.
    + rewrite dict_keys_set_notin by done.
      apply NoDup_app. split; [done|]. split; [|apply NoDup_singleton].
      intros v Hv Hv'%list_elem_of_singleton. by subst.
    + rewrite dict_keys_set_notin by done.
      intros v [?|Hv%list_elem_of_singleton]%elem_of_app; [auto | by subst].
    + rewrite dict_keys_set_notin by done. rewrite length_app. simpl. lia.
Qed.

(** X19: [solve] terminates: it raises, reports no-solution, or returns an
    assignment; the fuel of its two loops is never used up. *)
Lemma solve_not_Timeout (c : Crossword) : solve c <> Timeout.
Proof.
  unfold solve, solve_counted.
  apply bind_not_Timeout; [|by intros [[? ?] ?]].
  destruct (enforce_node_consistency_filter (init c)) as (ds1 & -> & _).
  cbn [bind]. apply bind_not_Timeout; [apply ac3_not_Timeout|].
  intros [ok ds2] _. apply backtrack_not_Timeout.
  - constructor.
  - by intros v ?%elem_of_nil.
  - unfold backtrack_fuel. simpl. lia.
Qed.

(** ** What holds of the heuristics and of [ac3] on well-formed input *)

(** [order_domain_values] returns the words of the domain, each once,
    in ascending order of [rulesOut]. *)
Lemma order_domain_values_sorted (c : Crossword) (ds : domains) (var : Var.t)
    (l : list string) :
  order_domain_values c ds var = Ok l ->
  exists (dv : gset string) (order : list (string * nat)),
    dict_get ds var = Some dv /\
    l = order.*1 /\ l ≡ₚ elements dv /\
    StronglySorted (fun a b => a.2 <= b.2) order /\
    forall w n, (w, n) ∈ order -> rules_out c ds var w = Ok n.
Proof.
  unfold order_domain_values, dict_getitem. intros H.
  destruct (dict_get ds var) as [dv|]; cbn [bind] in H; [|done].
  apply bind_Ok in H as (order & Horder & [= <-]).
  apply (foldM_inv_Ok
    (fun pre (order : dict string nat) =>
       dict_keys order = pre /\
       forall w n, (w, n) ∈ order -> rules_out c ds var w = Ok n))
    in Horder as [Hkeys Hr].
  - exists dv, (sorted snd order). split; [done|]. split; [done|].
    split; [|split].
    + rewrite <- Hkeys. unfold dict_keys. by rewrite sorted_perm.
    + apply sorted_ascending.
    + intros w n Hin. apply Hr. by rewrite <- (sorted_perm snd order).
  - split; [done|]. by intros w n ?%elem_of_nil.
  - intros pre w post cur cur' El [Hkeys Hr] Hstep.
    assert (NoDup (pre ++ w :: post)) as Hnd by (rewrite <- El; apply NoDup_elements).
    apply NoDup_app in Hnd as (_ & Hpre & _).
    apply bind_Ok in Hstep as (n & Hn & [= <-]). split.
    + rewrite dict_keys_set_notin; [by rewrite Hkeys|].
      rewrite Hkeys. intros Hin. apply (Hpre w Hin). left.
    + intros w' n' [?|[= -> ->]]%dict_set_elem; auto.
Qed.

(** A domain that is empty after a successful run of the worklist loop
    was already empty before it. *)
Lemma ac3_loop_empty_before (c : Crossword) (fuel : nat) :
  forall (q : queue) (ds ds' : domains) (n : nat) (k : Var.t),
    ac3_loop c fuel q ds = Ok (true, ds', n) ->
    dict_get ds' k = Some ∅ -> dict_get ds k = Some ∅.
Proof.
  induction fuel as [|fuel IH]; intros q ds ds' n k H Hk.
  - destruct q; simpl in H; [|done]. by injection H as <- <-.
  - destruct q as [|[[a0 a1] o] q]; simpl in H.
    { by injection H as <- <-. }
    destruct (revise c a0 a1 ds) as [[revised ds1]| |] eqn:E; simpl in H;
      [|done..].
    apply revise_inv in E as [[-> ->]|(-> & dx & dx' & Hx & Hsub & ->)].
    { by eapply IH. }
    unfold dict_getitem in H. rewrite dict_get_set_eq in H. simpl in H.
    case_decide as Hsize; [done|].
    destruct (enqueue_neighbors c a0 a1 _) as [q2| |]; simpl in H; [|done..].
    destruct (ac3_loop c fuel q2 _) as [[[ok2 ds2] n2]| |] eqn:E2;
      simpl in H; [|done..].
    injection H as -> <- <-.
    pose proof (IH _ _ _ _ k E2 Hk) as Hk1.
    rewrite dict_get_set in Hk1. case_decide; [|done].
    injection Hk1 as ->. by rewrite size_empty in Hsize.
Qed.

(** X18, the part of C5 that holds: if no domain is empty when [ac3] starts
    and [ac3] answers [True], no domain is empty when it returns. *)
Lemma ac3_success_nonempty (c : Crossword) (arcs : option queue)
    (ds ds' : domains) :
  (forall k s, dict_get ds k = Some s -> s <> ∅) ->
  ac3 c arcs ds = Ok (true, ds') ->
  forall k s, dict_get ds' k = Some s -> s <> ∅.
Proof.
  unfold ac3, ac3_counted. intros Hne H k s Hs ->.
  destruct (match arcs with
            | Some arcs0 => Ok arcs0
            | None => removeNone (overlaps c)
            end) as [q| |]; cbn [bind] in H; [|done..].
  destruct (ac3_loop c (ac3_fuel c q ds) q ds) as [[[ok1 ds1] n]| |] eqn:E;
    cbn [bind] in H; [|done..].
  injection H as -> ->.
  by apply (Hne k ∅ (ac3_loop_empty_before c _ _ _ _ _ k E Hs)).
Qed.

(** On a dictionary without duplicate keys [removeNone] returns, with
    entries of the dictionary only. *)
Lemma removeNone_Ok (q : queue) :
  NoDup (dict_keys q) ->
  exists q', removeNone q = Ok q' /\ forall kv, kv ∈ q' -> kv ∈ q.
Proof.
  intros Hnd. unfold removeNone.
  destruct (foldM_inv
    (fun pre (cur : queue) =>
       (forall kv, kv ∈ cur -> kv ∈ q) /\
       (forall k, k ∈ dict_keys q -> k ∉ pre -> k ∈ dict_keys cur))
    (fun (q0 : queue) key =>
       do o <- dict_getitem q0 key;
       match o with
       | None => Ok (dict_del q0 key)
       | Some _ => Ok q0
       end)
    (dict_keys q) q) as (q' & E & Hsub & _).
  - split; [done|]. by intros k Hk _.
  - intros pre key post cur El [Hsub Hkeys].
    rewrite El in Hnd. apply NoDup_app in Hnd as (_ & Hpre & _).
    assert (key ∈ dict_keys cur) as [o Ho]%dict_get_is_Some.
    { apply Hkeys.
      - rewrite El, elem_of_app. right; left.
      - intros Hin. apply (Hpre key Hin). left. }
    unfold dict_getitem. rewrite Ho. simpl.
    destruct o as [o|].
    + exists cur. split; [done|]. split; [done|].
      intros k Hk Hnk. apply Hkeys; [done|].
      intros ?. apply Hnk, elem_of_app. by left.
    + exists (dict_del cur key). split; [done|]. split.
      * intros kv [_ Hkv]%list_elem_of_filter. by apply Hsub.
      * intros k Hk Hnk. rewrite elem_of_app, list_elem_of_singleton in Hnk.
        assert (k ∈ dict_keys cur) as Hcur by (apply Hkeys; tauto).
        apply list_elem_of_fmap in Hcur as ([k0 v0] & -> & Hcur).
        apply list_elem_of_fmap. exists (k0, v0). split; [done|].
        apply list_elem_of_filter. simpl in *. tauto.
  - eauto.
Qed.

Lemma enqueue_neighbors_Ok (c : Crossword) (a0 a1 : Var.t) (q : queue) :
  exists q', enqueue_neighbors c a0 a1 q = Ok q' /\
    forall kv, kv ∈ q' ->
      kv ∈ q \/ (kv.1.2 = a0 /\ kv.1.1 ∈ variables c /\
                 is_Some (dict_get (overlaps c) kv.1)).
Proof.
  unfold enqueue_neighbors.
  destruct (foldM_inv
    (fun (pre : list Var.t) (cur : queue) =>
       forall kv, kv ∈ cur ->
         kv ∈ q \/ (kv.1.2 = a0 /\ kv.1.1 ∈ variables c /\
                    is_Some (dict_get (overlaps c) kv.1)))
    (fun (q0 : queue) z =>
       if decide (z = a1) then Ok q0
       else do o <- dict_getitem (overlaps c) (z, a0);
            Ok (dict_set q0 (z, a0) o))
    (elements (neighbors c a0)) q) as (q' & E & Hq'); [by left| |eauto].
  intros pre z post cur El Hcur.
  assert (z ∈ neighbors c a0) as Hz.
  { apply elem_of_elements. rewrite El, elem_of_app. right; left. }
  apply elem_of_filter in Hz as [[_ Hov] Hz].
  case_decide; [eauto|].
  unfold has_overlap in Hov. unfold dict_getitem.
  destruct (dict_get (overlaps c) (z, a0)) as [o|] eqn:Ho; simpl.
  - eexists; split; [done|].
    intros kv [?|Hkv]%dict_set_elem; [auto|]. subst kv. right. simpl.
    rewrite Ho. eauto.
  - by destruct Hov.
Qed.

Lemma ac3_loop_Ok (c : Crossword) (fuel : nat) :
  forall (q : queue) (ds : domains),
    (forall v, v ∈ variables c -> v ∈ dict_keys ds) ->
    (forall kv, kv ∈ q ->
       kv.1.1 ∈ dict_keys ds /\ kv.1.2 ∈ dict_keys ds /\
       is_Some (dict_get (overlaps c) kv.1)) ->
    total_candidates ds * S (size (variables c)) + length q < fuel ->
    exists r, ac3_loop c fuel q ds = Ok r.
Proof.
  induction fuel as [|fuel IH]; intros q ds Hdom Hq Hfuel; [lia|].
  destruct q as [|[[a0 a1] o] q]; simpl; [eauto|].
  destruct (Hq ((a0, a1), o)) as (Ha0 & Ha1 & [o' Ho']); [left|].
  simpl in Ha0, Ha1, Ho'.
  pose proof (length_dict_del_head (a0, a1) o q) as Hdel.
  assert (exists revised ds1, revise c a0 a1 ds = Ok (revised, ds1))
    as (revised & ds1 & E).
  { destruct o' as [[charX charY]|]; [|rewrite (revise_None _ _ _ _ Ho'); eauto].
    pose proof Ha0 as [dx Hx]%dict_get_is_Some.
    apply dict_get_is_Some in Ha1.
    destruct (revise_Some c a0 a1 ds charX charY dx Ho' Hx Ha1) as (dx' & -> & _).
    eauto. }
  rewrite E. simpl.
  pose proof (revise_shrinks c a0 a1 ds ds1 revised E) as [[Hkeys _] Htot].
  assert (forall kv, kv ∈ dict_del (((a0, a1), o) :: q) (a0, a1) ->
            kv.1.1 ∈ dict_keys ds1 /\ kv.1.2 ∈ dict_keys ds1 /\
            is_Some (dict_get (overlaps c) kv.1)) as Hq1.
  { intros kv [_ Hkv]%list_elem_of_filter. rewrite Hkeys. by apply Hq. }
  destruct revised.
  - rewrite <- Hkeys in Ha0. apply dict_get_is_Some in Ha0 as [dx Hdx].
    unfold dict_getitem. rewrite Hdx. simpl. case_decide; [eauto|].
    destruct (enqueue_neighbors_Ok c a0 a1 (dict_del (((a0, a1), o) :: q) (a0, a1)))
      as (q2 & Eq & Hq2).
    rewrite Eq. simpl.
    pose proof (enqueue_neighbors_length c a0 a1 _ q2 Eq) as Hlen.
    destruct (IH q2 ds1) as [[[ok2 ds2] n2] ->]; [| | |simpl; eauto].
    + intros v Hv. rewrite Hkeys. by apply Hdom.
    + intros kv [Hkv|(Hk2 & Hk1 & Hov)]%Hq2; [by apply Hq1|].
      rewrite Hk2. split; [rewrite Hkeys; by apply Hdom|]. split; [|done].
      apply dict_get_is_Some. by rewrite Hdx.
    + simpl in Hfuel.
      pose proof (Nat.mul_le_mono_r _ _ (S (size (variables c))) Htot). lia.
  - subst ds1. apply IH; [done..|]. simpl in Hfuel. lia.
Qed.

(** [ac3] returns, without raising, when no pair of slots has two overlap
    entries, every slot of an overlap entry has a domain, and every
    variable has a domain. *)
Lemma ac3_returns (c : Crossword) (ds : domains) :
  NoDup (dict_keys (overlaps c)) ->
  (forall x y o, ((x, y), o) ∈ overlaps c ->
     x ∈ dict_keys ds /\ y ∈ dict_keys ds) ->
  (forall v, v ∈ variables c -> v ∈ dict_keys ds) ->
  exists ok ds', ac3 c None ds = Ok (ok, ds').
Proof.
  intros Hnd Hov Hdom. unfold ac3, ac3_counted.
  destruct (removeNone_Ok (overlaps c) Hnd) as (q & -> & Hq). cbn [bind].
  destruct (ac3_loop_Ok c (ac3_fuel c q ds) q ds) as [[[ok ds'] n] ->].
  - done.
  - intros [[x y] o] Hkv%Hq. simpl.
    destruct (Hov x y o Hkv) as [? ?]. repeat split; try done.
    apply dict_get_is_Some, list_elem_of_fmap. by exists ((x, y), o).
  - unfold ac3_fuel. lia.
  - simpl. eauto.
Qed.

(** * Part III: further properties of the code *)

(** ** Well-formed crosswords *)

Lemma dict_get_elem {K V} `{EqDecision K} (d : dict K V) (k : K) (v : V) :
  dict_get d k = Some v -> (k, v) ∈ d.
Proof.
  induction d as [|[k0 v0] d IH]; simpl; [done|].
  case_decide; subst.
  - intros [= ->]. left.
  - intros. right. auto.
Qed.

Lemma dict_get_del_ne {K V} `{EqDecision K} (d : dict K V) (k k' : K) :
  k <> k' -> dict_get (dict_del d k) k' = dict_get d k'.
Proof.
  intros Hne. unfold dict_del. induction d as [|[k0 v0] d IH]; [done|].
  rewrite filter_cons. simpl. destruct (decide (k0 <> k)) as [Hk|Hk]; simpl.
  - by rewrite IH.
  - apply dec_stable in Hk. subst k0. rewrite IH. by rewrite decide_False.
Qed.

Lemma dict_keys_del {K V} `{EqDecision K} (d : dict K V) (k k' : K) :
  k' ∈ dict_keys (dict_del d k) <-> k' ∈ dict_keys d /\ k' <> k.
Proof.
  rewrite <- !dict_get_is_Some. destruct (decide (k = k')) as [->|Hne].
  - split; [|tauto]. intros Hs. exfalso.
    apply dict_get_is_Some, list_elem_of_fmap in Hs as ([k0 v0] & -> & Hin).
    apply list_elem_of_filter in Hin as [Hk _]. done.
  - rewrite dict_get_del_ne by done. split; [|tauto]. split; [done|congruence].
Qed.

(** What a well-formed crossword says of a defined overlap. *)
Lemma wf_overlap (c : Crossword) (x y : Var.t) (ox oy : nat) :
  wf_crossword c ->
  dict_get (overlaps c) (x, y) = Some (Some (ox, oy)) ->
  x ∈ variables c /\ y ∈ variables c /\ x <> y /\
  dict_get (overlaps c) (y, x) = Some (Some (oy, ox)) /\
  ox < Var.length x /\ oy < Var.length y.
Proof.
  intros [_ Hall] Ho. apply dict_get_elem in Ho.
  rewrite Forall_forall in Hall. by destruct (Hall _ Ho) as (? & ? & ? & ? & ? & ?).
Qed.

Lemma wf_neighbors (c : Crossword) (x y : Var.t) :
  wf_crossword c ->
  y ∈ neighbors c x <->
  exists ox oy, dict_get (overlaps c) (x, y) = Some (Some (ox, oy)).
Proof.
  intros Hwf. unfold neighbors, has_overlap. rewrite elem_of_filter. split.
  - intros [[Hne Hov] Hy].
    destruct (dict_get (overlaps c) (y, x)) as [[[oy ox]|]|] eqn:Ho;
      simpl in Hov; [|by destruct Hov..].
    apply (wf_overlap c) in Ho as (_ & _ & _ & Ho & _); [|done]. eauto.
  - intros (ox & oy & Ho).
    apply (wf_overlap c) in Ho as (Hx & Hy & Hne & Ho & _); [|done].
    rewrite Ho. simpl. split; [|done]. split; [done | eauto].
Qed.

Lemma agree_sym (charX charY : nat) (w w' : string) :
  agree charX charY w w' <-> agree charY charX w' w.
Proof. rewrite !agree_iff. split; intros (ch & ? & ?); eauto. Qed.

(** ** [ac3] establishes arc consistency *)

(** A productive call of [revise] on distinct slots leaves exactly the
    supported words. *)
Lemma revise_true_inv (c : Crossword) (x y : Var.t) (ds ds' : domains) :
  revise c x y ds = Ok (true, ds') ->
  exists charX charY dx,
    dict_get (overlaps c) (x, y) = Some (Some (charX, charY)) /\
    dict_get ds x = Some dx /\
    (x <> y -> exists dy, dict_get ds y = Some dy /\
       ds' = dict_set ds x (filter (supported charX charY dy) dx)).
Proof.
  intros H. unfold revise, dict_getitem in H.
  destruct (dict_get (overlaps c) (x, y)) as [[[charX charY]|]|] eqn:Ho;
    simpl in H; [|done..].
  destruct (dict_get ds x) as [dx|] eqn:Hx; simpl in H; [|done].
  exists charX, charY, dx. split; [done|]. split; [done|]. intros Hne.
  destruct (dict_get ds y) as [dy|] eqn:Hy.
  - destruct (revise_loop charX charY x y ds dx Hx) as (dx' & E & _ & Hex);
      [by rewrite Hy|].
    rewrite E in H. injection H as _ <-. exists dy. split; [done|].
    by rewrite (Hex Hne dy Hy).
  - destruct (elements dx) as [|a l]; simpl in H; [done|].
    unfold revise_step, dict_getitem in H. by rewrite Hy in H.
Qed.

(** After [revise(x, y)] the arc from [x] to [y] is consistent. *)
Lemma revise_arc_ok (c : Crossword) (x y : Var.t) (ds ds' : domains) (b : bool) :
  x <> y -> revise c x y ds = Ok (b, ds') -> arc_ok c ds' x y.
Proof.
  intros Hne H charX charY dx' dy Ho Hx' Hy' w Hw.
  destruct (dict_get ds x) as [dx|] eqn:Hx.
  - assert (dict_get ds y = Some dy) as Hy.
    { apply revise_inv in H as [[_ ->]|(_ & ? & ? & _ & _ & ->)]; [done|].
      by rewrite dict_get_set_ne in Hy'. }
    destruct (revise_Some c x y ds charX charY dx Ho Hx) as (dx0 & E & _ & Hex);
      [by rewrite Hy|].
    rewrite E in H. injection H as _ <-.
    rewrite dict_get_set_eq in Hx'. injection Hx' as <-.
    rewrite (Hex Hne dy Hy) in Hw. by apply elem_of_filter in Hw as [? _].
  - apply revise_inv in H as [[_ ->]|(_ & ? & ? & ? & _)]; congruence.
Qed.

Lemma enqueue_neighbors_keys (c : Crossword) (a0 a1 : Var.t) (q q' : queue) :
  enqueue_neighbors c a0 a1 q = Ok q' ->
  (forall k, k ∈ dict_keys q -> k ∈ dict_keys q') /\
  (forall z, z ∈ neighbors c a0 -> z <> a1 -> (z, a0) ∈ dict_keys q').
Proof.
  unfold enqueue_neighbors. intros H.
  apply (foldM_inv_Ok
    (fun pre (cur : queue) =>
       (forall k, k ∈ dict_keys q -> k ∈ dict_keys cur) /\
       (forall z, z ∈ pre -> z <> a1 -> (z, a0) ∈ dict_keys cur)))
    in H as [Hold Hnew].
  - split; [done|]. intros z Hz. apply Hnew. by apply elem_of_elements.
  - split; [done|]. by intros z ?%elem_of_nil.
  - intros pre z post cur cur' _ [Hold Hnew] Hstep.
    case_decide as Hz.
    + injection Hstep as <-. split; [done|].
      intros z' [?|Hz'%list_elem_of_singleton]%elem_of_app Hne; [auto|].
      congruence.
    + apply bind_Ok in Hstep as (o & _ & [= <-]). split.
      * intros k Hk. apply dict_keys_set. left. auto.
      * intros z' [?|Hz'%list_elem_of_singleton]%elem_of_app Hne;
          apply dict_keys_set; [left; auto | right; by subst].
Qed.

(** The invariant of the worklist: every arc that is not pending is
    consistent.  When the loop ends with [True] nothing is pending. *)
Lemma ac3_loop_arc_consistent (c : Crossword) (fuel : nat) :
  wf_crossword c ->
  forall (q : queue) (ds ds' : domains) (n : nat),
    (forall x y, (x, y) ∉ dict_keys q -> arc_ok c ds x y) ->
    ac3_loop c fuel q ds = Ok (true, ds', n) ->
    arc_consistent c ds'.
Proof.
  intros Hwf. induction fuel as [|fuel IH]; intros q ds ds' n Hinv H.
  { destruct q; simpl in H; [|done]. injection H as <- _.
    intros x y. apply Hinv, not_elem_of_nil. }
  destruct q as [|[[a0 a1] o] q]; simpl in H.
  { injection H as <- _. intros x y. apply Hinv, not_elem_of_nil. }
  destruct (revise c a0 a1 ds) as [[revised ds1]| |] eqn:E; simpl in H;
    [|done..].
  set (q0 := ((a0, a1), o) :: q) in *.
  assert (forall x y, (x, y) ∉ dict_keys (dict_del q0 (a0, a1)) ->
            (x, y) = (a0, a1) \/ (x, y) ∉ dict_keys q0) as Hdel.
  { intros x y Hn. destruct (decide ((x, y) = (a0, a1))); [by left|right].
    intros Hin. apply Hn, dict_keys_del. done. }
  destruct revised.
  - apply revise_true_inv in E as Hprecise.
    destruct Hprecise as (charX & charY & dx & Ho & Hx & Hprecise).
    destruct (wf_overlap c a0 a1 charX charY Hwf Ho)
      as (Ha0 & Ha1 & Hne & Hrev & _).
    destruct (Hprecise Hne) as (dy & Hy & Hds1).
    pose proof (revise_arc_ok c a0 a1 ds ds1 true Hne E) as Hnew.
    unfold dict_getitem in H.
    destruct (dict_get ds1 a0) as [dx1|] eqn:Hdx1; simpl in H; [|done].
    case_decide; [done|].
    destruct (enqueue_neighbors c a0 a1 _) as [q2| |] eqn:Eq; simpl in H;
      [|done..].
    destruct (ac3_loop c fuel q2 ds1) as [[[ok2 ds2] n2]| |] eqn:E2;
      simpl in H; [|done..].
    injection H as -> <- _.
    apply enqueue_neighbors_keys in Eq as [Hold Hnb].
    apply (IH q2 ds1 ds2 n2); [|done].
    intros x y Hnq2.
    assert ((x, y) = (a0, a1) \/ (x, y) ∉ dict_keys q0) as Hxy.
    { apply Hdel. intros Hin. by apply Hnq2, Hold. }
    destruct Hxy as [[= -> ->]|Hnq]; [done|].
    pose proof (Hinv x y Hnq) as Hok.
    intros cx cy dx' dy' Ho' Hx' Hy' w Hw.
    destruct (wf_overlap c x y cx cy Hwf Ho') as (Hxv & Hyv & Hxy & Hrev' & _).
    destruct (decide (y = a0)) as [->|Hya0].
    + (* an arc into the revised slot *)
      destruct (decide (x = a1)) as [->|Hxa1].
      * rewrite Hrev in Ho'. injection Ho' as <- <-.
        rewrite Hds1, dict_get_set_eq in Hy'. injection Hy' as <-.
        rewrite Hds1, dict_get_set_ne in Hx' by done.
        destruct (Hok charY charX dx' dx Hrev Hx' Hx w Hw) as (w' & Hw' & Hdiff & Hag).
        exists w'. split; [|done]. apply elem_of_filter. split; [|done].
        exists w. split; [congruence|]. split; [done|]. by apply agree_sym.
      * exfalso. apply Hnq2, Hnb; [|done].
        apply wf_neighbors; [done|]. eauto.
    + rewrite Hds1, dict_get_set_ne in Hy' by done.
      destruct (decide (x = a0)) as [->|Hxa0].
      * rewrite Hds1, dict_get_set_eq in Hx'. injection Hx' as <-.
        apply elem_of_filter in Hw as [_ Hw].
        by apply (Hok cx cy dx dy' Ho' Hx Hy').
      * rewrite Hds1, dict_get_set_ne in Hx' by done.
        by apply (Hok cx cy dx' dy' Ho' Hx' Hy').
  - assert (ds1 = ds) as ->.
    { by apply revise_inv in E as [[_ ->]|[? _]]. }
    apply (IH (dict_del q0 (a0, a1)) ds ds' n); [|done].
    intros x y [[= -> ->]|Hnq]%Hdel; [|by apply Hinv].
    intros cx cy dx dy Ho.
    destruct (wf_overlap c a0 a1 cx cy Hwf Ho) as (_ & _ & Hne & _).
    by apply (revise_arc_ok c a0 a1 ds ds false Hne E).
Qed.

(** [removeNone] keeps every arc that has offsets. *)
Lemma removeNone_keeps (q q' : queue) :
  removeNone q = Ok q' ->
  forall k o, dict_get q k = Some (Some o) -> k ∈ dict_keys q'.
Proof.
  unfold removeNone. intros H k o Hk.
  apply (foldM_inv_Ok
    (fun (pre : list (Var.t * Var.t)) (cur : queue) =>
       dict_get cur k = Some (Some o))) in H.
  - apply dict_get_is_Some. by rewrite H.
  - done.
  - intros pre key post cur cur' _ Hcur Hstep.
    apply bind_Ok in Hstep as (o' & Ho' & Hstep).
    destruct o' as [o'|]; injection Hstep as <-; [done|].
    rewrite dict_get_del_ne; [done|]. intros ->.
    unfold dict_getitem in Ho'. rewrite Hcur in Ho'. done.
Qed.

(** X1: on a well-formed crossword, when [ac3] (started from all arcs)
    answers [True] the domains are arc consistent: along every overlap,
    every word left in the first slot's domain has a different word in the
    second slot's domain that agrees with it at the overlap offsets. *)
Theorem ac3_arc_consistent (c : Crossword) (ds ds' : domains) :
  wf_crossword c ->
  ac3 c None ds = Ok (true, ds') ->
  arc_consistent c ds'.
Proof.
  intros Hwf H. unfold ac3, ac3_counted in H.
  destruct (removeNone (overlaps c)) as [q| |] eqn:Eq; cbn [bind] in H;
    [|done..].
  destruct (ac3_loop c (ac3_fuel c q ds) q ds) as [[[ok1 ds1] n]| |] eqn:E;
    cbn [bind] in H; [|done..].
  injection H as -> ->.
  apply (ac3_loop_arc_consistent c (ac3_fuel c q ds) Hwf q ds ds' n); [|done].
  intros x y Hnq cx cy dx dy Ho. destruct Hnq.
  by apply (removeNone_keeps _ _ Eq (x, y) (cx, cy)).
Qed.

(** Witness of X1: the tee with four words. *)
Lemma ac3_arc_consistent_witness :
  let c := Examples.tee {["ADA"; "CBC"; "AA"; "CC"]}%string in
  let ds : domains :=
    [(Examples.Z2, {["AA"; "CC"]}%string); (Examples.Y2, {["AA"; "CC"]}%string);
     (Examples.X3, {["ADA"; "CBC"]}%string)] in
  wf_crossword c /\ ac3 c None ds = Ok (true, ds) /\ arc_consistent c ds.
Proof.
  intros c ds.
  assert (wf_crossword c) as H1 by (apply (bool_decide_unpack _); vm_compute; exact I).
  assert (ac3 c None ds = Ok (true, ds)) as H2 by by_vm.
  split; [exact H1|]. split; [exact H2|].
  exact (ac3_arc_consistent c ds ds H1 H2).
Defined.

(** ** [ac3] on arc-consistent domains *)

(** On a consistent arc [revise] removes nothing. *)
Lemma revise_arc_ok_false (c : Crossword) (x y : Var.t) (ds ds' : domains)
    (b : bool) :
  wf_crossword c -> arc_ok c ds x y ->
  revise c x y ds = Ok (b, ds') -> b = false /\ ds' = ds.
Proof.
  intros Hwf Hok H. destruct b.
  - exfalso. apply revise_true_inv in H as Hprecise.
    destruct Hprecise as (charX & charY & dx & Ho & Hx & Hprecise).
    destruct (wf_overlap c x y charX charY Hwf Ho) as (_ & _ & Hne & _).
    destruct (Hprecise Hne) as (dy & Hy & Hds').
    apply revise_inv in H as [[? _]|(_ & dx0 & dx' & Hx0 & Hsub & Hds0)];
      [done|].
    assert (dx0 = dx) as -> by congruence.
    assert (dx' = filter (supported charX charY dy) dx) as ->.
    { assert (dict_get ds' x = Some dx') as H1
        by (rewrite Hds0; apply dict_get_set_eq).
      rewrite Hds', dict_get_set_eq in H1. congruence. }
    destruct Hsub as [_ Hsub]. apply Hsub. intros w Hw.
    apply elem_of_filter. split; [|done]. by apply (Hok charX charY dx dy).
  - by apply revise_inv in H as [[_ ->]|[? _]].
Qed.

Lemma ac3_loop_fixpoint (c : Crossword) (fuel : nat) :
  wf_crossword c ->
  forall (q : queue) (ds ds' : domains) (ok : bool) (n : nat),
    arc_consistent c ds ->
    ac3_loop c fuel q ds = Ok (ok, ds', n) ->
    ok = true /\ ds' = ds /\ n = 0.
Proof.
  intros Hwf. induction fuel as [|fuel IH]; intros q ds ds' ok n Hac H.
  { destruct q; simpl in H; [|done]. by injection H as <- <- <-. }
  destruct q as [|[[a0 a1] o] q]; simpl in H.
  { by injection H as <- <- <-. }
  destruct (revise c a0 a1 ds) as [[revised ds1]| |] eqn:E; simpl in H;
    [|done..].
  apply (revise_arc_ok_false c a0 a1 ds ds1 revised Hwf (Hac a0 a1)) in E
    as [-> ->].
  by apply (IH (dict_del (((a0, a1), o) :: q) (a0, a1)) ds ds' ok n).
Qed.

Lemma wf_ac3_returns (c : Crossword) (ds : domains) :
  wf_crossword c ->
  (forall v, v ∈ variables c -> v ∈ dict_keys ds) ->
  exists ok ds', ac3 c None ds = Ok (ok, ds').
Proof.
  intros Hwf Hkeys. apply ac3_returns; [by destruct Hwf| |done].
  intros x y o Hin. destruct Hwf as [_ Hall].
  rewrite Forall_forall in Hall. destruct (Hall _ Hin) as (Hx & Hy & _).
  simpl in *. auto.
Qed.

Lemma ac3_fixpoint (c : Crossword) (ds : domains) :
  wf_crossword c ->
  (forall v, v ∈ variables c -> v ∈ dict_keys ds) ->
  arc_consistent c ds ->
  ac3 c None ds = Ok (true, ds).
Proof.
  intros Hwf Hkeys Hac.
  destruct (wf_ac3_returns c ds Hwf Hkeys) as (ok & ds' & H).
  rewrite H. unfold ac3, ac3_counted in H.
  destruct (removeNone (overlaps c)) as [q| |] eqn:Eq; cbn [bind] in H;
    [|done..].
  destruct (ac3_loop c (ac3_fuel c q ds) q ds) as [[[ok1 ds1] n]| |] eqn:E;
    cbn [bind] in H; [|done..].
  injection H as <- <-.
  by apply (ac3_loop_fixpoint c (ac3_fuel c q ds) Hwf q ds ds1 ok1 n Hac) in E
    as (-> & -> & _).
Qed.

(** X2: [ac3] is idempotent on a well-formed crossword: when a run from all
    arcs answers [True], a second run on the domains it left answers [True]
    again and removes nothing. *)
Theorem ac3_idempotent (c : Crossword) (ds ds' : domains) :
  wf_crossword c ->
  (forall v, v ∈ variables c -> v ∈ dict_keys ds) ->
  ac3 c None ds = Ok (true, ds') ->
  ac3 c None ds' = Ok (true, ds').
Proof.
  intros Hwf Hkeys H. apply ac3_fixpoint; [done| |].
  - apply ac3_inv in H as [[Hk _] _]. rewrite Hk. done.
  - unfold ac3, ac3_counted in H.
    destruct (removeNone (overlaps c)) as [q| |] eqn:Eq; cbn [bind] in H;
      [|done..].
    destruct (ac3_loop c (ac3_fuel c q ds) q ds) as [[[ok1 ds1] n]| |] eqn:E;
      cbn [bind] in H; [|done..].
    injection H as -> ->.
    apply (ac3_loop_arc_consistent c (ac3_fuel c q ds) Hwf q ds ds' n);
      [|done].
    intros x y Hnq cx cy dx dy Ho. destruct Hnq.
    by apply (removeNone_keeps _ _ Eq (x, y) (cx, cy)).
Qed.

(** Witness of X2: on the tee with five words the first run prunes, the
    second changes nothing. *)
Lemma ac3_idempotent_witness :
  let c := Examples.tee {["ADA"; "CBC"; "AA"; "CC"; "AD"]}%string in
  let ds : domains :=
    [(Examples.Z2, {["AA"; "CC"; "AD"]}%string);
     (Examples.Y2, {["AA"; "CC"; "AD"]}%string);
     (Examples.X3, {["ADA"; "CBC"; "AD"]}%string)] in
  let ds' : domains :=
    [(Examples.Z2, {["AA"; "CC"; "AD"]}%string);
     (Examples.Y2, {["AA"; "CC"; "AD"]}%string);
     (Examples.X3, {["ADA"; "CBC"]}%string)] in
  ac3 c None ds = Ok (true, ds') /\ ac3 c None ds' = Ok (true, ds').
Proof.
  intros c ds ds'.
  assert (wf_crossword c) as H1
    by (apply (bool_decide_unpack _); vm_compute; exact I).
  assert (forall v, v ∈ variables c -> v ∈ dict_keys ds) as H2.
  { intros v Hv. apply elem_of_elements in Hv.
    revert v Hv. apply Forall_forall.
    apply (bool_decide_unpack _). vm_compute. exact I. }
  assert (ac3 c None ds = Ok (true, ds')) as H3 by by_vm.
  split; [exact H3|]. exact (ac3_idempotent c ds ds' H1 H2 H3).
Defined.

(** ** Propagation keeps every solution *)

(** In a valid assignment the words of two overlapping slots differ and
    agree at the offsets of the overlap. *)
Lemma valid_overlap (c : Crossword) (asg : assignment) (x y : Var.t)
    (ox oy : nat) :
  wf_crossword c -> valid_assignment c asg ->
  dict_get (overlaps c) (x, y) = Some (Some (ox, oy)) ->
  exists wx wy, dict_get asg x = Some wx /\ dict_get asg y = Some wy /\
                wx <> wy /\ agree ox oy wx wy.
Proof.
  intros Hwf (Hall & _ & Hdiff & Hag) Ho.
  destruct (wf_overlap c x y ox oy Hwf Ho) as (Hx & Hy & Hne & _).
  destruct (Hall x Hx) as [wx Hwx]. destruct (Hall y Hy) as [wy Hwy].
  exists wx, wy. split; [done|]. split; [done|]. split; [eauto|].
  destruct (Hag x y wx wy) as (ox' & oy' & Ho' & Ha); [|done..|].
  - apply wf_neighbors; eauto.
  - congruence.
Qed.

Lemma ac3_loop_keeps (c : Crossword) (asg : assignment) (fuel : nat) :
  wf_crossword c -> valid_assignment c asg ->
  forall (q : queue) (ds ds' : domains) (ok : bool) (n : nat),
    within asg ds ->
    ac3_loop c fuel q ds = Ok (ok, ds', n) ->
    ok = true /\ within asg ds'.
Proof.
  intros Hwf Hvalid. induction fuel as [|fuel IH]; intros q ds ds' ok n Hin H.
  { destruct q; simpl in H; [|done]. by injection H as <- <- _. }
  destruct q as [|[[a0 a1] o] q]; simpl in H.
  { by injection H as <- <- _. }
  destruct (revise c a0 a1 ds) as [[revised ds1]| |] eqn:E; simpl in H;
    [|done..].
  destruct revised.
  - apply revise_true_inv in E as (charX & charY & dx & Ho & Hx & Hprecise).
    destruct (wf_overlap c a0 a1 charX charY Hwf Ho) as (_ & _ & Hne & _).
    destruct (Hprecise Hne) as (dy & Hy & ->).
    destruct (valid_overlap c asg a0 a1 charX charY Hwf Hvalid Ho)
      as (wx & wy & Hwx & Hwy & Hdiff & Hag).
    destruct (Hin a0 wx Hwx) as (sx & Hsx & Hwxin).
    destruct (Hin a1 wy Hwy) as (sy & Hsy & Hwyin).
    assert (sx = dx) as -> by congruence.
    assert (sy = dy) as -> by congruence.
    assert (wx ∈ filter (supported charX charY dy) dx) as Hkeep.
    { apply elem_of_filter. split; [|done]. exists wy. done. }
    unfold dict_getitem in H. rewrite dict_get_set_eq in H. simpl in H.
    case_decide as Hsize.
    { apply size_empty_inv in Hsize. exfalso.
      apply (not_elem_of_empty (C:=gset string) wx). by rewrite <- Hsize. }
    destruct (enqueue_neighbors c a0 a1 _) as [q2| |] eqn:Eq; simpl in H;
      [|done..].
    destruct (ac3_loop c fuel q2 _) as [[[ok2 ds2] n2]| |] eqn:E2;
      simpl in H; [|done..].
    injection H as <- <- _.
    eapply IH; [|exact E2].
    intros v w Hv. destruct (decide (v = a0)) as [->|Hva0].
    + rewrite dict_get_set_eq. eexists. split; [done|]. congruence.
    + rewrite dict_get_set_ne by done. by apply Hin.
  - assert (ds1 = ds) as ->.
    { by apply revise_inv in E as [[_ ->]|[? _]]. }
    by apply (IH (dict_del (((a0, a1), o) :: q) (a0, a1)) ds ds' ok n).
Qed.

(** X3: [ac3] removes no word of a solution.  On a well-formed crossword,
    if some valid complete assignment takes each of its words from the
    domain of its slot, a run of [ac3] that returns (from any queue of
    arcs) answers [True] and leaves every one of those words in its
    domain. *)
Theorem ac3_keeps_solutions (c : Crossword) (asg : assignment)
    (arcs : option queue) (ds ds' : domains) (ok : bool) :
  wf_crossword c -> valid_assignment c asg -> within asg ds ->
  ac3 c arcs ds = Ok (ok, ds') ->
  ok = true /\ within asg ds'.
Proof.
  intros Hwf Hvalid Hin H. unfold ac3, ac3_counted in H.
  destruct (match arcs with None => removeNone (overlaps c) | Some a => Ok a end)
    as [q| |] eqn:Eq; cbn [bind] in H; [|done..].
  destruct (ac3_loop c (ac3_fuel c q ds) q ds) as [[[ok1 ds1] n]| |] eqn:E;
    cbn [bind] in H; [|done..].
  injection H as <- <-.
  by apply (ac3_loop_keeps c asg (ac3_fuel c q ds) Hwf Hvalid q ds ds1 ok1 n).
Qed.

Lemma within_check (asg : assignment) (ds : domains) :
  forallb (fun kv : Var.t * string =>
             match dict_get ds kv.1 with
             | Some s => bool_decide (kv.2 ∈ s)
             | None => false
             end) asg = true ->
  within asg ds.
Proof.
  intros Hall v w Hv. apply dict_get_elem, list_elem_of_In in Hv.
  rewrite forallb_forall in Hall. specialize (Hall _ Hv). simpl in Hall.
  destruct (dict_get ds v) as [s|]; [|done].
  exists s. split; [done|]. by apply bool_decide_eq_true in Hall.
Qed.

(** Witness of X3: the tee, whose solution survives the pruning. *)
Lemma ac3_keeps_solutions_witness :
  let c := Examples.tee {["ADA"; "CBC"; "AA"; "CC"; "AD"]}%string in
  let asg : assignment :=
    [(Examples.X3, "ADA"); (Examples.Z2, "AA"); (Examples.Y2, "AD")]%string in
  let ds : domains :=
    [(Examples.Z2, {["AA"; "CC"; "AD"]}%string);
     (Examples.Y2, {["AA"; "CC"; "AD"]}%string);
     (Examples.X3, {["ADA"; "CBC"; "AD"]}%string)] in
  let ds' : domains :=
    [(Examples.Z2, {["AA"; "CC"; "AD"]}%string);
     (Examples.Y2, {["AA"; "CC"; "AD"]}%string);
     (Examples.X3, {["ADA"; "CBC"]}%string)] in
  ac3 c None ds = Ok (true, ds') /\ true = true /\ within asg ds'.
Proof.
  intros c asg ds ds'.
  assert (wf_crossword c) as H1
    by (apply (bool_decide_unpack _); vm_compute; exact I).
  assert (valid_assignment c asg) as H2.
  { apply accepted_complete_valid.
    - by_vm.
    - apply (bool_decide_unpack _). vm_compute. exact I.
    - apply Forall_forall. apply (bool_decide_unpack _). vm_compute. exact I.
    - by_vm. }
  assert (within asg ds) as H3.
  { apply within_check. by_vm. }
  assert (ac3 c None ds = Ok (true, ds')) as H4 by by_vm.
  split; [exact H4|]. exact (ac3_keeps_solutions c asg None ds ds' true H1 H2 H3 H4).
Defined.

(** X4: the propagation that [solve] runs before searching never loses a
    solution.  On a well-formed crossword with a valid complete assignment
    of dictionary words to its slots, node consistency on the initial
    domains returns, [ac3] then answers [True], and every word of the
    assignment is still in the domain of its slot. *)
Theorem propagation_keeps_solutions (c : Crossword) (asg : assignment) :
  wf_crossword c -> valid_assignment c asg ->
  (forall v w, dict_get asg v = Some w -> v ∈ variables c /\ w ∈ words c) ->
  exists ds1 ds2,
    enforce_node_consistency (init c) = Ok ds1 /\
    ac3 c None ds1 = Ok (true, ds2) /\
    within asg ds2.
Proof.
  intros Hwf Hvalid Hdict.
  destruct (enforce_node_consistency_filter (init c)) as (ds1 & E1 & Hk & Hf).
  assert (within asg ds1) as Hin.
  { intros v w Hv. destruct (Hdict v w Hv) as [Hvar Hword].
    eexists. split; [apply Hf, dict_get_init, Hvar|].
    apply elem_of_filter. split; [|done].
    destruct Hvalid as (_ & Hlen & _). by apply Hlen. }
  destruct (wf_ac3_returns c ds1 Hwf) as (ok & ds2 & E2).
  { intros v Hv. rewrite Hk, dict_keys_init. by apply elem_of_elements. }
  exists ds1, ds2. split; [done|].
  unfold ac3, ac3_counted in E2 |- *.
  destruct (removeNone (overlaps c)) as [q| |] eqn:Eq; cbn [bind] in E2 |- *;
    [|done..].
  destruct (ac3_loop c (ac3_fuel c q ds1) q ds1) as [[[ok1 ds'] n]| |] eqn:E;
    cbn [bind] in E2 |- *; [|done..].
  injection E2 as <- <-.
  apply (ac3_loop_keeps c asg (ac3_fuel c q ds1) Hwf Hvalid q ds1 ds' ok1 n)
    in E as [-> Hin']; done.
Qed.

(** Witness of X4: the tee and its solution. *)
Lemma propagation_keeps_solutions_witness :
  let c := Examples.tee {["ADA"; "CBC"; "AA"; "CC"; "AD"]}%string in
  let asg : assignment :=
    [(Examples.X3, "ADA"); (Examples.Z2, "AA"); (Examples.Y2, "AD")]%string in
  exists ds1 ds2,
    enforce_node_consistency (init c) = Ok ds1 /\
    ac3 c None ds1 = Ok (true, ds2) /\
    within asg ds2.
Proof.
  intros c asg.
  assert (wf_crossword c) as H1
    by (apply (bool_decide_unpack _); vm_compute; exact I).
  assert (valid_assignment c asg) as H2.
  { apply accepted_complete_valid.
    - by_vm.
    - apply (bool_decide_unpack _). vm_compute. exact I.
    - apply Forall_forall. apply (bool_decide_unpack _). vm_compute. exact I.
    - by_vm. }
  assert (forall v w, dict_get asg v = Some w -> v ∈ variables c /\ w ∈ words c)
    as H3.
  { intros v w Hv. apply dict_get_elem in Hv. subst asg.
    repeat (apply elem_of_cons in Hv as [Hv|Hv];
            [injection Hv as -> ->; split;
             apply (bool_decide_unpack _); vm_compute; exact I|]).
    by apply elem_of_nil in Hv. }
  exact (propagation_keeps_solutions c asg H1 H2 H3).
Defined.

(** ** The queue helpers *)

Lemma filter_ext_in {A} (P Q : A -> Prop) `{!forall x, Decision (P x)}
    `{!forall x, Decision (Q x)} (l : list A) :
  (forall x, x ∈ l -> P x <-> Q x) -> filter P l = filter Q l.
Proof.
  induction l as [|a l IH]; intros Hext; [done|].
  rewrite !filter_cons.
  assert (P a <-> Q a) as Ha by (apply Hext; left).
  rewrite IH by (intros x Hx; apply Hext; by right).
  destruct (decide (P a)), (decide (Q a)); tauto.
Qed.

Lemma filter_all {A} (P : A -> Prop) `{!forall x, Decision (P x)} (l : list A) :
  (forall x, x ∈ l -> P x) -> filter P l = l.
Proof.
  induction l as [|a l IH]; intros Hall; [done|].
  rewrite filter_cons, decide_True by (apply Hall; left).
  rewrite IH; [done|]. intros x Hx. apply Hall. by right.
Qed.

(** With one entry per key, an entry of the list is what a lookup finds. *)
Lemma dict_get_unique {K V} `{EqDecision K} (d : dict K V) (k : K) (v : V) :
  NoDup (dict_keys d) -> (k, v) ∈ d -> dict_get d k = Some v.
Proof.
  induction d as [|[k0 v0] d IH]; intros Hnd Hin.
  { by apply elem_of_nil in Hin. }
  simpl in Hnd. apply NoDup_cons in Hnd as [Hk0 Hnd]. simpl.
  apply elem_of_cons in Hin as [[= -> ->]|Hin].
  - by rewrite decide_True.
  - rewrite decide_False; [by apply IH|]. intros ->. apply Hk0.
    apply list_elem_of_fmap. by exists (k, v).
Qed.

Lemma dict_get_filter {K V} `{EqDecision K} (P : K * V -> Prop)
    `{!forall kv, Decision (P kv)} (d : dict K V) (k : K) (v : V) :
  dict_get d k = Some v -> P (k, v) -> dict_get (filter P d) k = Some v.
Proof.
  intros Hget HP. induction d as [|[k0 v0] d IH]; [done|].
  simpl in Hget. rewrite filter_cons. case_decide as Hk.
  - subst k0. injection Hget as ->. rewrite decide_True by done.
    simpl. by rewrite decide_True.
  - destruct (decide (P (k0, v0))); [|by apply IH].
    simpl. rewrite decide_False by done. by apply IH.
Qed.

(** X5: [removeNone] deletes exactly the arcs without offsets: on a
    dictionary (one entry per key) it returns, without raising, the
    entries whose value is not [None], in their order. *)
Theorem removeNone_filter (q : queue) :
  NoDup (dict_keys q) ->
  removeNone q = Ok (filter (fun kv => kv.2 <> None) q).
Proof.
  intros Hnd. unfold removeNone.
  destruct (foldM_inv
    (fun pre (cur : queue) =>
       cur = filter (fun kv => kv.1 ∈ pre -> kv.2 <> None) q)
    (fun (q0 : queue) key =>
       do o <- dict_getitem q0 key;
       match o with
       | None => Ok (dict_del q0 key)
       | Some _ => Ok q0
       end)
    (dict_keys q) q) as (q' & E & ->).
  - symmetry. apply filter_all. by intros kv _ ?%elem_of_nil.
  - intros pre key post cur El ->.
    assert (key ∉ pre) as Hpre.
    { rewrite El in Hnd. apply NoDup_app in Hnd as (_ & Hpre & _).
      intros Hin. apply (Hpre key Hin). left. }
    assert (key ∈ dict_keys q) as [o Ho]%dict_get_is_Some.
    { rewrite El, elem_of_app. right; left. }
    assert (forall v, (key, v) ∈ q -> v = o) as Huniq.
    { intros v Hv. apply (dict_get_unique q key v Hnd) in Hv. congruence. }
    unfold dict_getitem.
    rewrite (dict_get_filter _ q key o Ho) by (simpl; by intros ?).
    simpl. destruct o as [o|].
    + eexists. split; [done|]. apply filter_ext_in.
      intros [k v] Hkv. simpl. split.
      * intros H [Hk|Hk%list_elem_of_singleton]%elem_of_app; [auto|].
        subst k. by rewrite (Huniq v Hkv).
      * intros H Hk. apply H, elem_of_app. by left.
    + eexists. split; [done|]. unfold dict_del.
      rewrite list_filter_filter. apply filter_ext_in.
      intros [k v] Hkv. simpl. split.
      * intros [Hne H] [Hk|Hk%list_elem_of_singleton]%elem_of_app; auto.
      * intros H. split.
        -- intros ->. apply H; [|by apply Huniq].
           apply elem_of_app. right. left.
        -- intros Hk. apply H, elem_of_app. by left.
  - rewrite E. f_equal. apply filter_ext_in.
    intros [k v] Hkv. simpl. split; [|auto].
    intros H. apply H. apply list_elem_of_fmap. by exists (k, v).
Qed.

(** Witness of X5: the overlap table of the tee, four of whose six entries
    carry offsets. *)
Lemma removeNone_filter_witness :
  let q : queue := overlaps (Examples.tee ∅) in
  exists q', removeNone q = Ok q' /\ length q = 6 /\ length q' = 4.
Proof.
  intros q.
  assert (NoDup (dict_keys q)) as H1
    by (apply (bool_decide_unpack _); vm_compute; exact I).
  exists (filter (fun kv => kv.2 <> None) q).
  split; [exact (removeNone_filter q H1)|]. split; by_vm.
Defined.

(** X6: [deQueue] takes the oldest arc: on a non-empty dictionary (one
    entry per key) it returns the first key, and what is left of the queue
    is the remaining entries, unchanged and in their order. *)
Theorem deQueue_first (arc : Var.t * Var.t) (o : option (nat * nat))
    (rest : queue) :
  NoDup (dict_keys ((arc, o) :: rest)) ->
  deQueue ((arc, o) :: rest) = (Some arc, rest).
Proof.
  intros Hnd. simpl in Hnd. apply NoDup_cons in Hnd as [Harc _].
  unfold deQueue, dict_del. f_equal.
  rewrite filter_cons, decide_False by (simpl; by intros ?).
  apply filter_all. intros [k v] Hkv. simpl. intros ->. apply Harc.
  apply list_elem_of_fmap. by exists (arc, v).
Qed.

Lemma deQueue_first_witness :
  deQueue [((Examples.X3, Examples.Y2), Some (0, 0));
           ((Examples.Y2, Examples.X3), Some (0, 0))]
  = (Some (Examples.X3, Examples.Y2),
     [((Examples.Y2, Examples.X3), Some (0, 0))]).
Proof.
  apply deQueue_first.
  apply (bool_decide_unpack _). vm_compute. exact I.
Defined.

(** ** The tests of the search *)

Lemma all_assigned_complete (c : Crossword) (asg : assignment) :
  NoDup (dict_keys asg) ->
  (forall v, v ∈ dict_keys asg -> v ∈ variables c) ->
  (forall v, v ∈ variables c -> v ∈ dict_keys asg) ->
  assignment_complete c asg = true.
Proof.
  intros Hnd Hsub Hall. unfold assignment_complete. apply bool_decide_eq_true.
  unfold size, set_size. simpl. apply Permutation_length.
  apply NoDup_Permutation; [done | apply NoDup_elements|].
  intros v. rewrite elem_of_elements. split; [apply Hsub | apply Hall].
Qed.



(** X8: with every slot already assigned [select_unassigned_variable]
    raises [IndexError]: the test [variables is not None] never fails, so
    the code reads the first element of an empty list and the branch that
    returns [None] is never taken. *)
Theorem select_unassigned_variable_none_left (c : Crossword) (ds : domains)
    (asg : assignment) :
  (forall v, v ∈ variables c -> v ∈ dict_keys asg) ->
  select_unassigned_variable c ds asg = Raise IndexError.
Proof.
  intros Hall. unfold select_unassigned_variable.
  rewrite foldM_id; [done|].
  intros v Hv. apply elem_of_elements, Hall, dict_contains_true in Hv.
  by rewrite Hv.
Qed.

Lemma select_unassigned_variable_none_left_witness :
  let c := Examples.tee ∅ in
  let asg : assignment :=
    [(Examples.X3, "ADA"); (Examples.Z2, "AA"); (Examples.Y2, "AD")]%string in
  select_unassigned_variable c (init c) asg = Raise IndexError.
Proof.
  intros c asg. apply select_unassigned_variable_none_left.
  intros v Hv. apply elem_of_elements in Hv. revert v Hv.
  apply Forall_forall. apply (bool_decide_unpack _). vm_compute. exact I.
Defined.

(** ** Restricting and restoring a domain *)

Lemma restrict_domain_Ok (var : Var.t) (value : string) (ds : domains)
    (dv0 : gset string) :
  dict_get ds var = Some dv0 ->
  restrict_domain var value ds
  = Ok (filter (fun w => w <> value) (elements dv0),
        dict_set ds var (dv0 ∩ {[value]})).
Proof.
  intros Hdv. unfold restrict_domain, dict_getitem. rewrite Hdv. simpl.
  destruct (foldM_inv
    (fun pre (st : list string * domains) =>
       st.1 = filter (fun w => w <> value) pre /\
       st.2 = dict_set ds var (dv0 ∖ list_to_set st.1))
    (fun '((inferenceValues, ds) : list string * domains) oldValue =>
       if decide (oldValue <> value) then
         do ds' <- domain_remove ds var oldValue;
         Ok (inferenceValues ++ [oldValue], ds')
       else Ok (inferenceValues, ds))
    (elements dv0) ([], ds)) as ([iv ds1] & E & Hiv & Hds1).
  - split; [done|]. simpl. rewrite difference_empty_L.
    symmetry. by apply dict_set_same.
  - intros pre old post [iv cur] El [Hiv Hcur]. simpl in Hiv, Hcur.
    assert (old ∈ dv0) as Hold.
    { apply elem_of_elements. rewrite El, elem_of_app. right; left. }
    assert (old ∉ pre) as Hpre.
    { pose proof (NoDup_elements dv0) as Hnd. rewrite El in Hnd.
      apply NoDup_app in Hnd as (_ & Hpre & _).
      intros Hin. apply (Hpre old Hin). left. }
    case_decide as Hne.
    + rewrite (domain_remove_Ok cur var (dv0 ∖ list_to_set iv) old).
      * simpl. eexists. split; [done|]. simpl.
        rewrite filter_app, filter_cons, decide_True, filter_nil by done.
        split; [by rewrite Hiv|].
        rewrite Hcur, dict_set_set. f_equal.
        apply set_eq. intros w.
        rewrite !elem_of_difference, elem_of_list_to_set, elem_of_singleton,
          elem_of_list_to_set, elem_of_app, list_elem_of_singleton.
        tauto.
      * rewrite Hcur. apply dict_get_set_eq.
      * apply elem_of_difference. split; [done|].
        rewrite elem_of_list_to_set, Hiv. intros [_ ?]%list_elem_of_filter.
        done.
    + eexists. split; [done|]. simpl.
      rewrite filter_app, filter_cons, decide_False, filter_nil, app_nil_r
        by (by intros ?).
      done.
  - simpl in Hiv, Hds1. rewrite E, Hds1, Hiv. do 3 f_equal.
    apply set_eq. intros w.
    rewrite elem_of_difference, elem_of_intersection, elem_of_list_to_set,
      list_elem_of_filter, elem_of_elements, elem_of_singleton.
    destruct (decide (w = value)); tauto.
Qed.

Lemma restore_domain_Ok (var : Var.t) (iv : list string) (ds : domains)
    (dv : gset string) :
  dict_get ds var = Some dv ->
  restore_domain var iv ds = Ok (dict_set ds var (dv ∪ list_to_set iv)).
Proof.
  unfold restore_domain. revert ds dv.
  induction iv as [|w iv IH]; intros ds dv Hdv; cbn [foldM].
  - simpl. rewrite union_empty_r_L, dict_set_same; done.
  - unfold dict_getitem at 1. rewrite Hdv. cbn [bind].
    rewrite (IH _ (set_add w dv)) by apply dict_get_set_eq.
    rewrite dict_set_set. do 2 f_equal. unfold set_add.
    apply set_eq. intros w'.
    rewrite !elem_of_union, elem_of_singleton, !elem_of_list_to_set,
      elem_of_cons.
    tauto.
Qed.

(** X9: the bookkeeping of [backtrack] is a round trip when nothing else
    touches the domains: the loop that keeps only [value] in the domain
    of [var] leaves the domain with [value] alone (or empty, when [value]
    was not in it) and every other domain as it was, and putting
    [inferenceValues] back gives the domain map of before. *)
Theorem restrict_restore (var : Var.t) (value : string) (ds : domains)
    (dv0 : gset string) :
  dict_get ds var = Some dv0 ->
  exists inferenceValues ds1,
    restrict_domain var value ds = Ok (inferenceValues, ds1) /\
    ds1 = dict_set ds var (dv0 ∩ {[value]}) /\
    restore_domain var inferenceValues ds1 = Ok ds.
Proof.
  intros Hdv. eexists _, _. split; [by apply restrict_domain_Ok|].
  split; [done|].
  rewrite (restore_domain_Ok var _ _ (dv0 ∩ {[value]}))
    by apply dict_get_set_eq.
  rewrite dict_set_set. f_equal. apply dict_set_same. rewrite Hdv. f_equal.
  apply set_eq. intros w.
  rewrite elem_of_union, elem_of_intersection, elem_of_list_to_set,
    list_elem_of_filter, elem_of_elements, elem_of_singleton.
  destruct (decide (w = value)); tauto.
Qed.

Lemma restrict_restore_witness :
  let ds : domains :=
    [(Examples.Z2, {["AA"; "CC"; "AD"]}%string);
     (Examples.X3, {["ADA"; "CBC"]}%string)] in
  exists inferenceValues ds1,
    restrict_domain Examples.Z2 "CC" ds = Ok (inferenceValues, ds1) /\
    ds1 = dict_set ds Examples.Z2 ({["AA"; "CC"; "AD"]} ∩ {["CC"]})%string /\
    restore_domain Examples.Z2 inferenceValues ds1 = Ok ds.
Proof.
  intros ds. apply restrict_restore. by_vm.
Defined.

(** ** [consistent] accepts exactly the conflict-free assignments *)

Lemma neighbors_agree_complete (c : Crossword) (asg : assignment)
    (key : Var.t) (w : string) (ns : list Var.t) :
  (forall nb wn, nb ∈ ns -> dict_get asg nb = Some wn ->
     exists ox oy, dict_get (overlaps c) (key, nb) = Some (Some (ox, oy)) /\
                   agree ox oy w wn) ->
  neighbors_agree c asg key w ns = Ok true.
Proof.
  induction ns as [|nb ns IH]; intros H; [done|].
  cbn [neighbors_agree].
  assert (neighbors_agree c asg key w ns = Ok true) as Hrest.
  { apply IH. intros nb' wn Hnb. apply H. by right. }
  destruct (dict_contains asg nb) eqn:Hc; [|done].
  apply dict_contains_true, dict_get_is_Some in Hc as [wn Hwn].
  destruct (H nb wn) as (ox & oy & Ho & Hag); [left|done|].
  apply agree_iff in Hag as (ch & Hx & Hy).
  unfold dict_getitem. rewrite Ho, Hwn. cbn [bind].
  apply str_index_Ok in Hx, Hy. rewrite Hx. cbn [bind]. rewrite Hy.
  cbn [bind]. by rewrite decide_False by (by intros ?).
Qed.

Lemma consistent_loop_complete (c : Crossword) (asg : assignment) :
  forall (keys : list Var.t) (seen : gset string),
    NoDup keys ->
    (forall key, key ∈ keys ->
       exists w, dict_get asg key = Some w /\
         String.length w = Var.length key /\ (w ∉ seen) /\
         forall nb wn, nb ∈ neighbors c key -> dict_get asg nb = Some wn ->
           exists ox oy, dict_get (overlaps c) (key, nb) = Some (Some (ox, oy)) /\
                         agree ox oy w wn) ->
    (forall k1 k2 w1 w2, k1 ∈ keys -> k2 ∈ keys -> k1 <> k2 ->
       dict_get asg k1 = Some w1 -> dict_get asg k2 = Some w2 -> w1 <> w2) ->
    consistent_loop c asg keys seen = Ok true.
Proof.
  induction keys as [|key keys IH]; intros seen Hnd Hkeys Hdiff; [done|].
  apply NoDup_cons in Hnd as [Hkey Hnd].
  destruct (Hkeys key) as (w & Hw & Hlen & Hseen & Hnb); [left|].
  cbn [consistent_loop]. unfold dict_getitem at 1. rewrite Hw. cbn [bind].
  rewrite decide_False by (by intros ?).
  rewrite decide_False by done.
  rewrite (neighbors_agree_complete c asg key w).
  - cbn [bind]. apply IH; [done| |].
    + intros key' Hkey'.
      destruct (Hkeys key') as (w' & Hw' & Hlen' & Hseen' & Hnb'); [by right|].
      exists w'. split; [done|]. split; [done|]. split; [|done].
      unfold set_add. rewrite not_elem_of_union, not_elem_of_singleton.
      split; [done|].
      apply (Hdiff key' key w' w); [by right | left | | done | done].
      intros ->. done.
    + intros k1 k2 w1 w2 H1 H2. apply Hdiff; by right.
  - intros nb wn Hin. apply Hnb. by apply elem_of_elements.
Qed.

(** X10: [consistent] returns [True] exactly for the assignments without a
    conflict: every word has the length of its slot, distinct slots have
    distinct words, and the words of two assigned neighbouring slots have
    the same character at their overlap.  In particular it does not raise
    on such an assignment. *)
Theorem consistent_iff (c : Crossword) (asg : assignment) :
  NoDup (dict_keys asg) ->
  consistent c asg = Ok true <->
  (forall v w, dict_get asg v = Some w -> String.length w = Var.length v) /\
  (forall v1 v2 w1 w2, v1 <> v2 ->
     dict_get asg v1 = Some w1 -> dict_get asg v2 = Some w2 -> w1 <> w2) /\
  (forall x y wx wy, y ∈ neighbors c x ->
     dict_get asg x = Some wx -> dict_get asg y = Some wy ->
     exists ox oy, dict_get (overlaps c) (x, y) = Some (Some (ox, oy)) /\
                   agree ox oy wx wy).
Proof.
  intros Hnd. split; [apply consistent_sound|].
  intros (Hlen & Hdiff & Hag). unfold consistent.
  apply consistent_loop_complete; [done| |].
  - intros key [w Hw]%dict_get_is_Some. exists w.
    split; [done|]. split; [by apply Hlen|]. split; [apply not_elem_of_empty|].
    intros nb wn Hnb Hwn. by apply (Hag key nb w wn).
  - intros k1 k2 w1 w2 _ _. apply Hdiff.
Qed.

Lemma consistent_iff_witness :
  let c := Examples.tee ∅ in
  let asg : assignment :=
    [(Examples.X3, "ADA"); (Examples.Z2, "AA"); (Examples.Y2, "AD")]%string in
  consistent c asg = Ok true /\
  forall v w, dict_get asg v = Some w -> String.length w = Var.length v.
Proof.
  intros c asg.
  assert (NoDup (dict_keys asg)) as H1
    by (apply (bool_decide_unpack _); vm_compute; exact I).
  assert (consistent c asg = Ok true) as H2 by by_vm.
  split; [exact H2|].
  exact (proj1 (proj1 (consistent_iff c asg H1) H2)).
Defined.

(** ** Ties in [select_unassigned_variable] *)

(** The sort is stable: what comes out first is the first element of the
    input with the least key. *)
Lemma sorted_head_first {A} (key : A -> nat) (l l' : list A) (x : A) :
  sorted key l = x :: l' ->
  exists pre post, l = pre ++ x :: post /\
    (forall y, y ∈ pre -> key x < key y) /\
    (forall y, y ∈ post -> key x <= key y).
Proof.
  revert x l'. induction l as [|a l IH]; intros x l' E; [done|].
  cbn [sorted foldr] in E. fold (sorted key l) in E.
  destruct (sorted key l) as [|y t] eqn:Es.
  - injection E as <- <-.
    pose proof (sorted_perm key l) as Hp. rewrite Es in Hp.
    apply Permutation_nil_l in Hp. subst l.
    exists [], []. split; [done|]. split; by intros y ?%elem_of_nil.
  - cbn [insert_sorted] in E.
    destruct (Nat.leb_spec (key a) (key y)) as [Hle|Hlt].
    + injection E as <- <-. exists [], l. split; [done|].
      split; [by intros z ?%elem_of_nil|].
      intros z Hz. apply sorted_head in Es as [_ Hmin].
      specialize (Hmin z Hz). lia.
    + injection E as <- <-.
      destruct (IH y t eq_refl) as (pre & post & -> & Hpre & Hpost).
      exists (a :: pre), post. split; [done|]. split; [|done].
      intros z [->|Hz]%elem_of_cons; [lia | by apply Hpre].
Qed.

Lemma dict_set_notin {K V} `{EqDecision K} (d : dict K V) (k : K) (v : V) :
  k ∉ dict_keys d -> dict_set d k v = d ++ [(k, v)].
Proof.
  induction d as [|[k0 v0] d IH]; intros Hk; [done|].
  simpl in *. apply not_elem_of_cons in Hk as [Hne Hk].
  rewrite decide_False by done. by rewrite IH.
Qed.

Lemma omap_split {A B} (f : A -> option B) (l : list A) (p1 p2 : list B)
    (b : B) :
  omap f l = p1 ++ b :: p2 ->
  exists l1 a l2, l = l1 ++ a :: l2 /\ f a = Some b /\
                  omap f l1 = p1 /\ omap f l2 = p2.
Proof.
  revert p1. induction l as [|a l IH]; intros p1 E.
  { by destruct p1. }
  cbn [omap list_omap] in E. destruct (f a) as [b0|] eqn:Ea.
  - destruct p1 as [|b1 p1]; simpl in E.
    + injection E as -> <-. exists [], a, l. done.
    + injection E as -> E.
      destruct (IH p1 E) as (l1 & a' & l2 & -> & Ha' & <- & <-).
      exists (a :: l1), a', l2. split; [done|]. split; [done|].
      split; [|done]. cbn [omap list_omap]. by rewrite Ea.
  - destruct (IH p1 E) as (l1 & a' & l2 & -> & Ha' & <- & <-).
    exists (a :: l1), a', l2. split; [done|]. split; [done|].
    split; [|done]. cbn [omap list_omap]. by rewrite Ea.
Qed.

(** X11: ties on the domain size go to the slot that comes first in the
    iteration order of the variables: every unassigned slot visited before
    the selected one has a strictly larger domain.  The degree plays no
    part. *)
Theorem select_unassigned_variable_first (c : Crossword) (ds : domains)
    (asg : assignment) (var : Var.t) :
  select_unassigned_variable c ds asg = Ok var ->
  exists pre post s,
    elements (variables c) = pre ++ var :: post /\
    dict_get ds var = Some s /\
    forall v s', v ∈ pre -> v ∉ dict_keys asg ->
      dict_get ds v = Some s' -> size s < size s'.
Proof.
  intros H.
  destruct (select_unassigned_variable_min c ds asg var H)
    as (_ & Hna & s & Hs & _).
  unfold select_unassigned_variable in H.
  apply bind_Ok in H as (vars & Hvars & H).
  set (f := fun v : Var.t =>
              if dict_contains asg v then None
              else Some (v, from_option size 0 (dict_get ds v))).
  apply (foldM_inv_Ok (fun pre (vars : dict Var.t nat) => vars = omap f pre))
    in Hvars.
  - destruct (sorted snd vars) as [|[v n] l] eqn:Es; [done|].
    injection H as ->.
    apply sorted_head_first in Es as (p1 & p2 & Ep & Hp1 & _).
    rewrite Hvars in Ep.
    apply omap_split in Ep as (l1 & a & l2 & El & Ha & Hl1 & _).
    unfold f in Ha. destruct (dict_contains asg a); [done|].
    injection Ha as -> <-. rewrite Hs in Hp1. simpl in Hp1.
    exists l1, l2, s. split; [done|]. split; [done|].
    intros v s' Hv Hnv Hs'.
    change (size s < (v, size s').2). apply Hp1. rewrite <- Hl1.
    apply list_elem_of_omap. exists v. split; [done|].
    unfold f. apply dict_contains_false in Hnv. by rewrite Hnv, Hs'.
  - done.
  - intros pre v post cur cur' El -> Hstep.
    assert (v ∉ pre) as Hpre.
    { pose proof (NoDup_elements (variables c)) as Hnd. rewrite El in Hnd.
      apply NoDup_app in Hnd as (_ & Hpre & _).
      intros Hin. apply (Hpre v Hin). left. }
    rewrite omap_app. cbn [omap list_omap]. unfold f at 2.
    destruct (dict_contains asg v).
    + injection Hstep as <-. by rewrite app_nil_r.
    + unfold dict_getitem in Hstep.
      destruct (dict_get ds v) as [dv|]; cbn [bind] in Hstep; [|done].
      injection Hstep as <-. simpl. apply dict_set_notin.
      intros ([k n] & -> & Hin)%list_elem_of_fmap.
      apply list_elem_of_omap in Hin as (v' & Hv' & Hf).
      unfold f in Hf. destruct (dict_contains asg v'); [done|].
      injection Hf as -> _. done.
Qed.

Lemma select_unassigned_variable_first_witness :
  let c := Examples.tee {["ADA"; "CBC"; "AA"; "CC"]}%string in
  let ds : domains :=
    [(Examples.Z2, {["AA"; "CC"]}%string); (Examples.Y2, {["AA"; "CC"]}%string);
     (Examples.X3, {["ADA"; "CBC"]}%string)] in
  select_unassigned_variable c ds [] = Ok Examples.Z2 /\
  exists pre post s,
    elements (variables c) = pre ++ Examples.Z2 :: post /\
    dict_get ds Examples.Z2 = Some s /\
    forall v s', v ∈ pre -> v ∉ dict_keys ([] : assignment) ->
      dict_get ds v = Some s' -> size s < size s'.
Proof.
  intros c ds.
  assert (select_unassigned_variable c ds [] = Ok Examples.Z2) as H1 by by_vm.
  split; [exact H1|].
  exact (select_unassigned_variable_first c ds [] Examples.Z2 H1).
Defined.

(** ** More on the ordering of values and on [ac3] *)

(** X17: [order_domain_values] returns every word of the domain of [var]
    exactly once (none is filtered out or repeated), in ascending order of
    [rulesOut], the number of neighbours whose domain contains the word. *)
Theorem order_domain_values_permutation (c : Crossword) (ds : domains)
    (var : Var.t) (l : list string) :
  order_domain_values c ds var = Ok l ->
  exists dv : gset string,
    dict_get ds var = Some dv /\ l ≡ₚ elements dv /\
    forall i j wi wj ni nj, i <= j ->
      l !! i = Some wi -> l !! j = Some wj ->
      rules_out c ds var wi = Ok ni -> rules_out c ds var wj = Ok nj ->
      ni <= nj.
Proof.
  intros H.
  apply order_domain_values_sorted in H
    as (dv & order & Hdv & -> & Hperm & Hsorted & Hr).
  exists dv. split; [done|]. split; [done|].
  intros i j wi wj ni nj Hij Hi Hj Hni Hnj.
  apply list_lookup_fmap_Some in Hi as ([wi' mi] & -> & Hi).
  apply list_lookup_fmap_Some in Hj as ([wj' mj] & -> & Hj).
  cbn [fst] in *.
  assert (mi = ni) as <-.
  { pose proof (Hr wi' mi (list_elem_of_lookup_2 _ _ _ Hi)). congruence. }
  assert (mj = nj) as <-.
  { pose proof (Hr wj' mj (list_elem_of_lookup_2 _ _ _ Hj)). congruence. }
  destruct (decide (i = j)) as [->|Hne].
  - rewrite Hi in Hj. by injection Hj as _ <-.
  - assert (i < j) as Hlt by lia. clear Hij Hne Hni Hnj Hr Hperm.
    revert i j Hi Hj Hlt.
    induction Hsorted as [|x order Hs IH Hall]; intros i j Hi Hj Hlt; [done|].
    destruct j as [|j]; [lia|]. cbn in Hj. destruct i as [|i].
    + cbn in Hi. injection Hi as ->. rewrite Forall_forall in Hall.
      exact (Hall _ (list_elem_of_lookup_2 _ _ _ Hj)).
    + cbn in Hi. apply (IH i j); [done..|lia].
Qed.

Lemma order_domain_values_permutation_witness :
  let c := Examples.tee {["ADA"; "CBC"; "AA"; "CC"; "AD"]}%string in
  let ds : domains :=
    [(Examples.Z2, {["AA"; "CC"; "AD"]}%string);
     (Examples.Y2, {["AA"; "CC"; "AD"]}%string);
     (Examples.X3, {["ADA"; "CBC"; "AD"]}%string)] in
  let l := ["CBC"; "ADA"; "AD"]%string in
  order_domain_values c ds Examples.X3 = Ok l /\
  exists dv : gset string,
    dict_get ds Examples.X3 = Some dv /\ l ≡ₚ elements dv /\
    forall i j wi wj ni nj, i <= j ->
      l !! i = Some wi -> l !! j = Some wj ->
      rules_out c ds Examples.X3 wi = Ok ni ->
      rules_out c ds Examples.X3 wj = Ok nj ->
      ni <= nj.
Proof.
  intros c ds l.
  assert (order_domain_values c ds Examples.X3 = Ok l) as H1 by by_vm.
  split; [exact H1|].
  exact (order_domain_values_permutation c ds Examples.X3 l H1).
Defined.

(** X20: [ac3] never adds a word or a slot to the domains, and it answers
    [False] only when the domains it leaves have an empty domain. *)
Theorem ac3_only_removes (c : Crossword) (arcs : option queue)
    (ds ds' : domains) (ok : bool) :
  ac3 c arcs ds = Ok (ok, ds') ->
  shrunk ds' ds /\ (ok = false -> exists x, dict_get ds' x = Some ∅).
Proof. apply ac3_inv. Qed.

Lemma ac3_only_removes_witness :
  let c := Examples.tee {["ADA"; "CBC"; "AA"; "CC"; "AD"]}%string in
  let ds : domains :=
    [(Examples.Z2, {["AA"; "CC"; "AD"]}%string);
     (Examples.Y2, {["AA"; "CC"; "AD"]}%string);
     (Examples.X3, {["ADA"; "CBC"; "AD"]}%string)] in
  let ds' : domains :=
    [(Examples.Z2, {["AA"; "CC"; "AD"]}%string);
     (Examples.Y2, {["AA"; "CC"; "AD"]}%string);
     (Examples.X3, {["ADA"; "CBC"]}%string)] in
  ac3 c None ds = Ok (true, ds') /\
  shrunk ds' ds /\ (true = false -> exists x, dict_get ds' x = Some ∅).
Proof.
  intros c ds ds'.
  assert (ac3 c None ds = Ok (true, ds')) as H1 by by_vm.
  split; [exact H1|]. exact (ac3_only_removes c None ds ds' true H1).
Defined.

(** Witness of X18. *)
Lemma ac3_success_nonempty_witness :
  let c := Examples.tee {["ADA"; "CBC"; "AA"; "CC"; "AD"]}%string in
  let ds : domains :=
    [(Examples.Z2, {["AA"; "CC"; "AD"]}%string);
     (Examples.Y2, {["AA"; "CC"; "AD"]}%string);
     (Examples.X3, {["ADA"; "CBC"; "AD"]}%string)] in
  let ds' : domains :=
    [(Examples.Z2, {["AA"; "CC"; "AD"]}%string);
     (Examples.Y2, {["AA"; "CC"; "AD"]}%string);
     (Examples.X3, {["ADA"; "CBC"]}%string)] in
  ac3 c None ds = Ok (true, ds') /\
  forall k s, dict_get ds' k = Some s -> s <> ∅.
Proof.
  intros c ds ds'.
  assert (forall k s, dict_get ds k = Some s -> s <> ∅) as H1.
  { intros k s Hk. apply dict_get_elem in Hk. subst ds.
    repeat (apply elem_of_cons in Hk as [Hk|Hk];
            [injection Hk as -> ->;
             apply (bool_decide_unpack _); vm_compute; exact I|]).
    by apply elem_of_nil in Hk. }
  assert (ac3 c None ds = Ok (true, ds')) as H2 by by_vm.
  split; [exact H2|].
  exact (ac3_success_nonempty c None ds ds' H1 H2).
Defined.

(** ** What the search does to the domains and where its words come from *)

Lemma shrunk_is_Some (ds' ds : domains) (v : Var.t) :
  shrunk ds' ds -> v ∈ dict_keys ds -> is_Some (dict_get ds' v).
Proof. intros [Hk _] Hv. apply dict_get_is_Some. by rewrite Hk. Qed.

Lemma shrunk_set_sub (ds ds0 : domains) (x : Var.t) (s0 s' : gset string) :
  shrunk ds ds0 -> dict_get ds0 x = Some s0 -> s' ⊆ s0 ->
  shrunk (dict_set ds x s') ds0.
Proof.
  intros [Hk Hsub] H0 Hs'. split.
  - rewrite dict_keys_set_in; [done|].
    rewrite Hk. apply dict_get_is_Some. by rewrite H0.
  - intros k t. rewrite dict_get_set. case_decide; subst.
    + intros [= <-]. eauto.
    + apply Hsub.
Qed.

Lemma restore_domain_shrunk (var : Var.t) (iv : list string)
    (ds ds' ds0 : domains) (s0 : gset string) :
  dict_get ds0 var = Some s0 -> (forall w, w ∈ iv -> w ∈ s0) ->
  shrunk ds ds0 -> restore_domain var iv ds = Ok ds' -> shrunk ds' ds0.
Proof.
  intros H0 Hiv Hsh H.
  destruct (shrunk_is_Some ds ds0 var Hsh) as [dv Hdv].
  { apply dict_get_is_Some. by rewrite H0. }
  rewrite (restore_domain_Ok var iv ds dv Hdv) in H. injection H as <-.
  apply (shrunk_set_sub ds ds0 var s0); [done..|].
  destruct Hsh as [_ Hsub]. destruct (Hsub var dv Hdv) as (s & Hs & Hdvs).
  assert (s = s0) as -> by congruence.
  intros w [?|Hw%elem_of_list_to_set]%elem_of_union; auto.
Qed.

Lemma try_value_inv (c : Crossword)
    (rec : assignment -> domains -> result search) (P : assignment -> Prop)
    (ds0 : domains) (var : Var.t) (asg : assignment) (value : string)
    (ds : domains) (res : option assignment) (ds' : domains) (n : nat) :
  (forall ds1 res1 ds1' n1, shrunk ds1 ds0 ->
     rec (dict_set asg var value) ds1 = Ok (res1, ds1', n1) ->
     shrunk ds1' ds0 /\ forall r, res1 = Some r -> P r) ->
  shrunk ds ds0 ->
  try_value c rec var asg value ds = Ok (res, ds', n) ->
  shrunk ds' ds0 /\ forall r, res = Some r -> P r.
Proof.
  intros Hrec Hsh H. unfold try_value in H.
  destruct (dict_get ds var) as [dv|] eqn:Hdv.
  2: { unfold restrict_domain, dict_getitem in H. by rewrite Hdv in H. }
  rewrite (restrict_domain_Ok var value ds dv Hdv) in H. cbn [bind] in H.
  destruct (proj2 Hsh var dv Hdv) as (s0 & H0 & Hdv0).
  assert (forall w, w ∈ filter (fun w => w <> value) (elements dv) -> w ∈ s0)
    as Hiv.
  { intros w [_ Hw%elem_of_elements]%list_elem_of_filter. auto. }
  assert (shrunk (dict_set ds var (dv ∩ {[value]})) ds0) as Hsh1.
  { apply (shrunk_set_sub ds ds0 var s0); [done..|].
    intros w [? _]%elem_of_intersection. auto. }
  destruct (ac3 c None _) as [[ok ds2]| |] eqn:Ea; cbn [bind] in H; [|done..].
  assert (shrunk ds2 ds0) as Hsh2.
  { apply ac3_inv in Ea as [Hs _]. by apply (shrunk_trans _ _ _ Hs). }
  assert (forall ds3 ds4,
            shrunk ds3 ds0 ->
            restore_domain var
              (filter (fun w => w <> value) (elements dv)) ds3 = Ok ds4 ->
            shrunk ds4 ds0) as Hrestore.
  { intros ds3 ds4 Hsh3. by apply (restore_domain_shrunk var _ ds3 ds4 ds0 s0). }
  destruct ok; cbn [bind] in H.
  - destruct (consistent c (dict_set asg var value)) as [[]| |];
      cbn [bind] in H; [| |done..].
    + destruct (rec (dict_set asg var value) ds2) as [[[res3 ds3] n3]| |] eqn:Er;
        cbn [bind] in H; [|done..].
      destruct (Hrec ds2 res3 ds3 n3 Hsh2 Er) as [Hsh3 HP].
      destruct res3 as [r3|].
      * injection H as <- <- <-. split; [done|]. intros r [= <-]. by apply HP.
      * destruct (restore_domain var _ ds3) as [ds4| |] eqn:E4;
          cbn [bind] in H; [|done..].
        injection H as <- <- <-. split; [by apply (Hrestore ds3)|done].
    + destruct (restore_domain var _ ds2) as [ds4| |] eqn:E4;
        cbn [bind] in H; [|done..].
      injection H as <- <- <-. split; [by apply (Hrestore ds2)|done].
  - destruct (restore_domain var _ ds2) as [ds4| |] eqn:E4;
      cbn [bind] in H; [|done..].
    injection H as <- <- <-. split; [by apply (Hrestore ds2)|done].
Qed.

Lemma try_values_inv (c : Crossword)
    (rec : assignment -> domains -> result search) (P : assignment -> Prop)
    (ds0 : domains) (var : Var.t) (asg : assignment) :
  forall values ds res ds' n,
    (forall value ds1 res1 ds1' n1, value ∈ values -> shrunk ds1 ds0 ->
       rec (dict_set asg var value) ds1 = Ok (res1, ds1', n1) ->
       shrunk ds1' ds0 /\ forall r, res1 = Some r -> P r) ->
    shrunk ds ds0 ->
    try_values c rec var asg values ds = Ok (res, ds', n) ->
    shrunk ds' ds0 /\ forall r, res = Some r -> P r.
Proof.
  induction values as [|value values IH]; intros ds res ds' n Hrec Hsh H;
    cbn [try_values] in H.
  { injection H as <- <- <-. done. }
  destruct (try_value c rec var asg value ds) as [[[res1 ds1] n1]| |] eqn:Et;
    cbn [bind] in H; [|done..].
  apply (try_value_inv c rec P ds0) in Et as [Hsh1 HP]; [| |done].
  2: { intros ds2 res2 ds2' n2. apply Hrec. left. }
  destruct res1 as [r1|].
  - injection H as <- <- <-. done.
  - destruct (try_values c rec var asg values ds1) as [[[res2 ds2] n2]| |] eqn:E2;
      cbn [bind] in H; [|done..].
    injection H as <- <- <-.
    apply (IH ds1 res2 ds2 n2); [|done..].
    intros value' ds3 res3 ds3' n3 Hin. apply Hrec. by right.
Qed.

Lemma drawn_from_set (a : assignment) (ds0 : domains) (asg : assignment)
    (var : Var.t) (value : string) (s0 : gset string) :
  drawn_from a ds0 asg -> dict_get ds0 var = Some s0 -> value ∈ s0 ->
  drawn_from a ds0 (dict_set asg var value).
Proof.
  intros Hd H0 Hv v w. rewrite dict_get_set. case_decide; subst.
  - intros [= <-]. right. eauto.
  - apply Hd.
Qed.

Lemma backtrack_inv (c : Crossword) (a : assignment) (ds0 : domains)
    (fuel : nat) :
  forall asg ds res ds' n,
    drawn_from a ds0 asg -> shrunk ds ds0 ->
    backtrack c fuel asg ds = Ok (res, ds', n) ->
    shrunk ds' ds0 /\ forall r, res = Some r -> drawn_from a ds0 r.
Proof.
  induction fuel as [|fuel IH]; intros asg ds res ds' n Hd Hsh H;
    cbn [backtrack] in H; [done|].
  destruct (assignment_complete c asg).
  { injection H as <- <- <-. split; [done|]. by intros r [= <-]. }
  destruct (select_unassigned_variable c ds asg) as [var| |];
    cbn [bind] in H; [|done..].
  destruct (order_domain_values c ds var) as [values| |] eqn:Eo;
    cbn [bind] in H; [|done..].
  destruct (try_values c (backtrack c fuel) var asg values ds)
    as [[[res1 ds1] n1]| |] eqn:Et; cbn [bind] in H; [|done..].
  injection H as <- <- <-.
  apply order_domain_values_sorted in Eo as (dv & order & Hdv & _ & Hperm & _).
  destruct (proj2 Hsh var dv Hdv) as (s0 & H0 & Hdv0).
  apply (try_values_inv c (backtrack c fuel) (drawn_from a ds0) ds0)
    in Et; [done| |done].
  intros value ds2 res2 ds2' n2 Hin Hsh2. apply IH; [|done].
  apply (drawn_from_set a ds0 asg var value s0); [done..|].
  apply Hdv0, elem_of_elements. by rewrite <- Hperm.
Qed.

(** X12: a call of [backtrack] only takes words out of the domains, and
    every word of the assignment it returns was in the assignment it was
    given or comes from the domain its slot had when the call began. *)
Theorem backtrack_draws_from_domains (c : Crossword) (fuel : nat)
    (asg : assignment) (ds : domains) (res : option assignment)
    (ds' : domains) (n : nat) :
  backtrack c fuel asg ds = Ok (res, ds', n) ->
  shrunk ds' ds /\ forall r, res = Some r -> drawn_from asg ds r.
Proof.
  apply backtrack_inv; [|apply shrunk_refl].
  intros v w Hv. by left.
Qed.

(** X13: every word of an assignment that [solve] returns is a word of
    the dictionary, placed in a slot of the crossword. *)
Theorem solve_uses_dictionary (c : Crossword) (asg : assignment) :
  solve c = Ok (Some asg) ->
  forall v w, dict_get asg v = Some w -> v ∈ variables c /\ w ∈ words c.
Proof.
  unfold solve, solve_counted. intros H v w Hv.
  destruct (enforce_node_consistency_filter (init c)) as (ds1 & E1 & Hk & Hf).
  rewrite E1 in H. cbn [bind] in H.
  destruct (ac3 c None ds1) as [[ok ds2]| |] eqn:Ea; cbn [bind] in H; [|done..].
  destruct (backtrack c (backtrack_fuel c) [] ds2) as [[[res ds3] n]| |] eqn:Eb;
    cbn [bind] in H; [|done..].
  injection H as ->.
  apply ac3_inv in Ea as [Hsh _].
  apply (backtrack_inv c [] ds1) in Eb as [_ Hd]; [|by intros ? ? ?|done].
  destruct (Hd asg eq_refl v w Hv) as [?|(s & Hs & Hw)]; [done|].
  assert (v ∈ variables c) as Hvar.
  { apply elem_of_elements. rewrite <- dict_keys_init, <- Hk.
    apply dict_get_is_Some. by rewrite Hs. }
  split; [done|].
  rewrite (Hf v (words c)) in Hs by by apply dict_get_init.
  injection Hs as <-. by apply elem_of_filter in Hw as [_ ?].
Qed.

Lemma solve_uses_dictionary_witness :
  let c := Examples.tee {["ADA"; "AA"; "AD"]}%string in
  let asg : assignment :=
    [(Examples.X3, "ADA"); (Examples.Z2, "AA"); (Examples.Y2, "AD")]%string in
  solve c = Ok (Some asg) /\
  forall v w, dict_get asg v = Some w -> v ∈ variables c /\ w ∈ words c.
Proof.
  intros c asg.
  assert (solve c = Ok (Some asg)) as H1 by by_vm.
  split; [exact H1|]. exact (solve_uses_dictionary c asg H1).
Defined.

(** ** [solve] does not raise on a well-formed crossword *)

Lemma neighbors_agree_returns (c : Crossword) (asg : assignment)
    (key : Var.t) (w : string) (ns : list Var.t) :
  wf_crossword c -> fits asg -> String.length w = Var.length key ->
  (forall nb, nb ∈ ns -> nb ∈ neighbors c key) ->
  exists b, neighbors_agree c asg key w ns = Ok b.
Proof.
  intros Hwf Hfits Hlen. induction ns as [|nb ns IH]; intros Hns; [by eexists|].
  cbn [neighbors_agree].
  destruct IH as [b Hb]; [intros nb' ?; apply Hns; by right|].
  destruct (dict_contains asg nb) eqn:Hc; [|eauto].
  apply dict_contains_true, dict_get_is_Some in Hc as [wn Hwn].
  assert (nb ∈ neighbors c key) as Hnb by (apply Hns; left).
  apply wf_neighbors in Hnb as (ox & oy & Ho); [|done].
  destruct (wf_overlap c key nb ox oy Hwf Ho) as (_ & _ & _ & _ & Hox & Hoy).
  unfold dict_getitem. rewrite Ho, Hwn. cbn [bind].
  destruct (proj2 (string_get_is_Some w ox)) as [a Ha]; [lia|].
  destruct (proj2 (string_get_is_Some wn oy)) as [b' Hb'].
  { rewrite (Hfits nb wn Hwn). lia. }
  apply str_index_Ok in Ha, Hb'. rewrite Ha. cbn [bind]. rewrite Hb'.
  cbn [bind]. case_decide; eauto.
Qed.

Lemma consistent_returns (c : Crossword) (asg : assignment) :
  wf_crossword c -> fits asg -> exists b, consistent c asg = Ok b.
Proof.
  intros Hwf Hfits. unfold consistent. generalize (∅ : gset string).
  assert (forall k, k ∈ dict_keys asg -> k ∈ dict_keys asg) as Hkeys by done.
  revert Hkeys. generalize (dict_keys asg) at 1 3.
  induction l as [|key keys IH]; intros Hkeys seen; [by eexists|].
  cbn [consistent_loop].
  assert (key ∈ dict_keys asg) as [w Hw]%dict_get_is_Some by (apply Hkeys; left).
  unfold dict_getitem at 1. rewrite Hw. cbn [bind].
  case_decide as Hlen; [by eexists|]. case_decide; [by eexists|].
  destruct (neighbors_agree_returns c asg key w (elements (neighbors c key)))
    as [b Hb]; [done..| |].
  { intros nb. apply elem_of_elements. }
  rewrite Hb. cbn [bind]. destruct b; [|by eexists].
  apply IH. intros k Hk. apply Hkeys. by right.
Qed.

Lemma order_domain_values_Ok (c : Crossword) (ds : domains) (var : Var.t) :
  (forall v, v ∈ variables c -> v ∈ dict_keys ds) -> var ∈ variables c ->
  exists l, order_domain_values c ds var = Ok l.
Proof.
  intros Hdom Hvar. unfold order_domain_values.
  apply Hdom, dict_get_is_Some in Hvar as [dv Hdv].
  unfold dict_getitem at 1. rewrite Hdv. cbn [bind].
  destruct (foldM_inv (fun _ (_ : dict string nat) => True)
    (fun (order : dict string nat) value =>
       do rulesOut <- rules_out c ds var value;
       Ok (dict_set order value rulesOut))
    (elements dv) []) as (order & -> & _); [done| |by eexists].
  intros pre value post order _ _.
  destruct (foldM_inv (fun _ (_ : nat) => True)
    (fun rulesOut neighbor =>
       do dn <- dict_getitem ds neighbor;
       Ok (if decide (value ∈ dn) then S rulesOut else rulesOut))
    (elements (neighbors c var)) 0) as (m & Hm & _); [done| |].
  - intros pre' nb post' m El _.
    assert (nb ∈ variables c) as Hnb.
    { assert (nb ∈ neighbors c var) as Hin.
      { apply elem_of_elements. rewrite El, elem_of_app. right; left. }
      unfold neighbors in Hin. by apply elem_of_filter in Hin as [_ ?]. }
    apply Hdom, dict_get_is_Some in Hnb as [dn Hdn].
    unfold dict_getitem. rewrite Hdn. by eexists.
  - unfold rules_out. rewrite Hm. by eexists.
Qed.

Lemma try_value_total (c : Crossword)
    (rec : assignment -> domains -> result search)
    (ds0 : domains) (var : Var.t) (asg : assignment) (value : string)
    (ds : domains) :
  wf_crossword c -> (forall v, v ∈ variables c -> v ∈ dict_keys ds0) ->
  fits (dict_set asg var value) ->
  (forall ds1, shrunk ds1 ds0 ->
     exists res1 ds1' n1, rec (dict_set asg var value) ds1 = Ok (res1, ds1', n1) /\
                          shrunk ds1' ds0) ->
  var ∈ variables c -> shrunk ds ds0 ->
  exists out, try_value c rec var asg value ds = Ok out.
Proof.
  intros Hwf Hdom Hfits Hrec Hvar Hsh. unfold try_value.
  destruct (shrunk_is_Some ds ds0 var Hsh (Hdom var Hvar)) as [dv Hdv].
  rewrite (restrict_domain_Ok var value ds dv Hdv). cbn [bind].
  assert (shrunk (dict_set ds var (dv ∩ {[value]})) ds0) as Hsh1.
  { apply (shrunk_trans _ ds); [|done].
    apply (shrunk_set ds var dv); [done|].
    by intros w [? _]%elem_of_intersection. }
  destruct (wf_ac3_returns c (dict_set ds var (dv ∩ {[value]})) Hwf)
    as (ok & ds2 & Ea).
  { intros v Hv. rewrite (proj1 Hsh1). by apply Hdom. }
  rewrite Ea. cbn [bind].
  assert (shrunk ds2 ds0) as Hsh2.
  { apply ac3_inv in Ea as [Hs _]. by apply (shrunk_trans _ _ _ Hs). }
  assert (forall ds3 iv, shrunk ds3 ds0 ->
            exists ds4, restore_domain var iv ds3 = Ok ds4) as Hrestore.
  { intros ds3 iv Hsh3.
    destruct (shrunk_is_Some ds3 ds0 var Hsh3 (Hdom var Hvar)) as [dv3 Hdv3].
    rewrite (restore_domain_Ok var iv ds3 dv3 Hdv3). by eexists. }
  destruct ok; cbn [bind].
  - destruct (consistent_returns c (dict_set asg var value) Hwf Hfits)
      as [good ->].
    cbn [bind]. destruct good.
    + destruct (Hrec ds2 Hsh2) as (res3 & ds3 & n3 & -> & Hsh3). cbn [bind].
      destruct res3 as [r3|]; [by eexists|].
      destruct (Hrestore ds3 (filter (fun w => w <> value) (elements dv)) Hsh3)
        as [ds4 ->].
      by eexists.
    + cbn [bind].
      destruct (Hrestore ds2 (filter (fun w => w <> value) (elements dv)) Hsh2)
        as [ds4 ->].
      by eexists.
  - destruct (Hrestore ds2 (filter (fun w => w <> value) (elements dv)) Hsh2)
      as [ds4 ->].
    by eexists.
Qed.

Lemma try_values_total (c : Crossword)
    (rec : assignment -> domains -> result search)
    (ds0 : domains) (var : Var.t) (asg : assignment) :
  wf_crossword c -> (forall v, v ∈ variables c -> v ∈ dict_keys ds0) ->
  var ∈ variables c ->
  forall values ds,
    (forall value, value ∈ values -> fits (dict_set asg var value)) ->
    (forall value ds1, value ∈ values -> shrunk ds1 ds0 ->
       exists res1 ds1' n1,
         rec (dict_set asg var value) ds1 = Ok (res1, ds1', n1) /\
         shrunk ds1' ds0) ->
    shrunk ds ds0 ->
    exists out, try_values c rec var asg values ds = Ok out.
Proof.
  intros Hwf Hdom Hvar.
  induction values as [|value values IH]; intros ds Hfits Hrec Hsh;
    cbn [try_values]; [by eexists|].
  destruct (try_value_total c rec ds0 var asg value ds) as [[[res1 ds1] n1] Et];
    [done|done|apply Hfits; left| |done|done|].
  { intros ds1 Hsh1. apply Hrec; [left|done]. }
  rewrite Et. cbn [bind].
  apply (try_value_inv c rec (fun _ => True) ds0) in Et as [Hsh1 _]; [| |done].
  2: { intros ds2 res2 ds2' n2 Hsh2 Er.
       destruct (Hrec value ds2) as (res3 & ds3 & n3 & Er' & Hsh3);
         [left|done|].
       rewrite Er in Er'. injection Er' as <- <- <-. done. }
  destruct res1 as [r1|]; [by eexists|].
  destruct (IH ds1) as [[[res2 ds2] n2] ->]; [| |done|by eexists].
  - intros value' Hin. apply Hfits. by right.
  - intros value' ds2 Hin. apply Hrec. by right.
Qed.

Lemma backtrack_total (c : Crossword) (ds0 : domains) (fuel : nat) :
  wf_crossword c -> node_consistent ds0 ->
  (forall v, v ∈ variables c -> v ∈ dict_keys ds0) ->
  forall (asg : assignment) (ds : domains),
    NoDup (dict_keys asg) -> (forall v, v ∈ dict_keys asg -> v ∈ variables c) ->
    fits asg -> shrunk ds ds0 ->
    size (variables c) < fuel + length (dict_keys asg) ->
    exists res ds' n, backtrack c fuel asg ds = Ok (res, ds', n) /\
                      shrunk ds' ds0.
Proof.
  intros Hwf Hnode Hdom.
  induction fuel as [|fuel IH]; intros asg ds Hnd Hsub Hfits Hsh Hfuel.
  { exfalso. assert (length (dict_keys asg) <= size (variables c)); [|lia].
    change (size (variables c)) with (length (elements (variables c))).
    apply submseteq_length, NoDup_submseteq; [done|].
    intros v Hv. by apply elem_of_elements, Hsub. }
  cbn [backtrack]. destruct (assignment_complete c asg) eqn:Hc.
  { by eexists _, _, _. }
  assert (exists v, v ∈ variables c /\ v ∉ dict_keys asg) as (v & Hv & Hnv).
  { destruct (decide (Forall (fun v => v ∈ dict_keys asg)
                             (elements (variables c)))) as [Hall|Hex].
    - rewrite (all_assigned_complete c asg) in Hc; [done..|].
      intros v Hv. rewrite Forall_forall in Hall.
      by apply Hall, elem_of_elements.
    - apply not_Forall_Exists in Hex; [|apply _].
      apply Exists_exists in Hex as (v & Hv & Hnv).
      exists v. split; [by apply elem_of_elements | done]. }
  assert (forall v, v ∈ variables c -> v ∈ dict_keys ds) as Hdomds.
  { intros v' Hv'. rewrite (proj1 Hsh). by apply Hdom. }
  destruct (select_unassigned_variable_Ok c ds asg v Hdomds Hv Hnv)
    as [var Es].
  rewrite Es. cbn [bind].
  apply select_unassigned_variable_min in Es as (Hvar & Hnew & _).
  destruct (order_domain_values_Ok c ds var Hdomds Hvar) as [values Eo].
  rewrite Eo. cbn [bind].
  apply order_domain_values_sorted in Eo as (dv & order & Hdv & _ & Hperm & _).
  destruct (proj2 Hsh var dv Hdv) as (s0 & H0 & Hdv0).
  assert (forall value, value ∈ values -> fits (dict_set asg var value))
    as Hfits'.
  { intros value Hin v' w'. rewrite dict_get_set. case_decide; subst.
    - intros [= <-]. apply (Hnode v' s0 value H0).
      apply Hdv0, elem_of_elements. by rewrite <- Hperm.
    - apply Hfits. }
  destruct (try_values_total c (backtrack c fuel) ds0 var asg Hwf Hdom Hvar
              values ds) as [[[res1 ds1] n1] Et]; [done| |done|].
  { intros value ds1 Hin Hsh1. apply IH; [| |by apply Hfits'|done|].
    - rewrite dict_keys_set_notin by done.
      apply NoDup_app. split; [done|]. split; [|apply NoDup_singleton].
      intros v' Hv1 Hv2%list_elem_of_singleton. by subst.
    - rewrite dict_keys_set_notin by done.
      intros v' [?|Hv'%list_elem_of_singleton]%elem_of_app; [auto | by subst].
    - rewrite dict_keys_set_notin by done. rewrite length_app. simpl. lia. }
  rewrite Et. cbn [bind]. eexists _, _, _. split; [done|].
  apply (try_values_inv c (backtrack c fuel) (fun _ => True) ds0) in Et
    as [? _]; [done| |done].
  intros value ds2 res2 ds2' n2 Hin Hsh2 Er. split; [|done].
  apply (backtrack_inv c (dict_set asg var value) ds0) in Er as [? _];
    [done| |done].
  intros v' w' Hv'. by left.
Qed.

(** X14: on a well-formed crossword [solve] does not raise: it returns an
    assignment or [None].  No lookup of a domain, an overlap or a
    character fails, and [select_unassigned_variable] is never called with
    every slot assigned. *)
Theorem solve_returns (c : Crossword) :
  wf_crossword c -> exists r, solve c = Ok r.
Proof.
  intros Hwf. unfold solve, solve_counted.
  destruct (enforce_node_consistency_filter (init c)) as (ds1 & -> & Hk & Hf).
  cbn [bind].
  assert (forall v, v ∈ variables c -> v ∈ dict_keys ds1) as Hdom.
  { intros v Hv. rewrite Hk, dict_keys_init. by apply elem_of_elements. }
  assert (node_consistent ds1) as Hnode.
  { intros v s w Hs Hw.
    assert (v ∈ variables c) as Hv.
    { apply elem_of_elements. rewrite <- dict_keys_init, <- Hk.
      apply dict_get_is_Some. by rewrite Hs. }
    rewrite (Hf v (words c)) in Hs by by apply dict_get_init.
    injection Hs as <-. by apply elem_of_filter in Hw as [? _]. }
  destruct (wf_ac3_returns c ds1 Hwf Hdom) as (ok & ds2 & Ea).
  rewrite Ea. cbn [bind]. apply ac3_inv in Ea as [Hsh _].
  destruct (backtrack_total c ds1 (backtrack_fuel c) Hwf Hnode Hdom [] ds2)
    as (res & ds3 & n & -> & _).
  - constructor.
  - by intros v ?%elem_of_nil.
  - by intros v w ?.
  - done.
  - unfold backtrack_fuel. simpl. lia.
  - by eexists.
Qed.

Lemma solve_returns_witness :
  exists r, solve (Examples.tee {["ADA"; "CBC"; "AA"; "CC"; "AD"]}%string) = Ok r.
Proof.
  apply solve_returns.
  apply (bool_decide_unpack _). vm_compute. exact I.
Defined.

Lemma backtrack_draws_from_domains_witness :
  let c := Examples.tee {["ADA"; "AA"; "AD"]}%string in
  let ds : domains :=
    [(Examples.Z2, {["AA"; "AD"]}%string);
     (Examples.Y2, {["AA"; "AD"]}%string);
     (Examples.X3, {["ADA"]}%string)] in
  let ds' : domains :=
    [(Examples.Z2, {["AA"]}%string);
     (Examples.Y2, {["AD"]}%string);
     (Examples.X3, {["ADA"]}%string)] in
  let r : assignment :=
    [(Examples.X3, "ADA"); (Examples.Z2, "AA"); (Examples.Y2, "AD")]%string in
  backtrack c 4 [] ds = Ok (Some r, ds', 4) /\
  shrunk ds' ds /\ forall r', Some r = Some r' -> drawn_from [] ds r'.
Proof.
  intros c ds ds' r.
  assert (backtrack c 4 [] ds = Ok (Some r, ds', 4)) as H1 by by_vm.
  split; [exact H1|].
  exact (backtrack_draws_from_domains c 4 [] ds (Some r) ds' 4 H1).
Defined.

(** ** [letter_grid] *)

Lemma foldM_app {A S} (body : S -> A -> result S) (l1 l2 : list A) (s : S) :
  foldM body (l1 ++ l2) s = do s' <- foldM body l1 s; foldM body l2 s'.
Proof.
  revert s. induction l1 as [|a l1 IH]; intros s; [done|].
  cbn [foldM app]. destruct (body s a); cbn [bind]; [apply IH | done..].
Qed.

(** Two nested loops are one loop over the concatenation. *)
Lemma foldM_nested {A B S} (body : S -> B -> result S) (f : A -> list B)
    (l : list A) (s : S) :
  foldM (fun s a => foldM body (f a) s) l s = foldM body (l ≫= f) s.
Proof.
  revert s. induction l as [|a l IH]; intros s; [done|].
  cbn [foldM]. rewrite bind_cons, foldM_app.
  destruct (foldM body (f a) s); cbn [bind]; [apply IH | done..].
Qed.

(** The inner loop of [letter_grid] performs the writes of its item. *)
Lemma letter_grid_inner (variable : Var.t) (word : string)
    (letters : list (list (option ascii))) :
  foldM (fun letters k =>
           let (i, j) := cell variable k in
           do ch <- str_index word k;
           grid_set letters i j ch)
        (seq 0 (String.length word)) letters
  = foldM (fun letters (pc : nat * nat * ascii) =>
             grid_set letters pc.1.1 pc.1.2 pc.2)
          (writes_of (variable, word)) letters.
Proof.
  unfold writes_of. cbn [fst snd].
  assert (forall k, k ∈ seq 0 (String.length word) -> k < String.length word)
    as Hks.
  { intros k Hk%elem_of_seq. lia. }
  revert Hks letters. generalize (seq 0 (String.length word)).
  induction l as [|k ks IH]; intros Hks letters; [done|].
  cbn [foldM omap list_omap].
  destruct (proj2 (string_get_is_Some word k)) as [ch Hch]; [apply Hks; left|].
  rewrite Hch. cbn [mbind option_bind foldM].
  destruct (cell variable k) as [i j] eqn:Ec.
  rewrite (proj2 (str_index_Ok word k ch) Hch). cbn [bind fst snd].
  destruct (grid_set letters i j ch); cbn [bind]; [|done..].
  apply IH. intros k' Hk'. apply Hks. by right.
Qed.

Lemma letter_grid_writes (height width : nat) (asg : assignment) :
  letter_grid height width asg
  = foldM (fun letters (pc : nat * nat * ascii) =>
             grid_set letters pc.1.1 pc.1.2 pc.2)
          (writes asg) (replicate height (replicate width None)).
Proof.
  unfold letter_grid, writes. rewrite <- foldM_nested.
  generalize (replicate height (replicate width (@None ascii))).
  induction asg as [|[variable word] asg IH]; intros letters; [done|].
  cbn [foldM]. rewrite letter_grid_inner.
  destruct (foldM _ (writes_of (variable, word)) letters); cbn [bind];
    [apply IH | done..].
Qed.

Lemma grid_set_inside (height width : nat)
    (letters : list (list (option ascii))) (i j : nat) (ch : ascii) :
  length letters = height -> Forall (fun row => length row = width) letters ->
  i < height -> j < width ->
  exists letters',
    grid_set letters i j ch = Ok letters' /\
    length letters' = height /\
    Forall (fun row => length row = width) letters' /\
    forall p, grid_get letters' p =
              if decide (p = (i, j)) then Some (Some ch)
              else grid_get letters p.
Proof.
  intros Hh Hw Hi Hj. unfold grid_set.
  destruct (lookup_lt_is_Some_2 letters i) as [row Hrow]; [lia|].
  assert (length row = width) as Hlen.
  { rewrite Forall_forall in Hw. apply Hw. by eapply list_elem_of_lookup_2. }
  rewrite Hrow, decide_True by lia.
  eexists. split; [done|]. split; [by rewrite length_insert|]. split.
  - apply Forall_insert; [done|]. by rewrite length_insert.
  - intros [a b]. unfold grid_get. cbn [fst snd].
    destruct (decide (a = i)) as [->|Ha].
    + rewrite list_lookup_insert_eq by lia. cbn.
      destruct (decide (b = j)) as [->|Hb].
      * rewrite decide_True by done. by rewrite list_lookup_insert_eq by lia.
      * rewrite decide_False by congruence.
        rewrite list_lookup_insert_ne by done. by rewrite Hrow.
    + rewrite decide_False by congruence.
      by rewrite list_lookup_insert_ne by done.
Qed.

Lemma grid_set_outside (height width : nat)
    (letters : list (list (option ascii))) (i j : nat) (ch : ascii) :
  length letters = height -> Forall (fun row => length row = width) letters ->
  ~ (i < height /\ j < width) ->
  grid_set letters i j ch = Raise IndexError.
Proof.
  intros Hh Hw Hout. unfold grid_set.
  destruct (letters !! i) as [row|] eqn:Hrow; [|done].
  assert (length row = width) as Hlen.
  { rewrite Forall_forall in Hw. apply Hw. by eapply list_elem_of_lookup_2. }
  apply lookup_lt_Some in Hrow. rewrite decide_False; [done|]. lia.
Qed.

Lemma last_filter_cons {A} (P : A -> Prop) `{!forall x, Decision (P x)}
    (a : A) (l : list A) :
  last (filter P (a :: l)) =
  match last (filter P l) with
  | Some x => Some x
  | None => if decide (P a) then Some a else None
  end.
Proof.
  rewrite filter_cons. destruct (decide (P a)); [|by destruct (last _)].
  destruct (filter P l) as [|b l']; [done|].
  rewrite last_cons. by destruct (last (b :: l')).
Qed.

Lemma writes_inside (height width : nat)
    (ws : list (nat * nat * ascii)) :
  forall letters,
    length letters = height -> Forall (fun row => length row = width) letters ->
    (forall pc, pc ∈ ws -> pc.1.1 < height /\ pc.1.2 < width) ->
    exists letters',
      foldM (fun letters (pc : nat * nat * ascii) =>
               grid_set letters pc.1.1 pc.1.2 pc.2) ws letters = Ok letters' /\
      length letters' = height /\
      Forall (fun row => length row = width) letters' /\
      forall p, grid_get letters' p =
                match last (filter (fun pc => pc.1 = p) ws) with
                | Some pc => Some (Some pc.2)
                | None => grid_get letters p
                end.
Proof.
  induction ws as [|[[i j] ch] ws IH]; intros letters Hh Hw Hin.
  { exists letters. done. }
  destruct (Hin ((i, j), ch)) as [Hi Hj]; [left|]. cbn [fst snd] in Hi, Hj.
  destruct (grid_set_inside height width letters i j ch Hh Hw Hi Hj)
    as (letters1 & E1 & Hh1 & Hw1 & Hget1).
  destruct (IH letters1 Hh1 Hw1) as (letters' & E & Hh' & Hw' & Hget).
  { intros pc Hpc. apply Hin. by right. }
  exists letters'. cbn [foldM fst snd]. rewrite E1. cbn [bind].
  split; [done|]. split; [done|]. split; [done|].
  intros p. rewrite Hget, last_filter_cons.
  destruct (last (filter _ ws)); [done|].
  rewrite Hget1. cbn [fst]. destruct (decide ((i, j) = p)) as [<-|Hne].
  - by rewrite decide_True.
  - by rewrite decide_False by congruence.
Qed.

Lemma writes_outside (height width : nat)
    (ws : list (nat * nat * ascii)) :
  forall letters,
    length letters = height -> Forall (fun row => length row = width) letters ->
    Exists (fun pc => ~ (pc.1.1 < height /\ pc.1.2 < width)) ws ->
    foldM (fun letters (pc : nat * nat * ascii) =>
             grid_set letters pc.1.1 pc.1.2 pc.2) ws letters
    = Raise IndexError.
Proof.
  induction ws as [|[[i j] ch] ws IH]; intros letters Hh Hw Hex.
  { by apply Exists_nil in Hex. }
  cbn [foldM fst snd].
  destruct (decide (i < height /\ j < width)) as [[Hi Hj]|Hout].
  - destruct (grid_set_inside height width letters i j ch Hh Hw Hi Hj)
      as (letters1 & -> & Hh1 & Hw1 & _).
    cbn [bind]. apply IH; [done..|].
    apply Exists_cons in Hex as [Hhd|?]; [|done].
    cbn [fst snd] in Hhd. by destruct Hhd.
  - by rewrite (grid_set_outside height width letters i j ch).
Qed.

Lemma grid_get_replicate (height width : nat) (p : nat * nat) :
  p.1 < height -> p.2 < width ->
  grid_get (replicate height (replicate width (@None ascii))) p = Some None.
Proof.
  intros H1 H2. unfold grid_get.
  rewrite (lookup_replicate_2 _ _ _ H1). cbn.
  by rewrite (lookup_replicate_2 _ _ _ H2).
Qed.

(** X15: when every letter of every word falls inside the grid,
    [letter_grid] returns a grid of [height] rows of [width] cells, and
    each cell holds the letter written to it last, in the order of the
    assignment, or [None] when no slot covers it. *)
Theorem letter_grid_spec (height width : nat) (asg : assignment) :
  (forall pc, pc ∈ writes asg -> pc.1.1 < height /\ pc.1.2 < width) ->
  exists letters,
    letter_grid height width asg = Ok letters /\
    length letters = height /\
    Forall (fun row => length row = width) letters /\
    forall p, p.1 < height -> p.2 < width ->
      grid_get letters p =
      Some (snd <$> last (filter (fun pc => pc.1 = p) (writes asg))).
Proof.
  intros Hin. rewrite letter_grid_writes.
  destruct (writes_inside height width (writes asg)
              (replicate height (replicate width None)))
    as (letters & E & Hh & Hw & Hget); [| |done|].
  - apply length_replicate.
  - apply Forall_replicate, length_replicate.
  - exists letters. split; [done|]. split; [done|]. split; [done|].
    intros p H1 H2. rewrite Hget.
    destruct (last (filter _ (writes asg))); [done|].
    by apply grid_get_replicate.
Qed.

Lemma letter_grid_spec_witness :
  let asg : assignment :=
    [(Examples.X3, "ADA"); (Examples.Z2, "AA"); (Examples.Y2, "AD")]%string in
  exists letters,
    letter_grid 2 3 asg = Ok letters /\
    length letters = 2 /\
    Forall (fun row => length row = 3) letters /\
    forall p, p.1 < 2 -> p.2 < 3 ->
      grid_get letters p =
      Some (snd <$> last (filter (fun pc => pc.1 = p) (writes asg))).
Proof.
  intros asg. apply letter_grid_spec.
  apply Forall_forall. apply (bool_decide_unpack _). vm_compute. exact I.
Defined.

(** X16: when some letter of some word falls outside the grid,
    [letter_grid] raises [IndexError]. *)
Theorem letter_grid_outside (height width : nat) (asg : assignment) :
  Exists (fun pc => ~ (pc.1.1 < height /\ pc.1.2 < width)) (writes asg) ->
  letter_grid height width asg = Raise IndexError.
Proof.
  intros Hex. rewrite letter_grid_writes.
  apply (writes_outside height width); [| |done].
  - apply length_replicate.
  - apply Forall_replicate, length_replicate.
Qed.

Lemma letter_grid_outside_witness :
  letter_grid 2 2 [(Examples.X3, "ADA"%string)] = Raise IndexError.
Proof.
  apply letter_grid_outside.
  apply (bool_decide_unpack _). vm_compute. exact I.
Defined.
